(** * The scikit-image tutorial notebooks: arrays, visualization, filtering

    The repository holds three Jupyter notebooks (src/arrays.ipynb and the
    two documents stored one after the other in src/visualization.ipynb).
    This development embeds

    - the one function the notebooks define, [imshow_all], as a function in
      a small writer/error monad over a keyword dictionary;
    - the array statements whose values matter (integer overflow, masks,
      slice assignment) on lists of integers and rationals;
    - the cells themselves, statement by statement, as syntax trees of the
      Python subset they are written in, together with an executable
      semantics of a notebook session at the level of names, object
      identities, library calls and file-system events.                    *)

From Stdlib Require Import ZArith QArith.
From stdpp Require Import gmap strings list.

Local Open Scope string_scope.
Set Warnings "-register-all,-clear-no-such-hyp".

(** ** Python exceptions and results *)

Module Py.

Inductive exn : Type :=
| NameError (name : string)
| ValueError (msg : string)
| TypeError (msg : string)
| IndexError (msg : string)
| AttributeError (msg : string)
| LibraryError (callee : string) (code : nat)
| UserError (type_name : string).

Inductive result (A : Type) : Type :=
| Ok (a : A)
| Raise (e : exn).
Arguments Ok {A} a.
Arguments Raise {A} e.

Definition rbind {A B} (r : result A) (k : A -> result B) : result B :=
  match r with
  | Ok a => k a
  | Raise e => Raise e
  end.

(** [\[f(x) for x in xs\]] for a fallible [f]: the first failure aborts. *)
Fixpoint rmap {A B} (f : A -> result B) (xs : list A) : result (list B) :=
  match xs with
  | [] => Ok []
  | x :: xs' => rbind (f x) (fun y => rbind (rmap f xs') (fun ys => Ok (y :: ys)))
  end.

(** Values that travel through [**kwargs]. *)
Inductive pyval : Type :=
| PNone
| PBool (b : bool)
| PInt (z : Z)
| PFloat (q : Q)
| PStr (s : string)
| PStrs (l : list string)
| PPair (a b : pyval).

(** [iter(v)]: the items of a sized, iterable value. *)
Definition py_items (v : pyval) : option (list pyval) :=
  match v with
  | PStrs l => Some (PStr <$> l)
  | PStr s => Some ((fun c => PStr (String c EmptyString)) <$> String.list_ascii_of_string s)
  | PPair a b => Some [a; b]
  | _ => None
  end.

Definition py_len (v : pyval) : result Z :=
  match py_items v with
  | Some l => Ok (Z.of_nat (length l))
  | None => Raise (TypeError "object has no len()")
  end.

Definition py_list (v : pyval) : result (list pyval) :=
  match py_items v with
  | Some l => Ok l
  | None => Raise (TypeError "object is not iterable")
  end.

(** [\[x\] * n]: the empty list when [n] is negative. *)
Definition py_repeat {A} (x : A) (n : Z) : list A := replicate (Z.to_nat n) x.

(** [v == s] for a string literal [s]. *)
Definition py_eq_str (v : pyval) (s : string) : bool :=
  match v with
  | PStr s' => bool_decide (s' = s)
  | _ => false
  end.

(** [d.setdefault(k, v)]: [v] was evaluated by the caller already. *)
Definition setdefault (k : string) (v : pyval) (d : gmap string pyval)
  : gmap string pyval :=
  match d !! k with
  | Some _ => d
  | None => <[k := v]> d
  end.

(** [d.pop(k, dflt)]. *)
Definition pop (k : string) (dflt : pyval) (d : gmap string pyval)
  : pyval * gmap string pyval :=
  (default dflt (d !! k), delete k d).

(** The builtins [min] and [max] over the values of a generator. *)
Fixpoint qmin_list (x : Q) (xs : list Q) : Q :=
  match xs with
  | [] => x
  | y :: ys => qmin_list (if Qlt_le_dec y x then y else x) ys
  end.

Fixpoint qmax_list (x : Q) (xs : list Q) : Q :=
  match xs with
  | [] => x
  | y :: ys => qmax_list (if Qlt_le_dec x y then y else x) ys
  end.

Definition py_min (xs : list Q) : result Q :=
  match xs with
  | [] => Raise (ValueError "min() arg is an empty sequence")
  | x :: xs' => Ok (qmin_list x xs')
  end.

Definition py_max (xs : list Q) : result Q :=
  match xs with
  | [] => Raise (ValueError "max() arg is an empty sequence")
  | x :: xs' => Ok (qmax_list x xs')
  end.

(** [m] is the least (greatest) element of [xs]. *)
Definition is_minimum (m : Q) (xs : list Q) : Prop :=
  m ∈ xs ∧ ∀ x, x ∈ xs -> (m <= x)%Q.

Definition is_maximum (m : Q) (xs : list Q) : Prop :=
  m ∈ xs ∧ ∀ x, x ∈ xs -> (x <= m)%Q.

(** [zip(a, b, c)] stops at the shortest argument. *)
Fixpoint zip3 {A B C} (a : list A) (b : list B) (c : list C) : list (A * B * C) :=
  match a, b, c with
  | x :: a', y :: b', z :: c' => (x, y, z) :: zip3 a' b' c'
  | _, _, _ => []
  end.

End Py.

(** ** The helper [imshow_all] (src/visualization.ipynb, second document)

    The library functions it calls are parameters: [img_as_float], the
    array reductions [img.min()] and [img.max()] (through [samples], the
    values of an array in iteration order), [plt.subplots] and
    [axes.ravel()].  [ax.imshow] and [ax.set_title] are recorded as events.
    Pixel values of a float image are modelled as rationals.  [globals] is
    the set of names bound in the notebook's namespace when the function is
    called and [call_dtype_limits] the behaviour of whatever object the name
    [dtype_limits] would be bound to. *)

Module Helper.
Import Py.

Section imshow_all.

Variables image fimage grid axis : Type.
Variable img_as_float : image -> fimage.
Variable samples : fimage -> list Q.
Variable subplots : Z -> Z -> Q * Q -> result grid.
Variable ravel : grid -> result (list axis).
Variable globals : gset string.
Variable call_dtype_limits : fimage -> result (pyval * pyval).

Inductive event : Type :=
| EvSubplots (nrows ncols : Z) (figsize : Q * Q)
| EvImshow (ax : axis) (img : fimage) (kwargs : gmap string pyval)
| EvSetTitle (ax : axis) (label : pyval).

(** Computations that plot: the events emitted so far and the outcome. *)
Definition M (A : Type) : Type := list event * result A.

Definition ret {A} (a : A) : M A := ([], Ok a).
Definition throw {A} (e : exn) : M A := ([], Raise e).
Definition emit (ev : event) : M unit := ([ev], Ok tt).
Definition lift {A} (r : result A) : M A := ([], r).

Definition bind {A B} (m : M A) (k : A -> M B) : M B :=
  match m with
  | (tr, Ok a) => let '(tr', r) := k a in ((tr ++ tr')%list, r)
  | (tr, Raise e) => (tr, Raise e)
  end.

#[local] Instance M_ret : MRet M := @ret.
#[local] Instance M_bind : MBind M := fun A B k m => bind m k.

(** [img.min()] and [img.max()]: numpy refuses an array without elements. *)
Definition array_min (img : fimage) : result Q :=
  match samples img with
  | [] => Raise (ValueError "zero-size array to reduction operation minimum which has no identity")
  | x :: xs => Ok (qmin_list x xs)
  end.

Definition array_max (img : fimage) : result Q :=
  match samples img with
  | [] => Raise (ValueError "zero-size array to reduction operation maximum which has no identity")
  | x :: xs => Ok (qmax_list x xs)
  end.

(** Lines 408-410: the titles, padded with [''] up to the number of images. *)
Definition pad_titles (images : list fimage) (titles : pyval) : result (list pyval) :=
  rbind (py_len titles) (fun n =>
  rbind (py_list titles) (fun items =>
  if bool_decide (n ≠ Z.of_nat (length images))
  then Ok ((items ++ py_repeat (PStr EmptyString) (Z.of_nat (length images) - n))%list)
  else Ok items)).

(** Lines 412-419: the intensity limits. *)
Definition set_limits (images : list fimage) (limits : pyval)
    (kwargs : gmap string pyval) : result (gmap string pyval) :=
  if py_eq_str limits "image" then
    rbind (rbind (rmap array_min images) py_min) (fun lo =>
    let kwargs := setdefault "vmin" (PFloat lo) kwargs in
    rbind (rbind (rmap array_max images) py_max) (fun hi =>
    Ok (setdefault "vmax" (PFloat hi) kwargs)))
  else if py_eq_str limits "dtype" then
    if bool_decide ("dtype_limits" ∈ globals) then
      rbind (match images with
             | img :: _ => Ok img
             | [] => Raise (IndexError "list index out of range")
             end) (fun img0 =>
      rbind (call_dtype_limits img0) (fun '(vmin, vmax) =>
      Ok (setdefault "vmax" vmax (setdefault "vmin" vmin kwargs))))
    else Raise (NameError "dtype_limits")
  else Ok kwargs.

(** [nrows, ncols = kwargs.get('shape', (1, len(images)))] for a pair of
    integers; anything else is rejected. *)
Definition get_shape (images : list fimage) (kwargs : gmap string pyval)
  : result (Z * Z) :=
  match default (PPair (PInt 1) (PInt (Z.of_nat (length images)))) (kwargs !! "shape") with
  | PPair (PInt r) (PInt c) => Ok (r, c)
  | _ => Raise (TypeError "shape is not a pair of integers")
  end.

(** A number as the float it is multiplied into. *)
Definition as_number (v : pyval) : result Q :=
  match v with
  | PInt z => Ok (inject_Z z)
  | PFloat q => Ok q
  | _ => Raise (TypeError "size is not a number")
  end.

(** Lines 421-426: the figure size. *)
Definition figure_size (images : list fimage) (nrows : Z) (size : Q) : Q * Q :=
  let size := (inject_Z nrows * size)%Q in
  let width := (size * inject_Z (Z.of_nat (length images)))%Q in
  let width := if bool_decide (1 < nrows)%Z
               then (width / (inject_Z nrows * (133 # 100)))%Q else width in
  (width, size).

(** Lines 428-430: one [imshow] and one [set_title] per zipped triple. *)
Fixpoint show_each (kwargs : gmap string pyval)
    (triples : list (axis * fimage * pyval)) : M unit :=
  match triples with
  | [] => ret tt
  | (ax, img, label) :: rest =>
      emit (EvImshow ax img kwargs) ;;
      emit (EvSetTitle ax label) ;;
      show_each kwargs rest
  end.

(** The events of that loop. *)
Definition shown (kwargs : gmap string pyval)
    (triples : list (axis * fimage * pyval)) : list event :=
  triples ≫= (fun '(ax, img, label) => [EvImshow ax img kwargs; EvSetTitle ax label]).

(** The images a trace shows, in order. *)
Definition images_shown (tr : list event) : list fimage :=
  omap (fun ev => match ev with EvImshow _ img _ => Some img | _ => None end) tr.

(** The keyword arguments of the [imshow] calls of a trace, in order. *)
Definition keywords_shown (tr : list event) : list (gmap string pyval) :=
  omap (fun ev => match ev with EvImshow _ _ kw => Some kw | _ => None end) tr.

(** The value of [titles] is absent or a list of strings, as documented. *)
Definition titles_typed (kwargs : gmap string pyval) : Prop :=
  kwargs !! "titles" = None ∨ ∃ l, kwargs !! "titles" = Some (PStrs l).

Definition imshow_all (images : list image) (kwargs : gmap string pyval) : M unit :=
  let images := img_as_float <$> images in
  let '(titles, kwargs) := pop "titles" (PStrs []) kwargs in
  titles ← lift (pad_titles images titles) ;
  let '(limits, kwargs) := pop "limits" (PStr "image") kwargs in
  kwargs ← lift (set_limits images limits kwargs) ;
  '(nrows, ncols) ← lift (get_shape images kwargs) ;
  let '(size, kwargs) := pop "size" (PInt 5) kwargs in
  size ← lift (as_number size) ;
  let figsize := figure_size images nrows size in
  axes ← lift (subplots nrows ncols figsize) ;
  emit (EvSubplots nrows ncols figsize) ;;
  axs ← lift (ravel axes) ;
  show_each kwargs (zip3 axs images titles).

(** The outcomes of the first two stages of a call: the titles and the
    limits. *)
Definition stages (images : list image) (kwargs : gmap string pyval)
    : result (list pyval) * result (gmap string pyval) :=
  let fimgs := img_as_float <$> images in
  (pad_titles fimgs (default (PStrs []) (kwargs !! "titles")),
   set_limits fimgs
     (default (PStr "image") (delete "titles" kwargs !! "limits"))
     (delete "limits" (delete "titles" kwargs))).

End imshow_all.

Arguments imshow_all {image fimage grid axis}.
Arguments stages {image fimage}.
Arguments set_limits {fimage}.
Arguments pad_titles {fimage}.
Arguments array_min {fimage}.
Arguments array_max {fimage}.
Arguments get_shape {fimage}.
Arguments figure_size {fimage}.
Arguments show_each {fimage axis}.
Arguments shown {fimage axis}.
Arguments images_shown {fimage axis}.
Arguments keywords_shown {fimage axis}.
Arguments emit {fimage axis}.
Arguments lift {fimage axis A}.
Arguments ret {fimage axis A}.
Arguments throw {fimage axis A}.
Arguments bind {fimage axis A B}.
Arguments EvSubplots {fimage axis} nrows ncols figsize.
Arguments EvImshow {fimage axis} ax img kwargs.
Arguments EvSetTitle {fimage axis} ax label.

End Helper.

(** ** Array statements of the notebooks, on values

    A 2D array is the list of its rows.  [uint8] samples are integers kept
    in 0..255 by wrap-around; float samples are rationals. *)

Module NumPy.
Import Py.

Definition wrap8 (z : Z) : Z := z mod 256.

(** An elementwise operation on a 2D array. *)
Definition map2d {A B} (f : A -> B) (img : list (list A)) : list (list B) :=
  fmap (M := list) (fmap (M := list) f) img.

(** [k * img] for a [uint8] image. *)
Definition mul_scalar (k : Z) (img : list (list Z)) : list (list Z) :=
  map2d (fun x => wrap8 (k * x)) img.

(** [img < k] and [img > k]. *)
Definition lt_scalar (img : list (list Z)) (k : Z) : list (list bool) :=
  map2d (fun x => bool_decide (x < k)%Z) img.

Definition gt_scalar (img : list (list Z)) (k : Z) : list (list bool) :=
  map2d (fun x => bool_decide (k < x)%Z) img.

Definition qgt_scalar (img : list (list Q)) (k : Q) : list (list bool) :=
  map2d (fun x => if Qlt_le_dec k x then true else false) img.

Definition shape2 {A} (img : list (list A)) : list nat := length <$> img.

(** [img\[mask\] = v]: the mask must have the shape of the image. *)
Definition set_where {A} (mask : list (list bool)) (v : A) (img : list (list A))
  : result (list (list A)) :=
  if bool_decide (shape2 mask = shape2 img)
  then Ok (zip_with (zip_with (fun (m : bool) x => if m then v else x)) mask img)
  else Raise (IndexError "boolean index did not match indexed array").

(** [np.zeros_like(img)]. *)
Definition zeros_like (img : list (list Z)) : list (list Z) :=
  map2d (fun _ => 0%Z) img.

(** [img\[r0:r1, c0:c1, :\] = px] on an RGB image; a slice is clipped to
    the axis, as Python does. *)
Definition in_slice (lo hi i : nat) : bool := bool_decide (lo ≤ i < hi).

Definition set_block (r0 r1 c0 c1 : nat) (px : Z * Z * Z)
    (img : list (list (Z * Z * Z))) : list (list (Z * Z * Z)) :=
  imap (fun i row =>
    if in_slice r0 r1 i
    then imap (fun j old => if in_slice c0 c1 j then px else old) row
    else row) img.

(** [b - q] for a boolean array [b]: [True] counts as 1, [False] as 0. *)
Definition bool_sub (b : list (list bool)) (q : Q) : list (list Q) :=
  map2d (fun x : bool => ((if x then 1 else 0) - q)%Q) b.

(** [a += b], elementwise; the shapes must agree. *)
Definition add_arrays (a b : list (list Q)) : result (list (list Q)) :=
  if bool_decide (shape2 a = shape2 b)
  then Ok (zip_with (zip_with Qplus) a b)
  else Raise (ValueError "operands could not be broadcast together").

Definition scale (q : Q) (a : list (list Q)) : list (list Q) :=
  map2d (Qmult q) a.

(** [np.arange(n)] and [.reshape((r, c))]. *)
Definition arange (n : nat) : list Z := Z.of_nat <$> seq 0 n.

Fixpoint chunks {A} (rows c : nat) (l : list A) : list (list A) :=
  match rows with
  | O => []
  | S rows' => take c l :: chunks rows' c (drop c l)
  end.

Definition reshape {A} (r c : nat) (l : list A) : result (list (list A)) :=
  if bool_decide (length l = r * c)
  then Ok (chunks r c l)
  else Raise (ValueError "cannot reshape array").

Definition is_u8 (z : Z) : Prop := (0 ≤ z < 256)%Z.
Definition u8_image (img : list (list Z)) : Prop := Forall (Forall is_u8) img.
Definition unit_image (img : list (list Q)) : Prop :=
  Forall (Forall (fun q => (0 <= q)%Q ∧ (q <= 1)%Q)) img.

(** The sample at row [i], column [j]. *)
Definition pixel {A} (img : list (list A)) (i j : nat) : option A :=
  row ← img !! i ; row !! j.

(** [img\[r0:r1, c0:c1\]] for bounds that are not negative: a slice is
    clipped to the axis. *)
Definition crop {A} (r0 r1 c0 c1 : nat) (img : list (list A)) : list (list A) :=
  (fun row => take (c1 - c0) (drop c0 row)) <$> take (r1 - r0) (drop r0 img).

(** An index into an axis of length [n]: a negative index counts from the
    end, and an index outside [-n .. n-1] is refused. *)
Definition axis_index (n : nat) (i : Z) : result nat :=
  if bool_decide (0 ≤ i < Z.of_nat n)%Z then Ok (Z.to_nat i)
  else if bool_decide (- Z.of_nat n ≤ i < 0)%Z then Ok (Z.to_nat (Z.of_nat n + i))
  else Raise (IndexError "index is out of bounds").

(** [img\[r, c\] = px]. *)
Definition set_point {A} (px : A) (img : list (list A)) (rc : Z * Z)
  : result (list (list A)) :=
  rbind (axis_index (length img) rc.1) (fun r =>
  match img !! r with
  | Some row =>
      rbind (axis_index (length row) rc.2) (fun c => Ok (<[r := <[c := px]> row]> img))
  | None => Raise (IndexError "index is out of bounds")
  end).

(** [img\[rr, cc\] = px] for coordinate arrays [rr] and [cc] of one length,
    given as the list of their pairs. *)
Fixpoint set_points {A} (px : A) (points : list (Z * Z)) (img : list (list A))
  : result (list (list A)) :=
  match points with
  | [] => Ok img
  | rc :: rest => rbind (set_point px img rc) (set_points px rest)
  end.

(** [resolves n z i]: the index [z] into an axis of length [n] is [i]. *)
Definition resolves (n : nat) (z : Z) (i : nat) : bool :=
  match axis_index n z with
  | Ok k => bool_decide (k = i)
  | Raise _ => false
  end.

(** One of [points] addresses the sample at [(i, j)] of an array whose rows
    have the lengths [shape]. *)
Definition hits (shape : list nat) (points : list (Z * Z)) (i j : nat) : bool :=
  existsb (fun rc => resolves (length shape) rc.1 i &&
                     match shape !! i with
                     | Some w => resolves w rc.2 j
                     | None => false
                     end) points.

(** [rc] addresses a sample of an array whose rows have the lengths [shape]. *)
Definition inside (shape : list nat) (rc : Z * Z) : bool :=
  match axis_index (length shape) rc.1 with
  | Ok r =>
      match shape !! r with
      | Some w => match axis_index w rc.2 with Ok _ => true | Raise _ => false end
      | None => false
      end
  | Raise _ => false
  end.

(** The indices of the slice [start::step] of an axis of length [n], for a
    positive step: [start], [start + step], ... below [n]. *)
Definition stride (start step n : nat) : list nat :=
  (fun k => start + k * step)%nat <$> seq 0 ((n - start + (step - 1)) / step).

(** The position of the index [i] in a list of indices. *)
Definition position (i : nat) (idx : list nat) : option nat :=
  fst <$> list_find (fun k => k = i) idx.

(** [img.shape\[1\]]; 0 for an array without rows. *)
Definition width {A} (img : list (list A)) : nat := default 0%nat (head (shape2 img)).

(** [img\[rows, cols\]] for two slices, each given by its indices. *)
Definition select {A} (rows cols : list nat) (img : list (list A)) : list (list A) :=
  omap (fun i => (fun row => omap (fun j => row !! j) cols) <$> img !! i) rows.

(** [img\[rows, cols\] = vals] for two slices: the values must have the
    shape of the selection. *)
Definition set_grid {A} (rows cols : list nat) (vals img : list (list A))
  : result (list (list A)) :=
  if bool_decide (shape2 vals = shape2 (select rows cols img))
  then Ok (imap (fun i row =>
                   match position i rows with
                   | Some a =>
                       imap (fun j old =>
                               match position j cols with
                               | Some b => default old (pixel vals a b)
                               | None => old
                               end) row
                   | None => row
                   end) img)
  else Raise (ValueError "shape mismatch: value array could not be broadcast").

(** [np.arange(r * c).reshape((r, c)) + 1]. *)
Definition count_from_one (r c : nat) : result (list (list Z)) :=
  rbind (reshape r c (arange (r * c))) (fun g => Ok (map2d (fun k => (k + 1)%Z) g)).

(** src/visualization.ipynb, lines 761-762, for an image of [h] rows and
    [w] columns and the grid [(r0::rs, c0::cs)] that [util.regular_grid]
    returned:
    [seeds = np.zeros(coins.shape, dtype=int)],
    [seeds\[grid\] = np.arange(seeds\[grid\].size).reshape(seeds\[grid\].shape) + 1]. *)
Definition seeds_on_grid (h w r0 rs c0 cs : nat) : result (list (list Z)) :=
  let seeds := replicate h (replicate w 0%Z) in
  let rows := stride r0 rs h in
  let cols := stride c0 cs w in
  let sub := select rows cols seeds in
  rbind (count_from_one (length sub) (width sub)) (fun vals =>
  set_grid rows cols vals seeds).

End NumPy.

(** ** The kernel's memory, on values

    Names refer to array objects; two names may refer to one object, and an
    index assignment writes the object, not the name.  The sample loaders
    and the random noise are parameters of the statements that use them. *)

Module Kernel.
Import Py NumPy.

Inductive array : Type :=
| AGray (a : list (list Z))
| ARgb (a : list (list (Z * Z * Z)))
| ABool (a : list (list bool))
| AFloat (a : list (list Q)).

Record memory : Type := Memory {
  names : gmap string nat;
  objects : list array
}.

Definition fresh_kernel : memory := Memory ∅ [].

Definition K (A : Type) : Type := memory -> result (A * memory).

#[export] Instance K_ret : MRet K := fun A a m => Ok (a, m).
#[export] Instance K_bind : MBind K := fun A B k c m =>
  match c m with
  | Ok (a, m') => k a m'
  | Raise e => Raise e
  end.

Definition throw {A} (e : exn) : K A := fun _ => Raise e.

(** Reading a name: [NameError] when it is not bound. *)
Definition name (x : string) : K nat := fun m =>
  match names m !! x with
  | Some loc => Ok (loc, m)
  | None => Raise (NameError x)
  end.

Definition deref (loc : nat) : K array := fun m =>
  match objects m !! loc with
  | Some a => Ok (a, m)
  | None => Raise (ValueError "dangling object")
  end.

(** A new object, the result of a library call or of an operator. *)
Definition alloc (a : array) : K nat := fun m =>
  Ok (length (objects m), Memory (names m) (objects m ++ [a])%list).

(** [x = <object>]. *)
Definition assign (x : string) (loc : nat) : K unit := fun m =>
  Ok (tt, Memory (<[x := loc]> (names m)) (objects m)).

(** Writing an object in place. *)
Definition store (loc : nat) (a : array) : K unit := fun m =>
  Ok (tt, Memory (names m) (<[loc := a]> (objects m))).

Definition lift {A} (r : result A) : K A := fun m =>
  match r with
  | Ok a => Ok (a, m)
  | Raise e => Raise e
  end.

Definition as_gray (a : array) : K (list (list Z)) :=
  match a with
  | AGray g => mret g
  | _ => throw (TypeError "expected a 2D uint8 array")
  end.

Definition as_float (a : array) : K (list (list Q)) :=
  match a with
  | AFloat g => mret g
  | _ => throw (TypeError "expected a 2D float array")
  end.

(** The array a name refers to. *)
Definition value_of (x : string) : K array := loc ← name x ; deref loc.

(** [x = data.sample()]: every call of a loader returns a new array. *)
Definition load_sample (x : string) (sample : array) : K unit :=
  loc ← alloc sample ; assign x loc.

(** src/arrays.ipynb, line 98:
    [cat\[10:110, 10:110, :\] = \[255, 0, 0\]]. *)
Definition paint_red_square : K unit :=
  loc ← name "cat" ;
  a ← deref loc ;
  match a with
  | ARgb img => store loc (ARgb (set_block 10 110 10 110 (255, 0, 0)%Z img))
  | _ => throw (IndexError "too many indices for array")
  end.

(** src/arrays.ipynb, lines 145-147:
    [mask_bg = coins < 90], [coins_bg = np.copy(coins)],
    [coins_bg\[mask_bg\] = 0]. *)
Definition mask_background : K unit :=
  coins ← value_of "coins" ≫= as_gray ;
  mask ← alloc (ABool (lt_scalar coins 90)) ;
  assign "mask_bg" mask ;;
  coins ← value_of "coins" ;
  copy ← alloc coins ;
  assign "coins_bg" copy ;;
  target ← name "coins_bg" ;
  m ← value_of "mask_bg" ;
  old ← deref target ;
  match m, old with
  | ABool m, AGray old => new ← lift (set_where m 0%Z old) ; store target (AGray new)
  | _, _ => throw (IndexError "arrays used as indices must be of integer (or boolean) type")
  end.

(** src/arrays.ipynb, line 212: [camera_overflow = 2 * camera]. *)
Definition double_camera : K unit :=
  camera ← value_of "camera" ≫= as_gray ;
  loc ← alloc (AGray (mul_scalar 2 camera)) ;
  assign "camera_overflow" loc.

(** src/visualization.ipynb, lines 706-709:
    [markers = np.zeros_like(coins)], [background, foreground = 1, 2],
    [markers\[coins < 30.0\] = background],
    [markers\[coins > 150.0\] = foreground]. *)
Definition write_markers (mask : list (list bool)) (label : Z) : K unit :=
  target ← name "markers" ;
  old ← deref target ≫= as_gray ;
  new ← lift (set_where mask label old) ;
  store target (AGray new).

Definition seed_markers : K unit :=
  coins ← value_of "coins" ≫= as_gray ;
  loc ← alloc (AGray (zeros_like coins)) ;
  assign "markers" loc ;;
  let background := 1%Z in
  let foreground := 2%Z in
  coins ← value_of "coins" ≫= as_gray ;
  write_markers (lt_scalar coins 30) background ;;
  coins ← value_of "coins" ≫= as_gray ;
  write_markers (gt_scalar coins 150) foreground.

(** src/visualization.ipynb, lines 637-639:
    [im = data.binary_blobs() - 0.5],
    [im += 0.4 * np.random.randn( *im.shape)], [noisy_im = im > 0]. *)
Definition centre_blobs (blobs : list (list bool)) : K unit :=
  loc ← alloc (AFloat (bool_sub blobs (1 # 2))) ;
  assign "im" loc.

Definition add_noise (randn : list (list Q)) : K unit :=
  target ← name "im" ;
  im ← deref target ≫= as_float ;
  new ← lift (add_arrays im (scale (4 # 10) randn)) ;
  store target (AFloat new) ;;
  assign "im" target.

Definition threshold_noisy : K unit :=
  im ← value_of "im" ≫= as_float ;
  loc ← alloc (ABool (qgt_scalar im 0)) ;
  assign "noisy_im" loc.

(** src/visualization.ipynb, line 117:
    [a = 1./25 * np.arange(25).reshape((5, 5))]. *)
Definition ramp : result (list (list Q)) :=
  rbind (reshape 5 5 (arange 25)) (fun grid =>
  Ok (map2d (fun k => ((1 / 25) * inject_Z k)%Q) grid)).

(** src/visualization.ipynb, line 452: [coins_zoom = coins\[10:80, 300:370\]]. *)
Definition coins_zoom (coins : list (list Z)) : list (list Z) :=
  crop 10 80 300 370 coins.

(** src/visualization.ipynb, lines 294-295:
    [c_rr, c_cc = draw.circle_perimeter(53, 45, 22)],
    [coins_color\[c_rr, c_cc\] = (220, 20, 20)]; the coordinates that
    [circle_perimeter] returns are a parameter. *)
Definition mark_circle (perimeter : list (Z * Z)) : K unit :=
  target ← name "coins_color" ;
  a ← deref target ;
  match a with
  | ARgb img =>
      new ← lift (set_points (220, 20, 20)%Z perimeter img) ;
      store target (ARgb new)
  | _ => throw (IndexError "too many indices for array")
  end.

(** src/visualization.ipynb, lines 637-639, in order. *)
Definition noisy_blobs (blobs : list (list bool)) (randn : list (list Q)) : K unit :=
  centre_blobs blobs ;; add_noise randn ;; threshold_noisy.

End Kernel.

(** ** The Python subset the cells are written in *)

Module Syntax.

Inductive arg (E : Type) : Type :=
| APos (e : E)
| AStar (e : E)
| AKw (k : string) (e : E)
| ADStar (e : E).
Arguments APos {E} e.
Arguments AStar {E} e.
Arguments AKw {E} k e.
Arguments ADStar {E} e.

Inductive index (E : Type) : Type :=
| IAt (e : E)
| ISlice (lo hi : option E).
Arguments IAt {E} e.
Arguments ISlice {E} lo hi.

(** Operators, comparisons included, are [EBin]; a number keeps the text of
    its literal; [EComp gen elt vars iter] is the comprehension
    [\[elt for vars in iter\]], a generator expression when [gen]. *)
Inductive expr : Type :=
| EName (x : string)
| ENum (lit : string)
| EStr (s : string)
| EAttr (e : expr) (attr : string)
| ECall (f : expr) (args : list (arg expr))
| ESub (e : expr) (idx : list (index expr))
| EBin (op : string) (l r : expr)
| ETuple (es : list expr)
| EList (es : list expr)
| EComp (gen : bool) (elt : expr) (vars : list string) (iter : expr).

(** [SImport m x] is [import m] or [import m as x], binding [x];
    [STry body handler] is [try: body] / [except: handler]. *)
Inductive stmt : Type :=
| SMagic (line : string)
| SImport (module bound : string)
| SFrom (module : string) (names : list string)
| SAssign (target value : expr)
| SAug (target : expr) (op : string) (value : expr)
| SExpr (e : expr)
| SDef (name : string) (params : list string) (body : list stmt)
| SIf (test : expr) (body orelse : list stmt)
| SFor (target iter : expr) (body : list stmt)
| SWhile (test : expr) (body : list stmt)
| STry (body handler : list stmt)
| SRaise (exc : string) (args : list (arg expr)).

(** A code cell, with the line of the source file its text starts at. *)
Record cell : Type := Cell { line : nat; body : list stmt }.

Definition lines (l : list string) : string :=
  String.concat (String (Ascii.ascii_of_nat 10) EmptyString) l.

End Syntax.

(** ** The code cells of the three notebooks

    Each cell is transcribed statement by statement; comments are dropped,
    so a cell that holds only a comment is empty. *)

Module Notebooks.
Import Syntax.

(** src/arrays.ipynb. *)
Definition arrays : list cell := [
  Cell 20
   [SMagic "%matplotlib inline";
   SImport "numpy" "np";
   SImport "matplotlib.pyplot" "plt"];
  Cell 40
   [SFrom "skimage" ["data"];
   SAssign (EName "coins") (ECall (EAttr (EName "data") "coins") [])];
  Cell 50
   [SExpr (ECall (EName "type") [APos (EName "coins")])];
  Cell 59
   [SExpr (ECall (EAttr (EName "plt") "imshow") [APos (EName "coins"); AKw "cmap" (EStr "gray")])];
  Cell 68
   [SExpr (ECall (EName "print") [APos (EStr "Pixel value:"); APos (ESub (EName "coins") [IAt (ENum "0"); IAt (ENum "0")])]);
   SExpr (ECall (EName "print") [APos (EStr "Data type:"); APos (EAttr (EName "coins") "dtype")]);
   SExpr (ECall (EName "print") [APos (EStr "Interval of pixel values:"); APos (ETuple [ECall (EAttr (EName "coins") "min") []; ECall (EAttr (EName "coins") "max") []])]);
   SExpr (ECall (EName "print") [APos (EStr "Image dimension:"); APos (EAttr (EName "coins") "shape")])];
  Cell 80
   [SAssign (EName "cat") (ECall (EAttr (EName "data") "chelsea") []);
   SExpr (ECall (EAttr (EName "plt") "imshow") [APos (EName "cat")]);
   SExpr (ECall (EName "print") [APos (EAttr (EName "cat") "shape")])];
  Cell 98
   [SAssign (ESub (EName "cat") [ISlice (Some (ENum "10")) (Some (ENum "110")); ISlice (Some (ENum "10")) (Some (ENum "110")); ISlice (None) (None)]) (EList [ENum "255"; ENum "0"; ENum "0"]);
   SExpr (ECall (EAttr (EName "plt") "imshow") [APos (EName "cat")])];
  Cell 145
   [SAssign (EName "mask_bg") (EBin "<" (EName "coins") (ENum "90"));
   SAssign (EName "coins_bg") (ECall (EAttr (EName "np") "copy") [APos (EName "coins")]);
   SAssign (ESub (EName "coins_bg") [IAt (EName "mask_bg")]) (ENum "0");
   SAssign (ETuple [EName "fig"; EName "axes"]) (ECall (EAttr (EName "plt") "subplots") [AKw "ncols" (ENum "2"); AKw "figsize" (ETuple [ENum "12"; ENum "6"])]);
   SExpr (ECall (EAttr (ESub (EName "axes") [IAt (ENum "0")]) "imshow") [APos (EName "mask_bg"); AKw "cmap" (EStr "gray")]);
   SExpr (ECall (EAttr (ESub (EName "axes") [IAt (ENum "1")]) "imshow") [APos (EName "coins_bg"); AKw "cmap" (EStr "gray")])];
  Cell 178
   [];
  Cell 210
   [SAssign (EName "camera") (ECall (EAttr (EName "data") "camera") []);
   SExpr (ECall (EName "print") [APos (EStr "Data type:"); APos (EAttr (EName "camera") "dtype")]);
   SAssign (EName "camera_overflow") (EBin "*" (ENum "2") (EName "camera"));
   SAssign (ETuple [EName "fig"; EName "axes"]) (ECall (EAttr (EName "plt") "subplots") [AKw "ncols" (ENum "2"); AKw "figsize" (ETuple [ENum "10"; ENum "5"])]);
   SExpr (ECall (EAttr (ESub (EName "axes") [IAt (ENum "0")]) "imshow") [APos (EName "camera"); AKw "cmap" (EStr "gray")]);
   SExpr (ECall (EAttr (ESub (EName "axes") [IAt (ENum "1")]) "imshow") [APos (EName "camera_overflow"); AKw "cmap" (EStr "gray")])];
  Cell 224
   [SFrom "skimage" ["img_as_float"];
   SAssign (EName "camera_float") (ECall (EName "img_as_float") [APos (EName "camera")]);
   SExpr (ECall (EName "print") [APos (EStr "Max for uint dtype:"); APos (ECall (EAttr (EName "camera") "max") [])]);
   SExpr (ECall (EName "print") [APos (EStr "Max for float dtype:"); APos (ECall (EAttr (EName "camera_float") "max") [])])];
  Cell 236
   [SFrom "skimage" ["filters"];
   SAssign (EName "camera_gaussian") (ECall (EAttr (EName "filters") "gaussian") [APos (EName "camera"); AKw "sigma" (ENum "5")]);
   SExpr (ECall (EName "print") [APos (EStr "camera :"); APos (EAttr (EName "camera") "dtype"); APos (ECall (EAttr (EName "camera") "max") [])]);
   SExpr (ECall (EName "print") [APos (EStr "camera_gaussian:"); APos (EAttr (EName "camera_gaussian") "dtype"); APos (ECall (EAttr (EName "camera_gaussian") "max") [])]);
   SExpr (ECall (EAttr (EName "plt") "imshow") [APos (EName "camera_gaussian"); AKw "cmap" (EStr "gray")])];
  Cell 258
   [SImport "skimage" "skimage";
   SImport "os" "os";
   SAssign (EName "data_dir") (EAttr (EName "skimage") "data_dir");
   SAssign (EName "camera_filename") (ECall (EAttr (EAttr (EName "os") "path") "join") [APos (EName "data_dir"); APos (EStr "camera.png")]);
   SExpr (ECall (EName "print") [APos (EName "camera_filename")])];
  Cell 271
   [SFrom "skimage" ["io"];
   SAssign (EName "camera") (ECall (EAttr (EName "io") "imread") [APos (EName "camera_filename")]);
   SExpr (ECall (EAttr (EName "plt") "imshow") [APos (EName "camera"); AKw "cmap" (EStr "gray")])];
  Cell 282
   [SImport "tempfile" "tempfile";
   SAssign (EName "tmp_dir") (ECall (EAttr (EName "tempfile") "mkdtemp") []);
   SAssign (EName "file_name") (ECall (EAttr (EAttr (EName "os") "path") "join") [APos (EName "tmp_dir"); APos (EStr "my_camera.png")]);
   SExpr (ECall (EAttr (EName "io") "imsave") [APos (EName "file_name"); APos (EName "camera")]);
   SExpr (ECall (EAttr (EName "os") "listdir") [APos (EName "tmp_dir")])];
  Cell 295
   [SAssign (EName "file_name") (ECall (EAttr (EAttr (EName "os") "path") "join") [APos (EName "tmp_dir"); APos (EStr "gaussian_camera.png")]);
   SExpr (ECall (EAttr (EName "io") "imsave") [APos (EName "file_name"); APos (EName "camera_gaussian")])]
].

(** src/visualization.ipynb, first document (lines 1-343). *)
Definition visualization : list cell := [
  Cell 24
   [SMagic "%matplotlib notebook"];
  Cell 35
   [SImport "numpy" "np";
   SImport "matplotlib.pyplot" "plt"];
  Cell 54
   [SFrom "skimage" ["data"];
   SAssign (EName "cat") (ECall (EAttr (EName "data") "chelsea") [])];
  Cell 66
   [SExpr (ECall (EAttr (EName "plt") "imshow") [APos (EName "cat")]);
   SExpr (ECall (EAttr (EName "plt") "axis") [APos (EStr "off")])];
  Cell 79
   [SAssign (EName "camera") (ECall (EAttr (EName "data") "camera") [])];
  Cell 88
   [SExpr (ECall (EAttr (EName "plt") "figure") []);
   SExpr (ECall (EAttr (EName "plt") "imshow") [APos (EName "camera")]);
   SExpr (ECall (EAttr (EName "plt") "colorbar") [])];
  Cell 101
   [SExpr (ECall (EAttr (EName "plt") "gray") [])];
  Cell 117
   [SAssign (EName "a") (EBin "*" (EBin "/" (ENum "1.") (ENum "25")) (ECall (EAttr (ECall (EAttr (EName "np") "arange") [APos (ENum "25")]) "reshape") [APos (ETuple [ENum "5"; ENum "5"])]));
   SExpr (ECall (EAttr (EName "plt") "figure") []);
   SExpr (ECall (EAttr (EName "plt") "imshow") [APos (EName "a")])];
  Cell 128
   [SExpr (ECall (EAttr (EName "plt") "figure") []);
   SExpr (ECall (EAttr (EName "plt") "imshow") [APos (EName "a"); AKw "interpolation" (EStr "bicubic")])];
  Cell 145
   [SExpr (ECall (EAttr (EName "plt") "figure") []);
   SExpr (ECall (EAttr (EName "plt") "imshow") [APos (EBin "<" (EName "camera") (ENum "40"))])];
  Cell 157
   [SExpr (ECall (EAttr (EName "plt") "figure") []);
   SExpr (ECall (EAttr (EName "plt") "imshow") [APos (EName "camera")]);
   SExpr (ECall (EAttr (EName "plt") "contour") [APos (EName "camera"); APos (EList [ENum "40"]); AKw "colors" (EStr "r")])];
  Cell 175
   [SImport "tempfile" "tempfile";
   SImport "os" "os";
   SAssign (EName "tmp_dir") (ECall (EAttr (EName "tempfile") "mkdtemp") []);
   SAssign (EName "file_name_png") (ECall (EAttr (EAttr (EName "os") "path") "join") [APos (EName "tmp_dir"); APos (EStr "figure.png")]);
   SExpr (ECall (EAttr (EName "plt") "savefig") [APos (EName "file_name_png")]);
   SAssign (EName "file_name_pdf") (ECall (EAttr (EAttr (EName "os") "path") "join") [APos (EName "tmp_dir"); APos (EStr "figure.pdf")]);
   SExpr (ECall (EAttr (EName "plt") "savefig") [APos (EName "file_name_pdf")]);
   SExpr (ECall (EAttr (EName "os") "listdir") [APos (EName "tmp_dir")])];
  Cell 199
   [SFrom "skimage" ["feature"]];
  Cell 208
   [SAssign (EName "coords") (ECall (EAttr (EName "feature") "corner_peaks") [APos (ECall (EAttr (EName "feature") "corner_harris") [APos (EName "camera")]); AKw "min_distance" (ENum "3")]);
   SExpr (ECall (EName "print") [APos (EAttr (EName "coords") "shape")])];
  Cell 218
   [SExpr (ECall (EAttr (EName "plt") "figure") []);
   SExpr (ECall (EAttr (EName "plt") "imshow") [APos (EName "camera")]);
   SExpr (ECall (EAttr (EName "plt") "plot") [APos (ESub (EName "coords") [ISlice (None) (None); IAt (ENum "1")]); APos (ESub (EName "coords") [ISlice (None) (None); IAt (ENum "0")]); APos (EStr "+y"); AKw "ms" (ENum "10")])];
  Cell 249
   [];
  Cell 269
   [SFrom "skimage" ["draw"; "transform"]];
  Cell 280
   [SExpr (ECall (EAttr (EName "plt") "figure") []);
   SAssign (EName "coins") (ECall (EAttr (EName "data") "coins") []);
   SExpr (ECall (EAttr (EName "plt") "imshow") [APos (EName "coins")]);
   SFrom "skimage" ["color"];
   SAssign (EName "coins_color") (ECall (EAttr (EName "color") "gray2rgb") [APos (EName "coins")]);
   SExpr (ECall (EAttr (EName "plt") "imshow") [APos (EName "coins_color")])];
  Cell 294
   [SAssign (ETuple [EName "c_rr"; EName "c_cc"]) (ECall (EAttr (EName "draw") "circle_perimeter") [APos (ENum "53"); APos (ENum "45"); APos (ENum "22")]);
   SAssign (ESub (EName "coins_color") [IAt (EName "c_rr"); IAt (EName "c_cc")]) (ETuple [ENum "220"; ENum "20"; ENum "20"]);
   SExpr (ECall (EAttr (EName "plt") "imshow") [APos (ESub (EName "coins_color") [ISlice (None) (Some (ENum "200")); ISlice (None) (Some (ENum "200"))])])];
  Cell 312
   [SAssign (EName "coffee") (ECall (EAttr (EName "data") "coffee") []);
   SFrom "skimage" ["segmentation"];
   SAssign (EName "superpixels") (ECall (EAttr (EName "segmentation") "slic") [APos (EName "coffee")]);
   SAssign (ETuple [EName "fig"; EName "ax"]) (ECall (EAttr (EName "plt") "subplots") [AKw "ncols" (ENum "2"); AKw "figsize" (ETuple [ENum "8"; ENum "4"])]);
   SAssign (EName "ax") (ECall (EAttr (EName "ax") "ravel") []);
   SExpr (ECall (EAttr (ESub (EName "ax") [IAt (ENum "0")]) "imshow") [APos (EName "superpixels"); AKw "cmap" (EStr "nipy_spectral")]);
   SExpr (ECall (EAttr (ESub (EName "ax") [IAt (ENum "1")]) "imshow") [APos (ECall (EAttr (EName "segmentation") "mark_boundaries") [APos (EName "coffee"); APos (EName "superpixels")])])]
].

(** src/visualization.ipynb, second document (from line 344). *)
Definition filtering : list cell := [
  Cell 371
   [SMagic "%matplotlib inline";
   SImport "numpy" "np";
   SImport "matplotlib.pyplot" "plt"];
  Cell 384
   [SFrom "skimage" ["img_as_float"];
   SDef "imshow_all" ["*images"; "**kwargs"]
     [SExpr (EStr (lines [" Plot a series of images side-by-side."; EmptyString; "    Convert all images to float so that images have a common intensity"; "    range."; EmptyString; "    Parameters"; "    ----------"; "    limits : str"; "        Control the intensity limits. By default, 'image' is used set the"; "        min/max intensities to the min/max of all images. Setting `limits` to"; "        'dtype' can also be used if you want to preserve the image exposure."; "    titles : list of str"; "        Titles for subplots. If the length of titles is less than the number"; "        of images, empty strings are appended."; "    kwargs : dict "; "        Additional keyword-arguments passed to `imshow`."; "    "]));
      SAssign (EName "images") (EComp false (ECall (EName "img_as_float") [APos (EName "img")]) ["img"] (EName "images"));
      SAssign (EName "titles") (ECall (EAttr (EName "kwargs") "pop") [APos (EStr "titles"); APos (EList [])]);
      SIf (EBin "!=" (ECall (EName "len") [APos (EName "titles")]) (ECall (EName "len") [APos (EName "images")]))
        [SAssign (EName "titles") (EBin "+" (ECall (EName "list") [APos (EName "titles")]) (EBin "*" (EList [EStr EmptyString]) (EBin "-" (ECall (EName "len") [APos (EName "images")]) (ECall (EName "len") [APos (EName "titles")]))))]
        [];
      SAssign (EName "limits") (ECall (EAttr (EName "kwargs") "pop") [APos (EStr "limits"); APos (EStr "image")]);
      SIf (EBin "==" (EName "limits") (EStr "image"))
        [SExpr (ECall (EAttr (EName "kwargs") "setdefault") [APos (EStr "vmin"); APos (ECall (EName "min") [APos (EComp true (ECall (EAttr (EName "img") "min") []) ["img"] (EName "images"))])]);
         SExpr (ECall (EAttr (EName "kwargs") "setdefault") [APos (EStr "vmax"); APos (ECall (EName "max") [APos (EComp true (ECall (EAttr (EName "img") "max") []) ["img"] (EName "images"))])])]
        [SIf (EBin "==" (EName "limits") (EStr "dtype"))
           [SAssign (ETuple [EName "vmin"; EName "vmax"]) (ECall (EName "dtype_limits") [APos (ESub (EName "images") [IAt (ENum "0")])]);
            SExpr (ECall (EAttr (EName "kwargs") "setdefault") [APos (EStr "vmin"); APos (EName "vmin")]);
            SExpr (ECall (EAttr (EName "kwargs") "setdefault") [APos (EStr "vmax"); APos (EName "vmax")])]
           []];
      SAssign (ETuple [EName "nrows"; EName "ncols"]) (ECall (EAttr (EName "kwargs") "get") [APos (EStr "shape"); APos (ETuple [ENum "1"; ECall (EName "len") [APos (EName "images")]])]);
      SAssign (EName "size") (EBin "*" (EName "nrows") (ECall (EAttr (EName "kwargs") "pop") [APos (EStr "size"); APos (ENum "5")]));
      SAssign (EName "width") (EBin "*" (EName "size") (ECall (EName "len") [APos (EName "images")]));
      SIf (EBin ">" (EName "nrows") (ENum "1"))
        [SAug (EName "width") "/" (EBin "*" (EName "nrows") (ENum "1.33"))]
        [];
      SAssign (ETuple [EName "fig"; EName "axes"]) (ECall (EAttr (EName "plt") "subplots") [AKw "nrows" (EName "nrows"); AKw "ncols" (EName "ncols"); AKw "figsize" (ETuple [EName "width"; EName "size"])]);
      SFor (ETuple [EName "ax"; EName "img"; EName "label"]) (ECall (EName "zip") [APos (ECall (EAttr (EName "axes") "ravel") []); APos (EName "images"); APos (EName "titles")])
        [SExpr (ECall (EAttr (EName "ax") "imshow") [APos (EName "img"); ADStar (EName "kwargs")]);
         SExpr (ECall (EAttr (EName "ax") "set_title") [APos (EName "label")])]]];
  Cell 450
   [SFrom "skimage" ["data"; "filters"];
   SAssign (EName "coins") (ECall (EAttr (EName "data") "coins") []);
   SAssign (EName "coins_zoom") (ESub (EName "coins") [ISlice (Some (ENum "10")) (Some (ENum "80")); ISlice (Some (ENum "300")) (Some (ENum "370"))]);
   SExpr (ECall (EAttr (EName "plt") "imshow") [APos (EName "coins_zoom"); AKw "cmap" (EStr "gray")])];
  Cell 473
   [SAssign (EName "gaussian_coins") (ECall (EAttr (EName "filters") "gaussian") [APos (EName "coins_zoom"); APos (ENum "2")]);
   SExpr (ECall (EAttr (EName "plt") "imshow") [APos (EName "gaussian_coins"); AKw "cmap" (EStr "gray")])];
  Cell 483
   [SAssign (EName "median_coins") (ECall (EAttr (EAttr (EName "filters") "rank") "median") [APos (EName "coins_zoom"); APos (ECall (EAttr (EName "np") "ones") [APos (ETuple [ENum "3"; ENum "3"])])]);
   SExpr (ECall (EAttr (EName "plt") "imshow") [APos (EName "median_coins"); AKw "cmap" (EStr "gray")])];
  Cell 504
   [];
  Cell 524
   [SAssign (ESub (EAttr (EName "plt") "rcParams") [IAt (EStr "image.cmap")]) (EStr "cubehelix")];
  Cell 533
   [SAssign (EName "image") (ECall (EAttr (EName "np") "array") [APos (EList [EList [ENum "0"; ENum "0"; ENum "0"; ENum "0"; ENum "0"; ENum "0"; ENum "0"]; EList [ENum "0"; ENum "0"; ENum "0"; ENum "0"; ENum "0"; ENum "0"; ENum "0"]; EList [ENum "0"; ENum "0"; ENum "1"; ENum "1"; ENum "1"; ENum "0"; ENum "0"]; EList [ENum "0"; ENum "0"; ENum "1"; ENum "1"; ENum "1"; ENum "0"; ENum "0"]; EList [ENum "0"; ENum "0"; ENum "1"; ENum "1"; ENum "1"; ENum "0"; ENum "0"]; EList [ENum "0"; ENum "0"; ENum "0"; ENum "0"; ENum "0"; ENum "0"; ENum "0"]; EList [ENum "0"; ENum "0"; ENum "0"; ENum "0"; ENum "0"; ENum "0"; ENum "0"]]); AKw "dtype" (EAttr (EName "np") "uint8")]);
   SExpr (ECall (EAttr (EName "plt") "imshow") [APos (EName "image")])];
  Cell 562
   [SFrom "skimage" ["morphology"];
   SAssign (EName "sq") (ECall (EAttr (EName "morphology") "square") [AKw "width" (ENum "3")]);
   SAssign (EName "dia") (ECall (EAttr (EName "morphology") "diamond") [AKw "radius" (ENum "1")]);
   SExpr (ECall (EName "print") [APos (EStr (lines ["square:"; EmptyString])); APos (EName "sq")]);
   SExpr (ECall (EName "print") [APos (EStr (lines ["diamond:"; EmptyString])); APos (EName "dia")])];
  Cell 584
   [SAssign (EName "eroded") (ECall (EAttr (EName "morphology") "erosion") [APos (EName "image"); APos (EName "dia")]);
   SExpr (ECall (EName "imshow_all") [APos (EName "image"); APos (EName "eroded"); AKw "shape" (ETuple [ENum "1"; ENum "2"])])];
  Cell 594
   [SAssign (EName "eroded_too_much") (ECall (EAttr (EName "morphology") "erosion") [APos (EName "image"); APos (ECall (EAttr (EName "morphology") "square") [APos (ENum "5")])]);
   SExpr (ECall (EName "imshow_all") [APos (EName "image"); APos (EName "eroded_too_much"); AKw "shape" (ETuple [ENum "1"; ENum "2"])])];
  Cell 604
   [SAssign (EName "dil_dia") (ECall (EAttr (EName "morphology") "dilation") [APos (EName "eroded"); APos (EName "dia")]);
   SExpr (ECall (EName "imshow_all") [APos (EName "eroded"); APos (EName "dil_dia"); AKw "shape" (ETuple [ENum "1"; ENum "2"])])];
  Cell 614
   [SAssign (EName "dil_sq") (ECall (EAttr (EName "morphology") "dilation") [APos (EName "eroded"); APos (EName "sq")]);
   SExpr (ECall (EName "imshow_all") [APos (EName "eroded"); APos (EName "dil_sq"); AKw "shape" (ETuple [ENum "1"; ENum "2"])])];
  Cell 637
   [SAssign (EName "im") (EBin "-" (ECall (EAttr (EName "data") "binary_blobs") []) (ENum "0.5"));
   SAug (EName "im") "+" (EBin "*" (ENum "0.4") (ECall (EAttr (EAttr (EName "np") "random") "randn") [AStar (EAttr (EName "im") "shape")]));
   SAssign (EName "noisy_im") (EBin ">" (EName "im") (ENum "0"));
   SExpr (ECall (EAttr (EName "plt") "imshow") [APos (EName "noisy_im")])];
  Cell 649
   [];
  Cell 674
   [SAssign (ESub (EAttr (EName "plt") "rcParams") [IAt (EStr "image.cmap")]) (EStr "viridis")];
  Cell 692
   [SAssign (EName "coins") (ECall (EAttr (EName "data") "coins") []);
   SExpr (ECall (EAttr (EName "plt") "imshow") [APos (EName "coins"); AKw "cmap" (EStr "gray")]);
   SExpr (ECall (EName "print") [APos (ECall (EAttr (EName "filters") "threshold_otsu") [APos (EName "coins")])]);
   SAssign (EName "cs") (ECall (EAttr (EName "plt") "contour") [APos (EName "coins"); APos (EList [ENum "30"; ENum "100"; ENum "150"]); AKw "cmap" (EStr "plasma")]);
   SExpr (ECall (EAttr (EName "plt") "colorbar") [APos (EName "cs")])];
  Cell 705
   [SAssign (EName "edges") (ECall (EAttr (EName "filters") "sobel") [APos (EName "coins")]);
   SAssign (EName "markers") (ECall (EAttr (EName "np") "zeros_like") [APos (EName "coins")]);
   SAssign (ETuple [EName "background"; EName "foreground"]) (ETuple [ENum "1"; ENum "2"]);
   SAssign (ESub (EName "markers") [IAt (EBin "<" (EName "coins") (ENum "30.0"))]) (EName "background");
   SAssign (ESub (EName "markers") [IAt (EBin ">" (EName "coins") (ENum "150.0"))]) (EName "foreground");
   SFrom "skimage" ["segmentation"];
   SAssign (EName "ws") (ECall (EAttr (EName "segmentation") "watershed") [APos (EName "edges"); APos (EName "markers")]);
   SExpr (ECall (EAttr (EName "plt") "figure") [AKw "figsize" (ETuple [ENum "12"; ENum "4"])]);
   SExpr (ECall (EAttr (EName "plt") "subplot") [APos (ENum "131")]);
   SExpr (ECall (EAttr (EName "plt") "imshow") [APos (EName "markers")]);
   SExpr (ECall (EAttr (EName "plt") "title") [APos (EStr "Markers")]);
   SExpr (ECall (EAttr (EName "plt") "axis") [APos (EStr "off")]);
   SExpr (ECall (EAttr (EName "plt") "subplot") [APos (ENum "132")]);
   SExpr (ECall (EAttr (EName "plt") "imshow") [APos (EName "edges")]);
   SExpr (ECall (EAttr (EName "plt") "title") [APos (EStr "Edges")]);
   SExpr (ECall (EAttr (EName "plt") "axis") [APos (EStr "off")]);
   SExpr (ECall (EAttr (EName "plt") "subplot") [APos (ENum "133")]);
   SExpr (ECall (EAttr (EName "plt") "imshow") [APos (EName "ws")]);
   SExpr (ECall (EAttr (EName "plt") "title") [APos (EStr "Watershed segmentation")]);
   SExpr (ECall (EAttr (EName "plt") "axis") [APos (EStr "off")])];
  Cell 758
   [SFrom "skimage" ["util"; "color"];
   SAssign (EName "grid") (ECall (EAttr (EName "util") "regular_grid") [APos (EAttr (EName "coins") "shape"); AKw "n_points" (ENum "100")]);
   SAssign (EName "seeds") (ECall (EAttr (EName "np") "zeros") [APos (EAttr (EName "coins") "shape"); AKw "dtype" (EName "int")]);
   SAssign (ESub (EName "seeds") [IAt (EName "grid")]) (EBin "+" (ECall (EAttr (ECall (EAttr (EName "np") "arange") [APos (EAttr (ESub (EName "seeds") [IAt (EName "grid")]) "size")]) "reshape") [APos (EAttr (ESub (EName "seeds") [IAt (EName "grid")]) "shape")]) (ENum "1"));
   SAssign (EName "ws_seeds") (ECall (EAttr (EName "segmentation") "watershed") [APos (EName "edges"); APos (EName "seeds"); AKw "compactness" (ENum "0.01")]);
   SAssign (ETuple [EName "fig"; ETuple [EName "ax0"; EName "ax1"]]) (ECall (EAttr (EName "plt") "subplots") [APos (ENum "1"); APos (ENum "2"); AKw "figsize" (ETuple [ENum "10"; ENum "4"])]);
   SExpr (ECall (EAttr (EName "ax0") "imshow") [APos (EName "coins"); AKw "cmap" (EStr "gray")]);
   SExpr (ECall (EAttr (EName "ax0") "contour") [APos (EBin ">" (EName "seeds") (ENum "0")); AKw "colors" (EStr "y"); AKw "linewidths" (ENum "4")]);
   SExpr (ECall (EAttr (EName "ax0") "set_title") [APos (EStr "Image with seeds")]);
   SExpr (ECall (EAttr (EName "ax1") "imshow") [APos (ECall (EAttr (EName "color") "label2rgb") [APos (EName "ws_seeds"); APos (EName "coins")])]);
   SExpr (ECall (EAttr (EName "ax1") "set_title") [APos (EStr "Compact watershed")])];
  Cell 798
   [SExpr (ECall (EAttr (EName "plt") "imshow") [APos (EName "ws")])];
  Cell 807
   [SFrom "skimage" ["measure"];
   SAssign (EName "labels") (ECall (EAttr (EName "measure") "label") [APos (EName "ws")]);
   SExpr (ECall (EAttr (EName "plt") "imshow") [APos (EName "labels")]);
   SExpr (ECall (EName "print") [APos (EStr "number of coins:"); APos (ECall (EAttr (EName "labels") "max") [])])];
  Cell 819
   [SExpr (ECall (EAttr (EName "plt") "imshow") [APos (EBin "==" (EName "labels") (ENum "10"))])];
  Cell 828
   [SAssign (EName "properties") (ECall (EAttr (EName "measure") "regionprops") [APos (EName "labels"); APos (EName "coins")]);
   SExpr (ECall (EName "print") [APos (EName "properties")]);
   SExpr (ECall (EName "print") [APos (ECall (EName "dir") [APos (ESub (EName "properties") [IAt (ENum "0")])])])];
  Cell 839
   [SAssign (EName "areas") (EComp false (EAttr (EName "prop") "area") ["prop"] (EName "properties"));
   SExpr (ECall (EName "print") [APos (EStr "areas:"); APos (EName "areas")]);
   SAssign (EName "mean_intensities") (EComp false (EAttr (EName "prop") "mean_intensity") ["prop"] (EName "properties"));
   SExpr (ECall (EName "print") [APos (EStr "mean intensities:"); APos (EName "mean_intensities")])];
  Cell 879
   [SFrom "skimage" ["feature"];
   SAssign (EName "canny") (ECall (EAttr (EName "feature") "canny") [APos (EName "coins")]);
   SExpr (ECall (EAttr (EName "plt") "imshow") [APos (EName "canny")])];
  Cell 890
   [SAssign (EName "sobel") (ECall (EAttr (EName "filters") "sobel") [APos (EName "coins")]);
   SExpr (ECall (EAttr (EName "plt") "imshow") [APos (EName "sobel")]);
   SExpr (ECall (EAttr (EName "plt") "colorbar") [])];
  Cell 901
   [SExpr (ECall (EAttr (EName "plt") "imshow") [APos (EBin ">" (EName "sobel") (ENum "0.15"))])];
  Cell 910
   [SAssign (EName "text") (ECall (EAttr (EName "data") "text") []);
   SAssign (EName "coords") (ECall (EAttr (EName "feature") "corner_peaks") [APos (ECall (EAttr (EName "feature") "corner_harris") [APos (EName "text")]); AKw "min_distance" (ENum "3")]);
   SExpr (ECall (EAttr (EName "plt") "imshow") [APos (EName "text"); AKw "cmap" (EStr "gray")]);
   SExpr (ECall (EAttr (EName "plt") "plot") [APos (ESub (EName "coords") [ISlice (None) (None); IAt (ENum "1")]); APos (ESub (EName "coords") [ISlice (None) (None); IAt (ENum "0")]); APos (EStr "+r")])]
].


Definition all_notebooks : list (list cell) := [arrays; visualization; filtering].

End Notebooks.

(** ** A notebook session: names, objects, calls

    The semantics follows a kernel through the cells at the level of the
    namespace and of the calls made.  A value is known by its identity (an
    object returned by some call), not by its content.  Every operation that
    runs library code is a call: a function or method call, an operator
    ([operator.<op>]), an indexing ([operator.getitem]), an index assignment
    ([operator.setitem]) and an augmented assignment ([operator.i<op>]).
    What the library does is the [world]'s part: whether the n-th call of
    the session raises, how many items an iterated collection has, and how
    a test comes out.  A call of [imshow_all] is one call, like a library
    call; its body is the subject of [Helper]. *)

Module Session.
Import Py Syntax.

Inductive aval : Type :=
| VObj (id : nat)
| VNum (lit : string)
| VStr (s : string)
| VLib (path : string)
| VAttr (self : aval) (attr : string)
| VFun (name : string)
| VTmpDir (id : nat)
| VJoin (base leaf : aval)
| VSeq (items : list aval)
| VPart (whole : aval) (i : nat).

Inductive event : Type :=
| Call (callee : aval) (args : list (string * aval)) (result : aval)
| Failed (callee : aval) (args : list (string * aval)) (e : exn).

Record world : Type := World {
  raises : nat -> option exn;
  items : nat -> nat;
  truth : nat -> bool
}.

(** The kernel: the namespace, the number of objects created, the numbers
    of collections iterated and of tests made, and the calls so far. *)
Record state : Type := State {
  env : gmap string aval;
  nobj : nat;
  nloops : nat;
  ntests : nat;
  trace : list event
}.

Definition fresh_kernel : state := State ∅ 0 0 0 [].

Inductive res (A : Type) : Type :=
| Val (a : A) (σ : state)
| Exc (e : exn) (σ : state)
| Fuel.
Arguments Val {A} a σ.
Arguments Exc {A} e σ.
Arguments Fuel {A}.

Definition andthen {A B} (r : res A) (k : A -> state -> res B) : res B :=
  match r with
  | Val a σ => k a σ
  | Exc e σ => Exc e σ
  | Fuel => Fuel
  end.

Definition builtins : list string :=
  ["abs"; "all"; "any"; "bool"; "dict"; "dir"; "enumerate"; "float"; "int";
   "len"; "list"; "map"; "max"; "min"; "print"; "range"; "set"; "sorted";
   "str"; "sum"; "tuple"; "type"; "zip"].

Definition lookup_name (x : string) (σ : state) : option aval :=
  match env σ !! x with
  | Some v => Some v
  | None => if bool_decide (x ∈ builtins) then Some (VLib ("builtins." ++ x)) else None
  end.

Definition bind_name (x : string) (v : aval) (σ : state) : state :=
  State (<[x := v]> (env σ)) (nobj σ) (nloops σ) (ntests σ) (trace σ).

Definition with_env (m : gmap string aval) (σ : state) : state :=
  State m (nobj σ) (nloops σ) (ntests σ) (trace σ).

Definition log (ev : event) (σ : state) : state :=
  State (env σ) (nobj σ) (nloops σ) (ntests σ) (trace σ ++ [ev])%list.

Definition new_object (σ : state) : state :=
  State (env σ) (S (nobj σ)) (nloops σ) (ntests σ) (trace σ).

Definition next_loop (σ : state) : state :=
  State (env σ) (nobj σ) (S (nloops σ)) (ntests σ) (trace σ).

Definition next_test (σ : state) : state :=
  State (env σ) (nobj σ) (nloops σ) (S (ntests σ)) (trace σ).

Definition attr_of (v : aval) (a : string) : aval :=
  match v with
  | VLib p => VLib (p ++ "." ++ a)
  | _ => VAttr v a
  end.

(** The i-th component of a value that is unpacked or iterated. *)
Definition part (v : aval) (i : nat) : aval :=
  match v with
  | VSeq l => default (VPart v i) (l !! i)
  | _ => VPart v i
  end.

Definition immutable (v : aval) : bool :=
  match v with
  | VNum _ | VStr _ => true
  | _ => false
  end.

Definition in_place (path : string) : bool :=
  bool_decide (path ∈ ["operator.i+"; "operator.i-"; "operator.i*"; "operator.i/"]).

(** What a call that returns hands back.  [tempfile.mkdtemp] returns a new
    directory and [os.path.join] a path below its first argument; indexing
    returns (a part or a view of) the indexed object, and an augmented
    assignment to a mutable object returns that object, updated in place;
    any other call returns a new object. *)
Definition returned (callee : aval) (args : list (string * aval)) (σ : state)
  : aval * state :=
  let fresh := (VObj (nobj σ), new_object σ) in
  match callee with
  | VLib path =>
      if bool_decide (path = "tempfile.mkdtemp") then (VTmpDir (nobj σ), new_object σ)
      else
        match args with
        | (_, v) :: rest =>
            if bool_decide (path = "os.path.join") then
              match rest with
              | [(_, leaf)] => (VJoin v leaf, σ)
              | _ => fresh
              end
            else if bool_decide (path = "operator.getitem") then (v, σ)
            else if in_place path && negb (immutable v) then (v, σ)
            else fresh
        | [] => fresh
        end
  | _ => fresh
  end.

(** [x, y, ... = v]: each name gets its component of [v]. *)
Fixpoint bind_parts (xs : list string) (v : aval) (i : nat) (σ : state) : state :=
  match xs with
  | [] => σ
  | x :: xs' => bind_parts xs' v (S i) (bind_name x (part v i) σ)
  end.

Definition bind_vars (xs : list string) (v : aval) (σ : state) : state :=
  match xs with
  | [x] => bind_name x v σ
  | _ => bind_parts xs v 0 σ
  end.

(** The names of an assignment target, each with the path of the component
    it receives: [fig, (ax0, ax1)] gives [fig] the path [0], [ax0] the path
    [1; 0] and [ax1] the path [1; 1].  A target that is not a name or a
    tuple of targets has none. *)
Fixpoint flatten_target (t : expr) : option (list (string * list nat)) :=
  match t with
  | EName x => Some [(x, [])]
  | ETuple ts | EList ts =>
      (fix go (ts : list expr) (i : nat) : option (list (string * list nat)) :=
         match ts with
         | [] => Some []
         | t :: ts' =>
             match flatten_target t, go ts' (S i) with
             | Some a, Some b => Some ((prod_map id (cons i) <$> a) ++ b)%list
             | _, _ => None
             end
         end) ts 0
  | _ => None
  end.

Definition target_names (t : expr) : option (list string) :=
  fmap (M := option) (fmap (M := list) fst) (flatten_target t).

Definition bind_flat (v : aval) (ps : list (string * list nat)) (σ : state) : state :=
  foldl (fun σ '(x, path) => bind_name x (foldl part v path) σ) σ ps.

Definition bind_target (t : expr) (v : aval) (σ : state) : option state :=
  fmap (M := option) (fun ps => bind_flat v ps σ) (flatten_target t).

(** [import m] binds the top-level package, [import m as x] the module. *)
Definition imported (m x : string) : aval :=
  if String.prefix (x ++ ".") m then VLib x else VLib m.

Section semantics.

Variable w : world.

(** One call: the world decides whether it raises. *)
Definition call (callee : aval) (args : list (string * aval)) (σ : state) : res aval :=
  match raises w (length (trace σ)) with
  | Some e => Exc e (log (Failed callee args e) σ)
  | None =>
      let '(v, σ') := returned callee args σ in
      Val v (log (Call callee args v) σ')
  end.

Section with_eval.

Variable ev : expr -> state -> res aval.

Fixpoint eval_list (es : list expr) (σ : state) : res (list aval) :=
  match es with
  | [] => Val [] σ
  | e :: es' =>
      andthen (ev e σ) (fun v σ =>
      andthen (eval_list es' σ) (fun vs σ => Val (v :: vs) σ))
  end.

Definition eval_arg (a : arg expr) (σ : state) : res (string * aval) :=
  match a with
  | APos e => andthen (ev e σ) (fun v σ => Val (EmptyString, v) σ)
  | AStar e => andthen (ev e σ) (fun v σ => Val ("*", v) σ)
  | AKw k e => andthen (ev e σ) (fun v σ => Val (k, v) σ)
  | ADStar e => andthen (ev e σ) (fun v σ => Val ("**", v) σ)
  end.

Fixpoint eval_args (args : list (arg expr)) (σ : state) : res (list (string * aval)) :=
  match args with
  | [] => Val [] σ
  | a :: args' =>
      andthen (eval_arg a σ) (fun v σ =>
      andthen (eval_args args' σ) (fun vs σ => Val (v :: vs) σ))
  end.

Definition eval_opt (o : option expr) (σ : state) : res aval :=
  match o with
  | Some e => ev e σ
  | None => Val (VLib "builtins.None") σ
  end.

Definition eval_index (i : index expr) (σ : state) : res (string * aval) :=
  match i with
  | IAt e => andthen (ev e σ) (fun v σ => Val (EmptyString, v) σ)
  | ISlice lo hi =>
      andthen (eval_opt lo σ) (fun l σ =>
      andthen (eval_opt hi σ) (fun h σ => Val (":", VSeq [l; h]) σ))
  end.

Fixpoint eval_indices (idx : list (index expr)) (σ : state) : res (list (string * aval)) :=
  match idx with
  | [] => Val [] σ
  | i :: idx' =>
      andthen (eval_index i σ) (fun v σ =>
      andthen (eval_indices idx' σ) (fun vs σ => Val (v :: vs) σ))
  end.

(** The elements of a comprehension over a collection of [n] items, from
    item [i] on; the loop variables live in the comprehension only. *)
Fixpoint eval_items (elt : expr) (vars : list string) (coll : aval)
    (n i : nat) (σ : state) : res (list aval) :=
  match n with
  | O => Val [] σ
  | S n' =>
      andthen (ev elt (bind_vars vars (part coll i) σ)) (fun v σ2 =>
      andthen (eval_items elt vars coll n' (S i) σ2) (fun vs σ3 => Val (v :: vs) σ3))
  end.

End with_eval.

Fixpoint eval (fuel : nat) (e : expr) (σ : state) : res aval :=
  match fuel with
  | O => Fuel
  | S n =>
      match e with
      | EName x =>
          match lookup_name x σ with
          | Some v => Val v σ
          | None => Exc (NameError x) σ
          end
      | ENum lit => Val (VNum lit) σ
      | EStr s => Val (VStr s) σ
      | EAttr e a => andthen (eval n e σ) (fun v σ => Val (attr_of v a) σ)
      | ECall f args =>
          andthen (eval n f σ) (fun vf σ =>
          andthen (eval_args (eval n) args σ) (fun vs σ => call vf vs σ))
      | ESub e idx =>
          andthen (eval n e σ) (fun v σ =>
          andthen (eval_indices (eval n) idx σ) (fun ix σ =>
          call (VLib "operator.getitem") ((EmptyString, v) :: ix) σ))
      | EBin op l r =>
          andthen (eval n l σ) (fun vl σ =>
          andthen (eval n r σ) (fun vr σ =>
          call (VLib ("operator." ++ op)) [(EmptyString, vl); (EmptyString, vr)] σ))
      | ETuple es => andthen (eval_list (eval n) es σ) (fun vs σ => Val (VSeq vs) σ)
      | EList es => andthen (eval_list (eval n) es σ) (fun vs σ => Val (VSeq vs) σ)
      | EComp _ elt vars iter =>
          andthen (eval n iter σ) (fun coll σ =>
          let saved := env σ in
          let count := items w (nloops σ) in
          match eval_items (eval n) elt vars coll count 0 (next_loop σ) with
          | Val vs σ => Val (VSeq vs) (with_env saved σ)
          | Exc e σ => Exc e (with_env saved σ)
          | Fuel => Fuel
          end)
      end
  end.

(** An assignment to [target], the value being known. *)
Definition assign (ev : expr -> state -> res aval) (target : expr) (v : aval)
    (σ : state) : res unit :=
  match target with
  | ESub base idx =>
      andthen (ev base σ) (fun vb σ =>
      andthen (eval_indices ev idx σ) (fun ix σ =>
      andthen (call (VLib "operator.setitem")
                 ((EmptyString, vb) :: ix ++ [(EmptyString, v)])%list σ) (fun _ σ =>
      Val tt σ)))
  | EAttr base a =>
      andthen (ev base σ) (fun vb σ =>
      andthen (call (VLib "operator.setattr")
                 [(EmptyString, vb); (EmptyString, VStr a); (EmptyString, v)] σ) (fun _ σ =>
      Val tt σ))
  | _ =>
      match bind_target target v σ with
      | Some σ' => Val tt σ'
      | None => Exc (TypeError "unsupported assignment target") σ
      end
  end.

Section with_exec.

Variable ex : stmt -> state -> res unit.

Fixpoint exec_list (ss : list stmt) (σ : state) : res unit :=
  match ss with
  | [] => Val tt σ
  | s :: ss' => andthen (ex s σ) (fun _ σ => exec_list ss' σ)
  end.

(** The body of a [for] loop over a collection of [n] items, from item [i]. *)
Fixpoint exec_items (target : expr) (body : list stmt) (coll : aval)
    (n i : nat) (σ : state) : res unit :=
  match n with
  | O => Val tt σ
  | S n' =>
      match bind_target target (part coll i) σ with
      | Some σ1 =>
          andthen (exec_list body σ1) (fun _ σ2 =>
          exec_items target body coll n' (S i) σ2)
      | None => Exc (TypeError "unsupported loop target") σ
      end
  end.

End with_exec.

Fixpoint exec (fuel : nat) (s : stmt) (σ : state) : res unit :=
  match fuel with
  | O => Fuel
  | S n =>
      match s with
      | SMagic _ => Val tt σ
      | SImport m x => Val tt (bind_name x (imported m x) σ)
      | SFrom m names =>
          Val tt (foldl (fun σ x => bind_name x (VLib (m ++ "." ++ x)) σ) σ names)
      | SAssign target value =>
          andthen (eval n value σ) (fun v σ => assign (eval n) target v σ)
      | SAug target op value =>
          andthen (eval n target σ) (fun old σ =>
          andthen (eval n value σ) (fun v σ =>
          andthen (call (VLib ("operator.i" ++ op))
                     [(EmptyString, old); (EmptyString, v)] σ) (fun r σ =>
          assign (eval n) target r σ)))
      | SExpr e => andthen (eval n e σ) (fun _ σ => Val tt σ)
      | SDef f _ _ => Val tt (bind_name f (VFun f) σ)
      | SIf test body orelse =>
          andthen (eval n test σ) (fun _ σ =>
          exec_list (exec n) (if truth w (ntests σ) then body else orelse) (next_test σ))
      | SFor target iter body =>
          andthen (eval n iter σ) (fun coll σ =>
          exec_items (exec n) target body coll (items w (nloops σ)) 0 (next_loop σ))
      | SWhile test body =>
          andthen (eval n test σ) (fun _ σ =>
          if truth w (ntests σ)
          then andthen (exec_list (exec n) body (next_test σ)) (fun _ σ =>
               exec n (SWhile test body) σ)
          else Val tt (next_test σ))
      | STry body handler =>
          match exec_list (exec n) body σ with
          | Exc _ σ' => exec_list (exec n) handler σ'
          | r => r
          end
      | SRaise exc args =>
          andthen (eval_args (eval n) args σ) (fun _ σ => Exc (UserError exc) σ)
      end
  end.

(** A cell runs its statements in order; a session runs its cells in order
    and stops at the first cell that raises. *)
Definition run_cell (fuel : nat) (c : cell) (σ : state) : res unit :=
  exec_list (exec fuel) (body c) σ.

Fixpoint run_cells (fuel : nat) (cs : list cell) (σ : state) : res unit :=
  match cs with
  | [] => Val tt σ
  | c :: cs' => andthen (run_cell fuel c σ) (fun _ σ => run_cells fuel cs' σ)
  end.

End semantics.

(** The world in which every library call returns; every iterated
    collection has [n] items and every test succeeds. *)
Definition calm (n : nat) : world := World (fun _ => None) (fun _ => n) (fun _ => true).

(** The worlds in which every library call returns. *)
Definition quiet (items : nat -> nat) (truth : nat -> bool) : world :=
  World (fun _ => None) items truth.

(** The world in which only call number [k] raises, with [e]. *)
Definition failing (k : nat) (e : exn) : world :=
  World (fun i => if bool_decide (i = k) then Some e else None) (fun _ => 0) (fun _ => true).

Definition final_state {A} (r : res A) : option state :=
  match r with
  | Val _ σ => Some σ
  | Exc _ σ => Some σ
  | Fuel => None
  end.

(** *** Reading a trace *)

Definition succeeded (ev : event) : bool :=
  match ev with
  | Call _ _ _ => true
  | Failed _ _ _ => false
  end.

(** The object a call writes in place, if it writes one. *)
Definition written (ev : event) : option aval :=
  match ev with
  | Call (VLib path) ((_, v) :: _) _ =>
      if bool_decide (path = "operator.setitem") || bool_decide (path = "operator.setattr")
         || (in_place path && negb (immutable v))
      then Some v else None
  | _ => None
  end.

(** The function whose call returned object [id]. *)
Definition producer (id : nat) (tr : list event) : option aval :=
  head (omap (fun ev => match ev with
                        | Call callee _ (VObj id') =>
                            if bool_decide (id' = id) then Some callee else None
                        | _ => None
                        end) tr).

End Session.

(** ** Static checks on the syntax *)

Module Static.
Import Syntax.

Definition arg_expr (a : arg expr) : expr :=
  match a with
  | APos e | AStar e | AKw _ e | ADStar e => e
  end.

(** [any_expr p e]: [p] holds of [e] or of one of its subexpressions. *)
Fixpoint any_expr (p : expr -> bool) (e : expr) : bool :=
  p e ||
  match e with
  | EName _ | ENum _ | EStr _ => false
  | EAttr e _ => any_expr p e
  | ECall f args =>
      any_expr p f ||
      existsb (fun a => match a with
                        | APos e | AStar e | AKw _ e | ADStar e => any_expr p e
                        end) args
  | ESub e idx =>
      any_expr p e ||
      existsb (fun i => match i with
                        | IAt e => any_expr p e
                        | ISlice lo hi =>
                            match lo with Some e => any_expr p e | None => false end ||
                            match hi with Some e => any_expr p e | None => false end
                        end) idx
  | EBin _ l r => any_expr p l || any_expr p r
  | ETuple es | EList es => existsb (any_expr p) es
  | EComp _ elt _ iter => any_expr p elt || any_expr p iter
  end.

(** The expressions a statement evaluates itself (not those of the
    statements nested in it). *)
Definition stmt_exprs (s : stmt) : list expr :=
  match s with
  | SAssign t v => [t; v]
  | SAug t _ v => [t; v]
  | SExpr e => [e]
  | SIf test _ _ => [test]
  | SFor t iter _ => [t; iter]
  | SWhile test _ => [test]
  | SRaise _ args => arg_expr <$> args
  | _ => []
  end.

(** [any_stmt p s]: [p] holds of [s] or of a statement nested in [s],
    function bodies included. *)
Fixpoint any_stmt (p : stmt -> bool) (s : stmt) : bool :=
  p s ||
  match s with
  | SDef _ _ b => existsb (any_stmt p) b
  | SIf _ b1 b2 => existsb (any_stmt p) b1 || existsb (any_stmt p) b2
  | SFor _ _ b => existsb (any_stmt p) b
  | SWhile _ b => existsb (any_stmt p) b
  | STry b h => existsb (any_stmt p) b || existsb (any_stmt p) h
  | _ => false
  end.

Definition is_try (s : stmt) : bool := match s with STry _ _ => true | _ => false end.
Definition is_raise (s : stmt) : bool := match s with SRaise _ _ => true | _ => false end.
Definition is_while (s : stmt) : bool := match s with SWhile _ _ => true | _ => false end.
Definition is_def (s : stmt) : bool := match s with SDef _ _ _ => true | _ => false end.
Definition is_branch (s : stmt) : bool := match s with SIf _ _ _ => true | _ => false end.
Definition is_loop (s : stmt) : bool :=
  match s with SFor _ _ _ | SWhile _ _ => true | _ => false end.
Definition is_compound (s : stmt) : bool :=
  is_def s || is_branch s || is_loop s || is_try s.
Definition is_comprehension (e : expr) : bool :=
  match e with EComp _ _ _ _ => true | _ => false end.
Definition has_comprehension (s : stmt) : bool :=
  existsb (any_expr is_comprehension) (stmt_exprs s).

(** A statement that, at any depth, handles no exception, raises none
    itself and has no [while] loop. *)
Definition good (s : stmt) : Prop :=
  any_stmt (fun s => is_try s || is_raise s || is_while s) s = false.

(** A program that handles no exception, raises none itself and has no
    [while] loop. *)
Definition plain (ss : list stmt) : bool :=
  negb (existsb (any_stmt (fun s => is_try s || is_raise s || is_while s)) ss).

(** A cell without computation of the notebook's own: no function
    definition, branch, loop, handler or comprehension. *)
Definition library_only (c : cell) : bool :=
  negb (existsb (any_stmt (fun s => is_compound s || has_comprehension s)) (body c)).

Definition defined_functions (c : cell) : list string :=
  omap (fun s => match s with SDef f _ _ => Some f | _ => None end) (body c).

(** How many statements satisfying [p] a program holds. *)
Fixpoint count_stmt (p : stmt -> bool) (s : stmt) : nat :=
  (if p s then 1 else 0) +
  match s with
  | SDef _ _ b => sum_list_with (count_stmt p) b
  | SIf _ b1 b2 => sum_list_with (count_stmt p) b1 + sum_list_with (count_stmt p) b2
  | SFor _ _ b => sum_list_with (count_stmt p) b
  | SWhile _ b => sum_list_with (count_stmt p) b
  | STry b h => sum_list_with (count_stmt p) b + sum_list_with (count_stmt p) h
  | _ => 0
  end.

(** *** Names *)

Definition known (B : list string) (x : string) : bool :=
  bool_decide (x ∈ B) || bool_decide (x ∈ Session.builtins).

(** Every name [e] reads is in [B] or a builtin. *)
Fixpoint expr_ok (B : list string) (e : expr) : bool :=
  match e with
  | EName x => known B x
  | ENum _ | EStr _ => true
  | EAttr e _ => expr_ok B e
  | ECall f args =>
      expr_ok B f &&
      forallb (fun a => match a with
                        | APos e | AStar e | AKw _ e | ADStar e => expr_ok B e
                        end) args
  | ESub e idx =>
      expr_ok B e &&
      forallb (fun i => match i with
                        | IAt e => expr_ok B e
                        | ISlice lo hi =>
                            match lo with Some e => expr_ok B e | None => true end &&
                            match hi with Some e => expr_ok B e | None => true end
                        end) idx
  | EBin _ l r => expr_ok B l && expr_ok B r
  | ETuple es | EList es => forallb (expr_ok B) es
  | EComp _ elt vars iter => expr_ok B iter && expr_ok (vars ++ B) elt
  end.

(** The names bound once an assignment to [t] is done. *)
Definition target_ok (B : list string) (t : expr) : option (list string) :=
  match t with
  | ESub base idx => if expr_ok B t then Some B else None
  | EAttr base _ => if expr_ok B base then Some B else None
  | _ => match Session.target_names t with
         | Some xs => Some (xs ++ B)%list
         | None => None
         end
  end.

Section check_list.
Variable chk : list string -> stmt -> option (list string).

Fixpoint check_list (B : list string) (ss : list stmt) : option (list string) :=
  match ss with
  | [] => Some B
  | s :: ss' =>
      match chk B s with
      | Some B' => check_list B' ss'
      | None => None
      end
  end.

End check_list.

Definition both (B1 B2 : list string) : list string :=
  filter (fun x => x ∈ B2) B1.

(** [names_ok B s]: run after the names [B] are bound, [s] reads no name
    that is not bound; the result lists the names bound afterwards. *)
Fixpoint names_ok (B : list string) (s : stmt) : option (list string) :=
  match s with
  | SMagic _ => Some B
  | SImport _ x => Some (x :: B)
  | SFrom _ names => Some (names ++ B)%list
  | SAssign t v => if expr_ok B v then target_ok B t else None
  | SAug t _ v => if expr_ok B t && expr_ok B v then target_ok B t else None
  | SExpr e => if expr_ok B e then Some B else None
  | SDef f _ _ => Some (f :: B)
  | SIf test b1 b2 =>
      if expr_ok B test then
        match check_list names_ok B b1, check_list names_ok B b2 with
        | Some B1, Some B2 => Some (both B1 B2)
        | _, _ => None
        end
      else None
  | SFor t iter b =>
      if expr_ok B iter then
        match Session.target_names t with
        | Some xs =>
            match check_list names_ok (xs ++ B)%list b with
            | Some _ => Some B
            | None => None
            end
        | None => None
        end
      else None
  | SWhile test b =>
      if expr_ok B test then
        match check_list names_ok B b with
        | Some _ => Some B
        | None => None
        end
      else None
  | STry b h =>
      match check_list names_ok B b, check_list names_ok B h with
      | Some B1, Some B2 => Some (both B1 B2)
      | _, _ => None
      end
  | SRaise _ args =>
      if forallb (fun a => expr_ok B (arg_expr a)) args then Some B else None
  end.

(** A cell that reads no name but those it binds itself, and the builtins. *)
Definition self_contained (c : cell) : bool :=
  match check_list names_ok [] (body c) with
  | Some _ => true
  | None => false
  end.

(** The lines of the self-contained cells of a notebook. *)
Definition independent_cells (nb : list cell) : list nat :=
  omap (fun c => if self_contained c then Some (line c) else None) nb.

(** The lines of the cells of a notebook that are not [library_only]. *)
Definition local_cells (nb : list cell) : list nat :=
  omap (fun c => if library_only c then None else Some (line c)) nb.

(** The statements of a notebook, in order. *)
Definition program (cs : list cell) : list stmt := cs ≫= body.

(** The names a statement can bind in the kernel's namespace. *)
Fixpoint binds (s : stmt) : list string :=
  match s with
  | SImport _ x => [x]
  | SFrom _ names => names
  | SAssign t _ | SAug t _ _ => default [] (Session.target_names t)
  | SDef f _ _ => [f]
  | SIf _ b1 b2 => (b1 ≫= binds) ++ (b2 ≫= binds)
  | SFor t _ b => default [] (Session.target_names t) ++ (b ≫= binds)
  | SWhile _ b => b ≫= binds
  | STry b h => (b ≫= binds) ++ (h ≫= binds)
  | _ => []
  end%list.

(** *** Sizes, to bound the fuel a run needs *)

Fixpoint esize (e : expr) : nat :=
  S match e with
    | EName _ | ENum _ | EStr _ => 0
    | EAttr e _ => esize e
    | ECall f args =>
        esize f + sum_list_with (fun a => match a with
                                          | APos e | AStar e | AKw _ e | ADStar e => esize e
                                          end) args
    | ESub e idx =>
        esize e + sum_list_with (fun i => match i with
                                          | IAt e => esize e
                                          | ISlice lo hi =>
                                              match lo with Some e => esize e | None => 0 end +
                                              match hi with Some e => esize e | None => 0 end
                                          end) idx
    | EBin _ l r => esize l + esize r
    | ETuple es | EList es => sum_list_with esize es
    | EComp _ elt _ iter => esize elt + esize iter
    end.

Fixpoint ssize (s : stmt) : nat :=
  S (sum_list_with esize (stmt_exprs s) +
     match s with
     | SDef _ _ _ => 0
     | SIf _ b1 b2 => sum_list_with ssize b1 + sum_list_with ssize b2
     | SFor _ _ b => sum_list_with ssize b
     | SWhile _ b => sum_list_with ssize b
     | STry b h => sum_list_with ssize b + sum_list_with ssize h
     | _ => 0
     end).

End Static.

(** ** What a run can be said to have done *)

Module Outcomes.
Import Py Syntax Session.

(** The names [B] are bound in the kernel. *)
Definition covers (σ : state) (B : list string) : Prop :=
  ∀ x, x ∈ B -> is_Some (env σ !! x).

(** The run left the namespace as it was. *)
Definition keeps_env {A} (σ : state) (r : res A) : Prop :=
  match r with
  | Val _ σ' | Exc _ σ' => env σ' = env σ
  | Fuel => True
  end.

(** Between [σ] and [σ'] no name was unbound, and only names of [xs] were
    bound. *)
Definition env_between (σ : state) (xs : list string) (σ' : state) : Prop :=
  (∀ x, is_Some (env σ !! x) -> is_Some (env σ' !! x))
  ∧ (∀ x, is_Some (env σ' !! x) -> is_Some (env σ !! x) ∨ x ∈ xs).

Definition bounded {A} (σ : state) (xs : list string) (r : res A) : Prop :=
  match r with
  | Val _ σ' | Exc _ σ' => env_between σ xs σ'
  | Fuel => True
  end.

(** [clean w σ r]: the run from [σ] ended, and it ended in one of two ways.
    Either every call it made returned, because the world let it, and the
    run completed; or every call but the last returned, the last call is
    the one the world made raise, and the run ended there with the
    exception of that call. *)
Inductive clean {A} (w : world) (σ : state) : res A -> Prop :=
| clean_val a σ' evs :
    trace σ' = (trace σ ++ evs)%list ->
    Forall (fun ev => succeeded ev = true) evs ->
    (∀ i, (i < length evs)%nat -> raises w (length (trace σ) + i) = None) ->
    clean w σ (Val a σ')
| clean_exc e σ' evs callee args :
    trace σ' = (trace σ ++ evs ++ [Failed callee args e])%list ->
    Forall (fun ev => succeeded ev = true) evs ->
    (∀ i, (i < length evs)%nat -> raises w (length (trace σ) + i) = None) ->
    raises w (length (trace σ) + length evs) = Some e ->
    clean w σ (Exc e σ').

(** [sound w σ B' r]: [r] is a clean outcome, and if the run completed the
    names [B'] are bound. *)
Definition sound (w : world) (σ : state) (B' : list string) (r : res unit) : Prop :=
  clean w σ r ∧ ∀ σ', r = Val tt σ' -> covers σ' B'.

(** *** File-system events *)

Inductive fs_event : Type :=
| FsSample (loader : string)
| FsRead (path : aval)
| FsWrite (writer : string) (path : aval)
| FsMkdtemp (dir : aval)
| FsListDir (dir : aval).

(** The loaders of bundled sample images; [data.binary_blobs] computes its
    image and reads no file. *)
Definition sample_loader (path : string) : bool :=
  String.prefix "skimage.data." path && negb (bool_decide (path = "skimage.data.binary_blobs")).

(** The file-system access a call makes, for the library functions that
    make one. *)
Definition fs_of (ev : event) : option fs_event :=
  match ev with
  | Call (VLib path) args r =>
      if bool_decide (path = "tempfile.mkdtemp") then Some (FsMkdtemp r)
      else if sample_loader path then Some (FsSample path)
      else
        match args with
        | (_, p) :: _ =>
            if bool_decide (path = "skimage.io.imread") then Some (FsRead p)
            else if bool_decide (path = "skimage.io.imsave")
                    || bool_decide (path = "matplotlib.pyplot.savefig")
            then Some (FsWrite path p)
            else if bool_decide (path = "os.listdir") then Some (FsListDir p)
            else None
        | [] => None
        end
  | _ => None
  end.

(** The objects a trace writes in place, each with the function whose call
    returned it (none for an object of the library itself). *)
Definition written_objects (tr : list event) : list (option aval * aval) :=
  (fun v => (match v with
             | VObj id => producer id tr
             | _ => None
             end, v)) <$> omap written tr.

(** The results of calls of the functions [paths], as far as they are
    objects. *)
Definition results_of (paths : list string) (tr : list event) : list aval :=
  omap (fun ev => match ev with
                  | Call (VLib path) _ (VObj id) =>
                      if bool_decide (path ∈ paths) then Some (VObj id) else None
                  | _ => None
                  end) tr.

(** The library functions whose results are masks (the comparisons), label
    maps, coordinate lists and region-property records. *)
Definition derived_makers : list string :=
  ["operator.<"; "operator.>"; "operator.=="; "skimage.feature.canny";
   "skimage.feature.corner_peaks"; "skimage.draw.circle_perimeter";
   "skimage.util.regular_grid"; "skimage.measure.label";
   "skimage.measure.regionprops"; "skimage.segmentation.slic";
   "skimage.segmentation.watershed"].

(** A read of a bundled sample, or a write, the creation of the temporary
    directory included. *)
Definition read_or_write (e : fs_event) : bool :=
  match e with
  | FsSample _ | FsRead _ | FsWrite _ _ | FsMkdtemp _ => true
  | FsListDir _ => false
  end.

(** [fs_ok dirs evs]: every read is of a bundled sample, by loader or by a
    path below [skimage.data_dir]; every directory created is new; every
    write and every listing is in a directory created before, those of
    [dirs] included. *)
Fixpoint fs_ok (dirs : list nat) (evs : list fs_event) : bool :=
  match evs with
  | [] => true
  | FsSample _ :: rest => fs_ok dirs rest
  | FsRead (VJoin (VLib base) (VStr _)) :: rest =>
      bool_decide (base = "skimage.data_dir") && fs_ok dirs rest
  | FsMkdtemp (VTmpDir d) :: rest => negb (bool_decide (d ∈ dirs)) && fs_ok (d :: dirs) rest
  | FsWrite _ (VJoin (VTmpDir d) (VStr _)) :: rest => bool_decide (d ∈ dirs) && fs_ok dirs rest
  | FsListDir (VTmpDir d) :: rest => bool_decide (d ∈ dirs) && fs_ok dirs rest
  | _ => false
  end.

(** The library functions a trace calls, by path. *)
Definition library_calls (tr : list event) : list string :=
  remove_dups (omap (fun ev => match ev with
                               | Call (VLib path) _ _ => Some path
                               | _ => None
                               end) tr).

(** The trace of a run, when it completed. *)
Definition completed (r : res unit) : option (list event) :=
  match r with
  | Val _ σ => Some (trace σ)
  | _ => None
  end.

(** The calls a trace makes of functions defined in the notebook. *)
Definition local_calls (tr : list event) : list string :=
  omap (fun ev => match ev with Call (VFun f) _ _ => Some f | _ => None end) tr.

(** [more_fuel r r']: [r'] is the outcome [r], unless [r] ran out of fuel. *)
Definition more_fuel {A} (r r' : res A) : Prop := r = Fuel ∨ r' = r.

End Outcomes.

(** ** The libraries behind [imshow_all], for running it on examples

    [img_as_float] of a [uint8] image divides by 255; [plt.subplots]
    returns a grid of [nrows * ncols] axes, which [ravel] lists row by row,
    except that a one-by-one grid is returned as a single axes object
    without [ravel]. *)

Module Library.
Import Py NumPy.

Definition img_as_float (img : list (list Z)) : list (list Q) :=
  map2d (fun x => (inject_Z x / 255)%Q) img.

Definition samples (img : list (list Q)) : list Q := concat img.

Definition subplots (nrows ncols : Z) (figsize : Q * Q) : result (Z * Z) :=
  if bool_decide (0 < nrows)%Z && bool_decide (0 < ncols)%Z
  then Ok (nrows, ncols)
  else Raise (ValueError "Number of rows and columns must be positive").

Definition ravel (g : Z * Z) : result (list nat) :=
  if bool_decide (g = (1, 1)%Z)
  then Raise (AttributeError "'Axes' object has no attribute 'ravel'")
  else Ok (seq 0 (Z.to_nat (g.1 * g.2))).

(** No [dtype_limits] is in reach: the parameter is never called. *)
Definition no_dtype_limits (img : list (list Q)) : result (pyval * pyval) :=
  Raise (NameError "dtype_limits").

(** [imshow_all] as the notebook runs it: no name [dtype_limits] bound. *)
Definition imshow_all (images : list (list (list Z))) (kwargs : gmap string pyval)
  : Helper.M (list (list Q)) nat unit :=
  Helper.imshow_all img_as_float samples subplots ravel ∅ no_dtype_limits images kwargs.

(** The 7x7 image of src/visualization.ipynb, lines 533-539. *)
Definition square_image : list (list Z) :=
  [[0; 0; 0; 0; 0; 0; 0];
   [0; 0; 0; 0; 0; 0; 0];
   [0; 0; 1; 1; 1; 0; 0];
   [0; 0; 1; 1; 1; 0; 0];
   [0; 0; 1; 1; 1; 0; 0];
   [0; 0; 0; 0; 0; 0; 0];
   [0; 0; 0; 0; 0; 0; 0]]%Z.

End Library.

(** * Properties *)

(** ** The helper [imshow_all] *)

Module HelperFacts.
Import Py Helper.

Lemma qmin_list_minimum (xs : list Q) : ∀ x, is_minimum (qmin_list x xs) (x :: xs).
Proof.
  induction xs as [|y ys IH]; intros x; simpl.
  - split; [left|]. intros z Hz. apply list_elem_of_singleton in Hz as ->. apply Qle_refl.
  - destruct (IH (if Qlt_le_dec y x then y else x)) as [Hin Hle]. split.
    + apply elem_of_cons in Hin as [->|Hin].
      * destruct (Qlt_le_dec y x); [right; left | left].
      * right; right; exact Hin.
    + intros z Hz.
      assert (Hm : ((if Qlt_le_dec y x then y else x) <= x)%Q
                   ∧ ((if Qlt_le_dec y x then y else x) <= y)%Q).
      { destruct (Qlt_le_dec y x) as [Hlt|Hge]; split;
          auto using Qle_refl, Qlt_le_weak. }
      destruct Hm as [Hx Hy].
      apply elem_of_cons in Hz as [->|Hz];
        [|apply elem_of_cons in Hz as [->|Hz]].
      * eapply Qle_trans; [apply Hle; left | exact Hx].
      * eapply Qle_trans; [apply Hle; left | exact Hy].
      * apply Hle. right; exact Hz.
Qed.

Lemma qmax_list_maximum (xs : list Q) : ∀ x, is_maximum (qmax_list x xs) (x :: xs).
Proof.
  induction xs as [|y ys IH]; intros x; simpl.
  - split; [left|]. intros z Hz. apply list_elem_of_singleton in Hz as ->. apply Qle_refl.
  - destruct (IH (if Qlt_le_dec x y then y else x)) as [Hin Hle]. split.
    + apply elem_of_cons in Hin as [->|Hin].
      * destruct (Qlt_le_dec x y); [right; left | left].
      * right; right; exact Hin.
    + intros z Hz.
      assert (Hm : (x <= (if Qlt_le_dec x y then y else x))%Q
                   ∧ (y <= (if Qlt_le_dec x y then y else x))%Q).
      { destruct (Qlt_le_dec x y) as [Hlt|Hge]; split;
          auto using Qle_refl, Qlt_le_weak. }
      destruct Hm as [Hx Hy].
      apply elem_of_cons in Hz as [->|Hz];
        [|apply elem_of_cons in Hz as [->|Hz]].
      * eapply Qle_trans; [exact Hx | apply Hle; left].
      * eapply Qle_trans; [exact Hy | apply Hle; left].
      * apply Hle. right; exact Hz.
Qed.

Section facts.

Context {image fimage grid axis : Type}.
Variable img_as_float : image -> fimage.
Variable samples : fimage -> list Q.
Variable subplots : Z -> Z -> Q * Q -> result grid.
Variable ravel : grid -> result (list axis).
Variable globals : gset string.
Variable call_dtype_limits : fimage -> result (pyval * pyval).

(** The least of the least samples of each image is the least sample. *)
Lemma min_of_minima (imgs : list fimage) :
  Forall (fun img => samples img ≠ []) imgs ->
  ∃ ms, rmap (array_min samples) imgs = Ok ms
        ∧ length ms = length imgs
        ∧ ∀ m, is_minimum m ms -> is_minimum m (imgs ≫= samples).
Proof.
  induction 1 as [|img imgs Hne _ IH]; simpl.
  - exists []. split; [done|]. split; [done|]. intros m [Hin _]. by apply elem_of_nil in Hin.
  - destruct IH as (ms & -> & Hlen & Hmin). unfold array_min at 1.
    destruct (samples img) as [|x xs] eqn:Hs; [done|]. simpl.
    eexists. split; [reflexivity|]. split; [simpl; congruence|].
    intros m [Hin Hle]. destruct (qmin_list_minimum xs x) as [Hin0 Hle0].
    assert (Hhead : ∀ z, z ∈ x :: xs -> (m <= z)%Q).
    { intros z Hz. eapply Qle_trans; [apply Hle; left | apply Hle0, Hz]. }
    apply elem_of_cons in Hin as [->|Hin].
    + split; [apply (elem_of_app (x :: xs)); left; exact Hin0|].
      intros z Hz. apply (elem_of_app (x :: xs)) in Hz as [Hz|Hz]; [by apply Hle0|].
      destruct ms as [|m0 ms'].
      * destruct imgs; [by apply elem_of_nil in Hz | discriminate].
      * destruct (qmin_list_minimum ms' m0) as [Hin1 Hle1].
        destruct (Hmin (qmin_list m0 ms') (conj Hin1 Hle1)) as [_ Hall].
        eapply Qle_trans; [apply Hle; right; exact Hin1 | by apply Hall].
    + assert (Hrest : is_minimum m ms).
      { split; [exact Hin|]. intros z Hz. apply Hle. by right. }
      destruct (Hmin m Hrest) as [Hin' Hle']. split.
      * apply (elem_of_app (x :: xs)); right; exact Hin'.
      * intros z Hz. apply (elem_of_app (x :: xs)) in Hz as [Hz|Hz]; [by apply Hhead | by apply Hle'].
Qed.

Lemma max_of_maxima (imgs : list fimage) :
  Forall (fun img => samples img ≠ []) imgs ->
  ∃ ms, rmap (array_max samples) imgs = Ok ms
        ∧ length ms = length imgs
        ∧ ∀ m, is_maximum m ms -> is_maximum m (imgs ≫= samples).
Proof.
  induction 1 as [|img imgs Hne _ IH]; simpl.
  - exists []. split; [done|]. split; [done|]. intros m [Hin _]. by apply elem_of_nil in Hin.
  - destruct IH as (ms & -> & Hlen & Hmax). unfold array_max at 1.
    destruct (samples img) as [|x xs] eqn:Hs; [done|]. simpl.
    eexists. split; [reflexivity|]. split; [simpl; congruence|].
    intros m [Hin Hle]. destruct (qmax_list_maximum xs x) as [Hin0 Hle0].
    assert (Hhead : ∀ z, z ∈ x :: xs -> (z <= m)%Q).
    { intros z Hz. eapply Qle_trans; [apply Hle0, Hz | apply Hle; left]. }
    apply elem_of_cons in Hin as [->|Hin].
    + split; [apply (elem_of_app (x :: xs)); left; exact Hin0|].
      intros z Hz. apply (elem_of_app (x :: xs)) in Hz as [Hz|Hz]; [by apply Hle0|].
      destruct ms as [|m0 ms'].
      * destruct imgs; [by apply elem_of_nil in Hz | discriminate].
      * destruct (qmax_list_maximum ms' m0) as [Hin1 Hle1].
        destruct (Hmax (qmax_list m0 ms') (conj Hin1 Hle1)) as [_ Hall].
        eapply Qle_trans; [by apply Hall | apply Hle; right; exact Hin1].
    + assert (Hrest : is_maximum m ms).
      { split; [exact Hin|]. intros z Hz. apply Hle. by right. }
      destruct (Hmax m Hrest) as [Hin' Hle']. split.
      * apply (elem_of_app (x :: xs)); right; exact Hin'.
      * intros z Hz. apply (elem_of_app (x :: xs)) in Hz as [Hz|Hz]; [by apply Hhead | by apply Hle'].
Qed.

Lemma zip3_lookup {A B C} (a : list A) (b : list B) (c : list C) i x y z :
  a !! i = Some x -> b !! i = Some y -> c !! i = Some z ->
  zip3 a b c !! i = Some (x, y, z).
Proof.
  revert b c i. induction a as [|x' a IH]; intros [|y' b] [|z' c] [|i]; simpl; try done.
  - by intros [= ->] [= ->] [= ->].
  - apply IH.
Qed.

Lemma zip3_length {A B C} (a : list A) (b : list B) (c : list C) :
  (length b ≤ length c)%nat -> length (zip3 a b c) = (length a `min` length b)%nat.
Proof.
  revert b c. induction a as [|x a IH]; intros [|y b] [|z c]; simpl; try done; try lia.
  intros Hle. rewrite IH; lia.
Qed.

Lemma zip3_middle {A B C} (a : list A) (b : list B) (c : list C) x y z :
  (x, y, z) ∈ zip3 a b c -> y ∈ b.
Proof.
  revert b c. induction a as [|x' a IH]; intros [|y' b] [|z' c]; simpl;
    try (by intros ?%elem_of_nil).
  intros [[= -> -> ->]|Hin]%elem_of_cons; [left | right; eauto].
Qed.

Lemma show_each_shown (kw : gmap string pyval) (triples : list (axis * fimage * pyval)) :
  show_each kw triples = (shown kw triples, Ok tt).
Proof.
  induction triples as [|[[ax img] label] rest IH]; [done|].
  cbn [show_each]. unfold mbind, M_bind, bind, emit. rewrite IH. done.
Qed.

Lemma shown_imshow (kw kw' : gmap string pyval)
    (triples : list (axis * fimage * pyval)) ax img :
  EvImshow ax img kw' ∈ shown kw triples -> kw' = kw ∧ ∃ label, (ax, img, label) ∈ triples.
Proof.
  unfold shown. intros ([[ax0 img0] label] & Hev & Hin)%list_elem_of_bind.
  apply elem_of_cons in Hev as [[= -> -> ->]|Hev].
  - split; [done|]. by exists label.
  - apply list_elem_of_singleton in Hev. discriminate.
Qed.

Lemma imshow_all_early (images : list image) (kwargs : gmap string pyval) e :
  (stages img_as_float samples globals call_dtype_limits images kwargs).1 = Raise e ∨
  ((∃ ts, (stages img_as_float samples globals call_dtype_limits images kwargs).1 = Ok ts) ∧ (stages img_as_float samples globals call_dtype_limits images kwargs).2 = Raise e) ->
  imshow_all img_as_float samples subplots ravel globals call_dtype_limits images kwargs
  = ([], Raise e).
Proof.
  unfold stages, imshow_all, pop; simpl.
  intros [H|[[ts H1] H2]].
  - rewrite H. done.
  - rewrite H1. cbn. rewrite H2. done.
Qed.

Lemma imshow_all_stages (images : list image) (kwargs : gmap string pyval)
    ts kw1 r c sz g axs :
  let fimgs := img_as_float <$> images in
  stages img_as_float samples globals call_dtype_limits images kwargs = (Ok ts, Ok kw1) ->
  get_shape fimgs kw1 = Ok (r, c) ->
  as_number (default (PInt 5) (kw1 !! "size")) = Ok sz ->
  subplots r c (figure_size fimgs r sz) = Ok g ->
  ravel g = Ok axs ->
  imshow_all img_as_float samples subplots ravel globals call_dtype_limits images kwargs
  = (EvSubplots r c (figure_size fimgs r sz)
       :: shown (delete "size" kw1) (zip3 axs fimgs ts), Ok tt).
Proof.
  unfold stages, imshow_all, pop; simpl. intros [= H1 H2] H3 H4 H5 H6.
  rewrite H1. cbn. rewrite H2. cbn. rewrite H3. cbn. rewrite H4. cbn.
  rewrite H5. cbn. rewrite H6. cbn. rewrite show_each_shown. done.
Qed.

(** Whatever [imshow] draws is a converted image, drawn with the keyword
    arguments the limits stage left (less [size]). *)
Lemma imshow_all_draws (images : list image) (kwargs : gmap string pyval) ax img kw :
  EvImshow ax img kw ∈
    (imshow_all img_as_float samples subplots ravel globals call_dtype_limits
       images kwargs).1 ->
  img ∈ img_as_float <$> images
  ∧ ∃ kw1, (stages img_as_float samples globals call_dtype_limits images kwargs).2 = Ok kw1 ∧ kw = delete "size" kw1.
Proof.
  unfold stages, imshow_all, pop; simpl.
  destruct (pad_titles _ _) as [ts|e]; cbn; [|by intros ?%elem_of_nil].
  destruct (set_limits _ _ _ _ _ _) as [kw1|e]; cbn; [|by intros ?%elem_of_nil].
  destruct (get_shape _ _) as [[r c]|e]; cbn; [|by intros ?%elem_of_nil].
  destruct (as_number _) as [sz|e]; cbn; [|by intros ?%elem_of_nil].
  destruct (subplots _ _ _) as [g|e]; cbn; [|by intros ?%elem_of_nil].
  destruct (ravel g) as [axs|e]; cbn.
  - rewrite show_each_shown. cbn.
    intros [[=]|Hin]%elem_of_cons.
    apply shown_imshow in Hin as [-> [label Hin]].
    split; [by eapply zip3_middle | by exists kw1].
  - intros [[=]|Hin]%elem_of_cons. by apply elem_of_nil in Hin.
Qed.

Lemma pad_titles_strings (fimgs : list fimage) (ts : list string) :
  pad_titles fimgs (PStrs ts)
  = Ok ((PStr <$> ts) ++ replicate (length fimgs - length ts) (PStr EmptyString))%list.
Proof.
  unfold pad_titles, py_len, py_list, py_repeat; simpl. rewrite length_fmap.
  replace (Z.to_nat (Z.of_nat (length fimgs) - Z.of_nat (length ts)))
    with (length fimgs - length ts)%nat by lia.
  case_bool_decide as Hne; [done|].
  replace (length fimgs - length ts)%nat with 0%nat by lia.
  simpl. by rewrite app_nil_r.
Qed.

Lemma padded_lookup (ts : list string) (n i : nat) :
  (i < n)%nat ->
  ((PStr <$> ts) ++ replicate (n - length ts) (PStr EmptyString))%list !! i
  = Some (PStr (default EmptyString (ts !! i))).
Proof.
  intros Hi. destruct (ts !! i) as [t|] eqn:Ht; simpl.
  - rewrite lookup_app_l by (rewrite length_fmap; by eapply lookup_lt_Some).
    by rewrite list_lookup_fmap, Ht.
  - apply lookup_ge_None in Ht.
    rewrite lookup_app_r by (rewrite length_fmap; lia).
    rewrite length_fmap. apply lookup_replicate_2. lia.
Qed.

Lemma limits_default (kwargs : gmap string pyval) :
  kwargs !! "limits" = None ->
  default (PStr "image") (delete "titles" kwargs !! "limits") = PStr "image".
Proof. intros H. by rewrite lookup_delete_ne, H. Qed.



(** With [limits='dtype'] and no name [dtype_limits] in the namespace, a
    call with documented [titles] raises [NameError] and plots nothing. *)
Lemma imshow_all_dtype (images : list image) (kwargs : gmap string pyval) :
  "dtype_limits" ∉ globals ->
  kwargs !! "limits" = Some (PStr "dtype") ->
  titles_typed kwargs ->
  imshow_all img_as_float samples subplots ravel globals call_dtype_limits images kwargs
  = ([], Raise (NameError "dtype_limits")).
Proof.
  intros Hfree Hlim Htitles. apply imshow_all_early. right. split.
  - unfold stages; simpl. destruct Htitles as [->|[l ->]]; simpl;
      rewrite pad_titles_strings; eauto.
  - unfold stages; simpl. rewrite lookup_delete_ne, Hlim by done. simpl.
    unfold set_limits; simpl. by rewrite bool_decide_eq_false_2.
Qed.

End facts.





End HelperFacts.

(** ** Array statements: what they write and what they leave alone *)

Module KernelFacts.
Import Py NumPy Kernel.

Lemma shape2_map2d {A B} (f : A -> B) (img : list (list A)) :
  shape2 (map2d f img) = shape2 img.
Proof.
  unfold shape2, map2d. rewrite <- list_fmap_compose.
  apply list_fmap_ext. intros i row _. simpl. apply length_fmap.
Qed.

Lemma set_where_same_shape {A B} (f : B -> bool) (src : list (list B)) (v : A)
    (img : list (list A)) :
  shape2 src = shape2 img ->
  set_where (map2d f src) v img
  = Ok (zip_with (zip_with (fun (m : bool) x => if m then v else x)) (map2d f src) img).
Proof.
  intros Hs. unfold set_where. rewrite shape2_map2d.
  by rewrite bool_decide_eq_true_2.
Qed.

Lemma u8_wrap (z : Z) : is_u8 (wrap8 z).
Proof. unfold is_u8, wrap8. apply Z.mod_pos_bound. lia. Qed.

Lemma mul_scalar_u8 (k : Z) (img : list (list Z)) : u8_image (mul_scalar k img).
Proof.
  unfold u8_image, mul_scalar, map2d.
  apply Forall_fmap, Forall_forall. intros row _.
  apply Forall_fmap, Forall_forall. intros x _. apply u8_wrap.
Qed.

Lemma set_block_pixel r0 r1 c0 c1 (px : Z * Z * Z) (img : list (list (Z * Z * Z)))
    i j row old :
  img !! i = Some row -> row !! j = Some old ->
  ∃ row', set_block r0 r1 c0 c1 px img !! i = Some row'
          ∧ row' !! j = Some (if in_slice r0 r1 i && in_slice c0 c1 j then px else old).
Proof.
  intros Hrow Hold. unfold set_block. rewrite list_lookup_imap, Hrow. simpl.
  eexists. split; [reflexivity|].
  destruct (in_slice r0 r1 i); simpl; [|done].
  by rewrite list_lookup_imap, Hold.
Qed.

Ltac kred :=
  cbv beta iota delta [mret mbind K_ret K_bind name deref alloc assign store lift
                       throw value_of as_gray as_float];
  cbn [names objects].

Lemma double_camera_run (m : memory) loc camera :
  names m !! "camera" = Some loc -> objects m !! loc = Some (AGray camera) ->
  double_camera m
  = Ok (tt, Memory (<["camera_overflow" := length (objects m)]> (names m))
              (objects m ++ [AGray (mul_scalar 2 camera)])%list).
Proof.
  intros Hn Ho. unfold double_camera, value_of, mbind, K_bind, name, deref.
  rewrite Hn, Ho. done.
Qed.

Lemma paint_red_square_run (m : memory) loc img :
  names m !! "cat" = Some loc -> objects m !! loc = Some (ARgb img) ->
  paint_red_square m
  = Ok (tt, Memory (names m)
              (<[loc := ARgb (set_block 10 110 10 110 (255, 0, 0)%Z img)]> (objects m))).
Proof.
  intros Hn Ho. unfold paint_red_square, mbind, K_bind, name, deref.
  rewrite Hn, Ho. done.
Qed.

Lemma mask_background_run (m : memory) loc coins :
  names m !! "coins" = Some loc -> objects m !! loc = Some (AGray coins) ->
  mask_background m
  = Ok (tt, Memory
              (<["coins_bg" := S (length (objects m))]>
                 (<["mask_bg" := length (objects m)]> (names m)))
              (objects m ++
                 [ABool (lt_scalar coins 90);
                  AGray (zip_with (zip_with (fun (b : bool) x => if b then 0%Z else x))
                           (lt_scalar coins 90) coins)])%list).
Proof.
  intros Hn Ho.
  assert (Hlt : (loc < length (objects m))%nat) by (by eapply lookup_lt_Some).
  unfold mask_background.
  kred. rewrite Hn. kred. rewrite Ho. kred.
  rewrite lookup_insert_ne, Hn by done. kred.
  rewrite lookup_app_l, Ho by done. kred.
  rewrite lookup_insert_eq. kred.
  rewrite lookup_insert_ne, lookup_insert_eq by done. kred.
  rewrite !length_app. cbn [length].
  rewrite <- (assoc_L app).
  rewrite (lookup_app_r (objects m)) by lia.
  replace (length (objects m) - length (objects m))%nat with 0%nat by lia.
  cbn [lookup list_lookup app]. kred.
  rewrite (lookup_app_r (objects m)) by lia.
  replace (length (objects m) + 1 - length (objects m))%nat with 1%nat by lia.
  cbn [lookup list_lookup app]. kred.
  unfold lt_scalar. rewrite set_where_same_shape by done. kred.
  replace (length (objects m) + 1)%nat with (S (length (objects m))) by lia.
  rewrite insert_app_r_alt by lia.
  replace (S (length (objects m)) - length (objects m))%nat with 1%nat by lia.
  done.
Qed.

Lemma centre_blobs_run (blobs : list (list bool)) (m : memory) :
  centre_blobs blobs m
  = Ok (tt, Memory (<["im" := length (objects m)]> (names m))
              (objects m ++ [AFloat (bool_sub blobs (1 # 2))])%list).
Proof. reflexivity. Qed.

Lemma bool_sub_half (blobs : list (list bool)) :
  Forall (Forall (fun q => q = (1 # 2)%Q ∨ q = (-1 # 2)%Q)) (bool_sub blobs (1 # 2)).
Proof.
  unfold bool_sub, map2d. apply Forall_fmap, Forall_forall. intros row _.
  apply Forall_fmap, Forall_forall. intros [] _; [left | right]; reflexivity.
Qed.

Lemma ramp_value :
  ramp = Ok (map2d (fun k => ((1 / 25) * inject_Z k)%Q)
               [[0; 1; 2; 3; 4]; [5; 6; 7; 8; 9]; [10; 11; 12; 13; 14];
                [15; 16; 17; 18; 19]; [20; 21; 22; 23; 24]]%Z).
Proof. reflexivity. Qed.

Lemma ramp_unit : ∃ a, ramp = Ok a ∧ unit_image a.
Proof.
  eexists. split; [apply ramp_value|].
  unfold unit_image.
  repeat (first [apply Forall_nil_2 | apply Forall_cons_2 | split]);
    vm_compute; discriminate.
Qed.

(** C3, as amended.  In a kernel where [coins], [camera] and [cat] name
    arrays: [camera_overflow = 2 * camera] and the mask cell put their
    results in new objects and change no existing object (the mask cell
    writes [coins_bg], which is a copy made by [np.copy], not [coins]); the
    slice assignment [cat\[10:110, 10:110, :\] = \[255, 0, 0\]] creates no
    object: it overwrites the object [cat] names, every pixel inside the
    block becoming red and every other pixel and object staying as it
    was. *)
Theorem array_statements_frame (m : memory) lcoins coins lcam camera lcat cat :
  names m !! "coins" = Some lcoins -> objects m !! lcoins = Some (AGray coins) ->
  names m !! "camera" = Some lcam -> objects m !! lcam = Some (AGray camera) ->
  names m !! "cat" = Some lcat -> objects m !! lcat = Some (ARgb cat) ->
  (∃ m', double_camera m = Ok (tt, m')
     ∧ (∀ l a, objects m !! l = Some a -> objects m' !! l = Some a)
     ∧ ∃ l', names m' !! "camera_overflow" = Some l'
             ∧ objects m !! l' = None
             ∧ objects m' !! l' = Some (AGray (mul_scalar 2 camera)))
  ∧ (∃ m', mask_background m = Ok (tt, m')
     ∧ (∀ l a, objects m !! l = Some a -> objects m' !! l = Some a)
     ∧ ∃ lm lb, names m' !! "mask_bg" = Some lm ∧ names m' !! "coins_bg" = Some lb
             ∧ objects m !! lm = None ∧ objects m !! lb = None
             ∧ objects m' !! lm = Some (ABool (lt_scalar coins 90))
             ∧ objects m' !! lb
               = Some (AGray (zip_with (zip_with (fun (b : bool) x => if b then 0%Z else x))
                                (lt_scalar coins 90) coins)))
  ∧ (∃ m', paint_red_square m = Ok (tt, m')
     ∧ names m' = names m
     ∧ length (objects m') = length (objects m)
     ∧ (∀ l, l ≠ lcat -> objects m' !! l = objects m !! l)
     ∧ ∃ cat', objects m' !! lcat = Some (ARgb cat')
             ∧ ∀ i j row old, cat !! i = Some row -> row !! j = Some old ->
                 ∃ row', cat' !! i = Some row'
                   ∧ row' !! j = Some (if in_slice 10 110 i && in_slice 10 110 j
                                       then (255, 0, 0)%Z else old)).
Proof.
  intros Hcoins Hc Hcamera Hk Hcat Ht.
  split; [|split].
  - eexists. split; [by eapply double_camera_run|]. cbn [objects names]. split.
    + intros l a Hl. rewrite lookup_app_l; [done | by eapply lookup_lt_Some].
    + exists (length (objects m)). rewrite lookup_insert_eq.
      split; [done|]. split; [by apply lookup_ge_None|].
      rewrite lookup_app_r by lia. by rewrite Nat.sub_diag.
  - eexists. split; [by eapply mask_background_run|]. cbn [objects names]. split.
    + intros l a Hl. rewrite lookup_app_l; [done | by eapply lookup_lt_Some].
    + exists (length (objects m)), (S (length (objects m))).
      rewrite lookup_insert_eq, lookup_insert_ne, lookup_insert_eq by done.
      split; [done|]. split; [done|].
      split; [apply lookup_ge_None; lia|]. split; [apply lookup_ge_None; lia|].
      rewrite !lookup_app_r by lia. rewrite Nat.sub_diag.
      replace (S (length (objects m)) - length (objects m))%nat with 1%nat by lia.
      done.
  - eexists. split; [by eapply paint_red_square_run|]. cbn [objects names].
    split; [done|]. split; [apply length_insert|]. split.
    + intros l Hl. by apply list_lookup_insert_ne.
    + eexists. split.
      * apply list_lookup_insert_eq. by eapply lookup_lt_Some.
      * intros i j row old Hrow Hold. by eapply set_block_pixel.
Qed.

Lemma array_statements_frame_witness :
  let m := Memory (<["cat" := 2%nat]> (<["camera" := 1%nat]> {["coins" := 0%nat]}))
             [AGray [[10; 100]]; AGray [[200]]; ARgb [[(1, 2, 3)]]]%Z in
  (∃ m', double_camera m = Ok (tt, m')
     ∧ (∀ l a, objects m !! l = Some a -> objects m' !! l = Some a)
     ∧ ∃ l', names m' !! "camera_overflow" = Some l'
             ∧ objects m !! l' = None
             ∧ objects m' !! l' = Some (AGray (mul_scalar 2 [[200]]%Z)))
  ∧ (∃ m', mask_background m = Ok (tt, m')
     ∧ (∀ l a, objects m !! l = Some a -> objects m' !! l = Some a)
     ∧ ∃ lm lb, names m' !! "mask_bg" = Some lm ∧ names m' !! "coins_bg" = Some lb
             ∧ objects m !! lm = None ∧ objects m !! lb = None
             ∧ objects m' !! lm = Some (ABool (lt_scalar [[10; 100]]%Z 90))
             ∧ objects m' !! lb
               = Some (AGray (zip_with (zip_with (fun (b : bool) x => if b then 0%Z else x))
                                (lt_scalar [[10; 100]]%Z 90) [[10; 100]]%Z)))
  ∧ (∃ m', paint_red_square m = Ok (tt, m')
     ∧ names m' = names m
     ∧ length (objects m') = length (objects m)
     ∧ (∀ l, l ≠ 2%nat -> objects m' !! l = objects m !! l)
     ∧ ∃ cat', objects m' !! 2%nat = Some (ARgb cat')
             ∧ ∀ i j row old, [[(1, 2, 3)]]%Z !! i = Some row -> row !! j = Some old ->
                 ∃ row', cat' !! i = Some row'
                   ∧ row' !! j = Some (if in_slice 10 110 i && in_slice 10 110 j
                                       then (255, 0, 0)%Z else old)).
Proof.
  intros m.
  apply (array_statements_frame m 0%nat [[10; 100]]%Z 1%nat [[200]]%Z 2%nat [[(1, 2, 3)]]%Z);
    reflexivity.
Defined.

(** C3, as stated, fails at the slice assignment of src/arrays.ipynb,
    line 98: on a 12x12 image it leaves [cat] naming the same object, whose
    content is no longer the loaded image. *)
Lemma red_square_changes_cat :
  let cat := replicate 12 (replicate 12 (7, 7, 7)%Z) in
  ∃ m1 m2,
    load_sample "cat" (ARgb cat) fresh_kernel = Ok (tt, m1)
    ∧ paint_red_square m1 = Ok (tt, m2)
    ∧ names m1 !! "cat" = Some 0%nat ∧ names m2 !! "cat" = Some 0%nat
    ∧ objects m1 !! 0%nat = Some (ARgb cat)
    ∧ objects m2 !! 0%nat ≠ Some (ARgb cat).
Proof.
  intros cat. do 2 eexists.
  split; [reflexivity|]. split; [reflexivity|].
  split; [reflexivity|]. split; [reflexivity|]. split; [reflexivity|].
  intros H. vm_compute in H. discriminate.
Qed.

(** C4, as amended.  A [uint8] image doubled stays in 0..255, each sample
    being [2 * x mod 256]; the float ramp [1./25 * arange(25)] lies in 0..1;
    but the float array [im = data.binary_blobs() - 0.5] holds -1/2 wherever
    the blob image is [False] and 1/2 wherever it is [True]. *)
Theorem sample_ranges (m : memory) lcam camera (blobs : list (list bool)) :
  names m !! "camera" = Some lcam -> objects m !! lcam = Some (AGray camera) ->
  (∃ m' l', double_camera m = Ok (tt, m')
     ∧ names m' !! "camera_overflow" = Some l'
     ∧ objects m' !! l' = Some (AGray (map2d (fun x => (2 * x) mod 256)%Z camera))
     ∧ u8_image (map2d (fun x => (2 * x) mod 256)%Z camera))
  ∧ (∃ a, ramp = Ok a ∧ unit_image a)
  ∧ (∃ m' l' im, centre_blobs blobs m = Ok (tt, m')
     ∧ names m' !! "im" = Some l'
     ∧ objects m' !! l' = Some (AFloat im)
     ∧ Forall2 (Forall2 (fun (b : bool) q => q = if b then (1 # 2)%Q else (-1 # 2)%Q))
         blobs im).
Proof.
  intros Hn Ho. split; [|split].
  - do 2 eexists. split; [by eapply double_camera_run|]. cbn [objects names].
    rewrite lookup_insert_eq. split; [done|].
    rewrite lookup_app_r by lia. rewrite Nat.sub_diag.
    split; [done|]. apply (mul_scalar_u8 2).
  - apply ramp_unit.
  - do 3 eexists. split; [apply centre_blobs_run|]. cbn [objects names].
    rewrite lookup_insert_eq. split; [done|].
    rewrite lookup_app_r by lia. rewrite Nat.sub_diag.
    split; [done|].
    unfold bool_sub, map2d. apply Forall2_fmap_r, Forall_Forall2_diag, Forall_forall.
    intros row _. apply Forall2_fmap_r, Forall_Forall2_diag, Forall_forall.
    by intros [] _.
Qed.

Lemma sample_ranges_witness :
  let m := Memory {["camera" := 0%nat]} [AGray [[200; 100]]]%Z in
  (∃ m' l', double_camera m = Ok (tt, m')
     ∧ names m' !! "camera_overflow" = Some l'
     ∧ objects m' !! l' = Some (AGray (map2d (fun x => (2 * x) mod 256)%Z [[200; 100]]%Z))
     ∧ u8_image (map2d (fun x => (2 * x) mod 256)%Z [[200; 100]]%Z))
  ∧ (∃ a, ramp = Ok a ∧ unit_image a)
  ∧ (∃ m' l' im, centre_blobs [[true; false]] m = Ok (tt, m')
     ∧ names m' !! "im" = Some l'
     ∧ objects m' !! l' = Some (AFloat im)
     ∧ Forall2 (Forall2 (fun (b : bool) q => q = if b then (1 # 2)%Q else (-1 # 2)%Q))
         [[true; false]] im).
Proof.
  intros m. apply (sample_ranges m 0%nat [[200; 100]]%Z [[true; false]]); reflexivity.
Defined.

(** C4, as stated, fails for the float array of src/visualization.ipynb,
    line 637: where the blob image is [False], [im] is -1/2, below 0. *)
Lemma blobs_minus_half_negative :
  ∃ m im,
    centre_blobs [[true; false]] fresh_kernel = Ok (tt, m)
    ∧ value_of "im" m = Ok (AFloat im, m)
    ∧ im = [[1 # 2; -1 # 2]]%Q
    ∧ ¬ unit_image im.
Proof.
  do 2 eexists. split; [reflexivity|]. split; [reflexivity|]. split; [reflexivity|].
  intros H. apply Forall_cons in H as [H _].
  apply Forall_cons in H as [_ H]. apply Forall_cons in H as [[H _] _].
  by apply H.
Qed.

End KernelFacts.

(** ** Sessions *)

Module SessionFacts.
Import Py Syntax Notebooks Session Static Outcomes.
Local Open Scope nat_scope.

Section world.

Variable w : world.

(** *** Expressions leave the namespace alone *)

Lemma keeps_env_andthen {A B} (σ : state) (r : res A) (k : A -> state -> res B) :
  keeps_env σ r ->
  (∀ a σ', env σ' = env σ -> keeps_env σ' (k a σ')) ->
  keeps_env σ (andthen r k).
Proof.
  destruct r as [a σ'|e σ'|]; simpl; [|done..].
  intros Hr Hk. specialize (Hk a σ' Hr).
  destruct (k a σ'); simpl in *; congruence.
Qed.

Lemma returned_env callee args σ : env (returned callee args σ).2 = env σ.
Proof. unfold returned. by repeat case_match. Qed.

Lemma call_keeps_env callee args σ : keeps_env σ (call w callee args σ).
Proof.
  unfold call. destruct (raises w _); [done|].
  pose proof (returned_env callee args σ) as He.
  by destruct (returned callee args σ) as [v σ'].
Qed.

Section lists.

Variable ev : expr -> state -> res aval.
Hypothesis ev_keeps : ∀ e σ, keeps_env σ (ev e σ).

Lemma eval_list_keeps_env es : ∀ σ, keeps_env σ (eval_list ev es σ).
Proof.
  induction es as [|e es IH]; intros σ; simpl; [done|].
  apply keeps_env_andthen; [apply ev_keeps|]. intros v σ1 H1.
  apply keeps_env_andthen; [apply IH|]. by intros vs σ2 H2.
Qed.

Lemma eval_arg_keeps_env a σ : keeps_env σ (eval_arg ev a σ).
Proof.
  destruct a; simpl; (apply keeps_env_andthen; [apply ev_keeps | by intros ???]).
Qed.

Lemma eval_args_keeps_env args : ∀ σ, keeps_env σ (eval_args ev args σ).
Proof.
  induction args as [|a args IH]; intros σ; simpl; [done|].
  apply keeps_env_andthen; [apply eval_arg_keeps_env|]. intros v σ1 H1.
  apply keeps_env_andthen; [apply IH|]. by intros vs σ2 H2.
Qed.

Lemma eval_opt_keeps_env o σ : keeps_env σ (eval_opt ev o σ).
Proof. destruct o; simpl; [apply ev_keeps | done]. Qed.

Lemma eval_index_keeps_env i σ : keeps_env σ (eval_index ev i σ).
Proof.
  destruct i; simpl.
  - apply keeps_env_andthen; [apply ev_keeps | by intros ???].
  - apply keeps_env_andthen; [apply eval_opt_keeps_env|]. intros l σ1 H1.
    apply keeps_env_andthen; [apply eval_opt_keeps_env | by intros ???].
Qed.

Lemma eval_indices_keeps_env idx : ∀ σ, keeps_env σ (eval_indices ev idx σ).
Proof.
  induction idx as [|i idx IH]; intros σ; simpl; [done|].
  apply keeps_env_andthen; [apply eval_index_keeps_env|]. intros v σ1 H1.
  apply keeps_env_andthen; [apply IH|]. by intros vs σ2 H2.
Qed.

End lists.

Lemma eval_keeps_env n : ∀ e σ, keeps_env σ (eval w n e σ).
Proof.
  induction n as [|n IH]; [done|]. intros e σ.
  destruct e; cbn [eval].
  - by destruct (lookup_name x σ).
  - done.
  - done.
  - apply keeps_env_andthen; [apply IH | by intros ???].
  - apply keeps_env_andthen; [apply IH|]. intros vf σ1 H1.
    apply keeps_env_andthen; [by apply eval_args_keeps_env|]. intros vs σ2 H2.
    apply call_keeps_env.
  - apply keeps_env_andthen; [apply IH|]. intros v σ1 H1.
    apply keeps_env_andthen; [by apply eval_indices_keeps_env|]. intros vs σ2 H2.
    apply call_keeps_env.
  - apply keeps_env_andthen; [apply IH|]. intros vl σ1 H1.
    apply keeps_env_andthen; [apply IH|]. intros vr σ2 H2.
    apply call_keeps_env.
  - apply keeps_env_andthen; [by apply eval_list_keeps_env | by intros ???].
  - apply keeps_env_andthen; [by apply eval_list_keeps_env | by intros ???].
  - apply keeps_env_andthen; [apply IH|]. intros coll σ1 H1.
    by destruct (eval_items _ _ _ _ _ _ _).
Qed.

(** *** Statements bind the names they say they bind *)

Lemma env_between_refl σ xs : env_between σ xs σ.
Proof. split; auto. Qed.

Lemma env_between_same σ σ' xs : env σ' = env σ -> env_between σ xs σ'.
Proof. intros H. unfold env_between. rewrite H. auto. Qed.

Lemma env_between_trans σ σ1 σ2 xs ys zs :
  env_between σ xs σ1 -> env_between σ1 ys σ2 ->
  (∀ x, x ∈ xs -> x ∈ zs) -> (∀ x, x ∈ ys -> x ∈ zs) ->
  env_between σ zs σ2.
Proof.
  intros [Hg1 Hb1] [Hg2 Hb2] Hx Hy. split; [auto|].
  intros x Hs. destruct (Hb2 x Hs) as [H1|H1]; [|auto].
  destruct (Hb1 x H1); auto.
Qed.

Lemma bounded_andthen {A B} σ (r : res A) (k : A -> state -> res B) xs ys zs :
  bounded σ xs r ->
  (∀ a σ', bounded σ' ys (k a σ')) ->
  (∀ x, x ∈ xs -> x ∈ zs) -> (∀ x, x ∈ ys -> x ∈ zs) ->
  bounded σ zs (andthen r k).
Proof.
  destruct r as [a σ'|e σ'|]; simpl; [| |done].
  - intros Hr Hk Hx Hy. specialize (Hk a σ').
    destruct (k a σ'); simpl in *; eauto using env_between_trans.
  - intros Hr _ Hx _.
    apply (env_between_trans σ σ' σ' xs [] zs); [done | apply env_between_refl | done |].
    intros x Hin. by apply elem_of_nil in Hin.
Qed.

Lemma keeps_bounded {A} σ (r : res A) xs : keeps_env σ r -> bounded σ xs r.
Proof. destruct r; simpl; auto using env_between_same. Qed.

Lemma bounded_from {A} σ σ1 (r : res A) xs ys zs :
  env_between σ xs σ1 -> bounded σ1 ys r ->
  (∀ x, x ∈ xs -> x ∈ zs) -> (∀ x, x ∈ ys -> x ∈ zs) ->
  bounded σ zs r.
Proof. destruct r; simpl; eauto using env_between_trans. Qed.

Lemma bounded_weaken {A} σ (r : res A) xs zs :
  bounded σ xs r -> (∀ x, x ∈ xs -> x ∈ zs) -> bounded σ zs r.
Proof.
  intros Hr Hx. apply (bounded_from σ σ r [] xs zs); auto using env_between_refl.
  intros x Hin. by apply elem_of_nil in Hin.
Qed.

Lemma bounded_same {A} σ σ1 (r : res A) xs :
  env σ1 = env σ -> bounded σ1 xs r -> bounded σ xs r.
Proof.
  intros He Hr. apply (bounded_from σ σ1 r [] xs xs); auto using env_between_same.
  intros x Hx. by apply elem_of_nil in Hx.
Qed.

(** A step that leaves the namespace alone, then a step within [xs]. *)
Lemma bounded_after {A B} σ (r : res A) (k : A -> state -> res B) xs :
  keeps_env σ r -> (∀ a σ', bounded σ' xs (k a σ')) -> bounded σ xs (andthen r k).
Proof.
  intros Hr Hk. eapply (bounded_andthen σ r k [] xs xs); eauto using keeps_bounded.
  intros x Hin. by apply elem_of_nil in Hin.
Qed.

Lemma bind_name_between x v σ : env_between σ [x] (bind_name x v σ).
Proof.
  split; simpl; intros y Hy.
  - destruct (decide (x = y)) as [->|Hne]; [by rewrite lookup_insert_eq|].
    by rewrite lookup_insert_ne.
  - destruct (decide (x = y)) as [->|Hne]; [right; left|].
    left. by rewrite lookup_insert_ne in Hy.
Qed.

Lemma bind_flat_between v ps : ∀ σ, env_between σ ps.*1 (bind_flat v ps σ).
Proof.
  unfold bind_flat. induction ps as [|[x path] ps IH]; intros σ; simpl.
  - apply env_between_refl.
  - eapply env_between_trans; [apply bind_name_between | apply IH | |].
    + intros y ->%list_elem_of_singleton. left.
    + intros y Hy. by right.
Qed.

Lemma bind_target_between t v σ σ' :
  bind_target t v σ = Some σ' -> env_between σ (default [] (target_names t)) σ'.
Proof.
  unfold bind_target, target_names.
  destruct (flatten_target t) as [ps|]; simpl; [|done].
  intros [= <-]. apply bind_flat_between.
Qed.

Lemma import_names_between m names : ∀ σ,
  env_between σ names (foldl (fun σ x => bind_name x (VLib (m ++ "." ++ x)) σ) σ names).
Proof.
  induction names as [|x names IH]; intros σ; simpl.
  - apply env_between_refl.
  - eapply env_between_trans; [apply bind_name_between | apply IH | |].
    + intros y ->%list_elem_of_singleton. left.
    + intros y Hy. by right.
Qed.

Lemma assign_bounded n t v σ :
  bounded σ (default [] (target_names t)) (assign w (eval w n) t v σ).
Proof.
  assert (Hbind : ∀ σ, bounded σ (default [] (target_names t))
            match bind_target t v σ with
            | Some σ' => Val tt σ'
            | None => Exc (TypeError "unsupported assignment target") σ
            end).
  { intros σ0. destruct (bind_target t v σ0) eqn:Hb; simpl.
    - by eapply bind_target_between.
    - apply env_between_refl. }
  destruct t; cbn [assign]; try apply Hbind.
  - apply bounded_after; [apply eval_keeps_env|]. intros vb σ1.
    apply bounded_after; [apply call_keeps_env | by intros; apply env_between_refl].
  - apply bounded_after; [apply eval_keeps_env|]. intros vb σ1.
    apply bounded_after; [by apply eval_indices_keeps_env, eval_keeps_env|].
    intros ix σ2.
    apply bounded_after; [apply call_keeps_env | by intros; apply env_between_refl].
Qed.

Section statements.

Variable ex : stmt -> state -> res unit.
Hypothesis ex_bounded : ∀ s σ, bounded σ (binds s) (ex s σ).

Lemma exec_list_bounded ss : ∀ σ, bounded σ (ss ≫= binds) (exec_list ex ss σ).
Proof.
  induction ss as [|s ss IH]; intros σ; simpl; [apply env_between_refl|].
  eapply bounded_andthen; [apply ex_bounded | intros; apply IH | |].
  - intros x Hx. apply (elem_of_app (binds s)). by left.
  - intros x Hx. apply (elem_of_app (binds s)). by right.
Qed.

Lemma exec_items_bounded t body coll k : ∀ i σ,
  bounded σ (default [] (target_names t) ++ (body ≫= binds))
    (exec_items ex t body coll k i σ).
Proof.
  induction k as [|k IH]; intros i σ; simpl; [apply env_between_refl|].
  destruct (bind_target t (part coll i) σ) as [σ1|] eqn:Hb; simpl;
    [|apply env_between_refl].
  apply bind_target_between in Hb.
  apply (bounded_from σ σ1 _ (default [] (target_names t))
           (default [] (target_names t) ++ (body ≫= binds)) _ Hb); [| |auto].
  - eapply bounded_andthen; [apply exec_list_bounded | intros; apply IH | | auto].
    intros x Hx. apply elem_of_app. by right.
  - intros x Hx. apply elem_of_app. by left.
Qed.

End statements.

Lemma exec_bounded n : ∀ s σ, bounded σ (binds s) (exec w n s σ).
Proof.
  induction n as [|n IH]; [done|]. intros s σ.
  destruct s; cbn [exec binds].
  - apply env_between_refl.
  - apply bind_name_between.
  - apply import_names_between.
  - apply bounded_after; [apply eval_keeps_env|]. intros v σ1. apply assign_bounded.
  - apply bounded_after; [apply eval_keeps_env|]. intros old σ1.
    apply bounded_after; [apply eval_keeps_env|]. intros v σ2.
    apply bounded_after; [apply call_keeps_env|]. intros r σ3. apply assign_bounded.
  - apply bounded_after; [apply eval_keeps_env|]. intros; apply env_between_refl.
  - apply bind_name_between.
  - apply bounded_after; [apply eval_keeps_env|]. intros v σ1.
    apply (bounded_same σ1 (next_test σ1)); [done|].
    destruct (truth w (ntests σ1)).
    + eapply bounded_weaken; [by apply exec_list_bounded|].
      intros x Hx. apply elem_of_app. by left.
    + eapply bounded_weaken; [by apply exec_list_bounded|].
      intros x Hx. apply elem_of_app. by right.
  - apply bounded_after; [apply eval_keeps_env|]. intros coll σ1.
    apply (bounded_same σ1 (next_loop σ1)); [done|].
    by apply exec_items_bounded.
  - apply bounded_after; [apply eval_keeps_env|]. intros v σ1.
    destruct (truth w (ntests σ1)).
    + apply (bounded_same σ1 (next_test σ1)); [done|].
      apply (bounded_andthen _ _ _ (body0 ≫= binds) (body0 ≫= binds) (body0 ≫= binds));
        [by apply exec_list_bounded | | auto | auto].
      intros _ σ2. apply (IH (SWhile test body0)).
    + simpl. by apply env_between_same.
  - pose proof (exec_list_bounded _ IH body0 σ) as Hb.
    destruct (exec_list (exec w n) body0 σ) as [[] σ1|e σ1|]; simpl in *; [| |done].
    + eapply env_between_trans; [apply Hb | apply env_between_refl | |].
      * intros x Hx. apply elem_of_app. by left.
      * intros x Hx. by apply elem_of_nil in Hx.
    + apply (bounded_from σ σ1 _ (body0 ≫= binds) (handler ≫= binds) _ Hb);
        [by apply exec_list_bounded | |];
        intros x Hx; apply elem_of_app; auto.
  - apply bounded_after; [by apply eval_args_keeps_env, eval_keeps_env|].
    intros; apply env_between_refl.
Qed.

(** *** Exceptions come from calls, and end the run *)

Lemma clean_done {A} σ σ' (a : A) : trace σ' = trace σ -> clean w σ (Val a σ').
Proof.
  intros H. apply (clean_val w σ a σ' []); [by rewrite app_nil_r | constructor|].
  simpl. lia.
Qed.

Lemma clean_same {A} σ σ1 (r : res A) : trace σ1 = trace σ -> clean w σ1 r -> clean w σ r.
Proof.
  intros Ht Hr. destruct Hr as [a σ' evs H1 H2 H3|e σ' evs f args H1 H2 H3 H4].
  - eapply clean_val; [by rewrite <- Ht | done | by rewrite <- Ht].
  - eapply clean_exc; [by rewrite <- Ht | done | by rewrite <- Ht | by rewrite <- Ht].
Qed.

Lemma quiet_app σ σ' evs evs' :
  trace σ' = (trace σ ++ evs)%list ->
  (∀ i, i < length evs -> raises w (length (trace σ) + i) = None) ->
  (∀ i, i < length evs' -> raises w (length (trace σ') + i) = None) ->
  ∀ i, i < length (evs ++ evs') -> raises w (length (trace σ) + i) = None.
Proof.
  intros Ht H1 H2 i Hi. rewrite length_app in Hi.
  destruct (decide (i < length evs)) as [Hlt|Hge]; [by apply H1|].
  specialize (H2 (i - length evs)). rewrite Ht, length_app in H2.
  replace (length (trace σ) + length evs + (i - length evs))
    with (length (trace σ) + i) in H2 by lia.
  apply H2. lia.
Qed.

Lemma clean_andthen {A B} σ (r : res A) (k : A -> state -> res B) :
  clean w σ r ->
  (∀ a σ', r = Val a σ' -> clean w σ' (k a σ')) ->
  clean w σ (andthen r k).
Proof.
  intros Hr Hk. destruct Hr as [a σ' evs H1 H2 H3|e σ' evs f args H1 H2 H3 H4]; simpl.
  - specialize (Hk a σ' eq_refl).
    destruct Hk as [b σ'' evs' H1' H2' H3'|e σ'' evs' f args H1' H2' H3' H4'].
    + apply (clean_val w σ b σ'' (evs ++ evs')).
      * by rewrite H1', H1, (assoc_L app).
      * by apply Forall_app.
      * by eapply quiet_app.
    + apply (clean_exc w σ e σ'' (evs ++ evs') f args).
      * by rewrite H1', H1, !(assoc_L app).
      * by apply Forall_app.
      * by eapply quiet_app.
      * rewrite H1, length_app in H4'. rewrite length_app.
        by rewrite Nat.add_assoc.
  - by eapply clean_exc.
Qed.

Lemma returned_trace callee args σ : trace (returned callee args σ).2 = trace σ.
Proof. unfold returned. by repeat case_match. Qed.

Lemma clean_call callee args σ : clean w σ (call w callee args σ).
Proof.
  unfold call. destruct (raises w (length (trace σ))) as [e|] eqn:Hr.
  - apply (clean_exc w σ e _ [] callee args); [done | constructor | simpl; lia|].
    by rewrite Nat.add_0_r.
  - pose proof (returned_trace callee args σ) as Ht.
    destruct (returned callee args σ) as [v σ']. simpl in Ht.
    apply (clean_val w σ v _ [Call callee args v]); [simpl; by rewrite Ht| |].
    + by repeat constructor.
    + intros i Hi. simpl in Hi. replace i with 0 by lia. by rewrite Nat.add_0_r.
Qed.

Lemma covers_same σ σ' B : env σ' = env σ -> covers σ B -> covers σ' B.
Proof. unfold covers. by intros ->. Qed.

Lemma covers_between σ σ' xs B : env_between σ xs σ' -> covers σ B -> covers σ' B.
Proof. intros [Hg _] Hc x Hx. auto. Qed.

Lemma covers_sub σ B B' : (∀ x, x ∈ B' -> x ∈ B) -> covers σ B -> covers σ B'.
Proof. intros Hs Hc x Hx. auto. Qed.

Lemma covers_after {A} σ (r : res A) a σ' B :
  keeps_env σ r -> r = Val a σ' -> covers σ B -> covers σ' B.
Proof. intros Hk ->. simpl in Hk. by apply covers_same. Qed.

Lemma covers_bind_name σ B x v : covers σ B -> covers (bind_name x v σ) (x :: B).
Proof.
  intros Hc y Hy. simpl. destruct (decide (x = y)) as [->|Hne].
  - by rewrite lookup_insert_eq.
  - rewrite lookup_insert_ne by done. apply Hc.
    apply elem_of_cons in Hy as [->|Hy]; done.
Qed.

Lemma covers_bind_parts xs v : ∀ i σ B,
  covers σ B -> covers (bind_parts xs v i σ) (xs ++ B).
Proof.
  induction xs as [|x xs IH]; intros i σ B Hc; simpl; [done|].
  apply (covers_sub _ (xs ++ x :: B)); [|apply IH, covers_bind_name, Hc].
  set_solver.
Qed.

Lemma covers_bind_vars xs v σ B : covers σ B -> covers (bind_vars xs v σ) (xs ++ B).
Proof.
  intros Hc. unfold bind_vars.
  destruct xs as [|x [|x' xs]]; try by apply covers_bind_parts.
  by apply covers_bind_name.
Qed.

Lemma bind_parts_trace xs v : ∀ i σ, trace (bind_parts xs v i σ) = trace σ.
Proof. induction xs as [|x xs IH]; intros i σ; simpl; [done|]. by rewrite IH. Qed.

Lemma bind_vars_trace xs v σ : trace (bind_vars xs v σ) = trace σ.
Proof.
  unfold bind_vars. destruct xs as [|x [|x' xs]]; try apply bind_parts_trace. done.
Qed.

Lemma bind_flat_trace v ps : ∀ σ, trace (bind_flat v ps σ) = trace σ.
Proof.
  unfold bind_flat. induction ps as [|[x path] ps IH]; intros σ; simpl; [done|].
  by rewrite IH.
Qed.

Lemma covers_bind_flat v ps : ∀ σ B,
  covers σ B -> covers (bind_flat v ps σ) (ps.*1 ++ B).
Proof.
  unfold bind_flat. induction ps as [|[x path] ps IH]; intros σ B Hc; simpl; [done|].
  apply (covers_sub _ (ps.*1 ++ x :: B)); [|apply IH, covers_bind_name, Hc].
  set_solver.
Qed.

Lemma import_names_trace m names : ∀ σ,
  trace (foldl (fun σ x => bind_name x (VLib (m ++ "." ++ x)) σ) σ names) = trace σ.
Proof. induction names as [|x names IH]; intros σ; simpl; [done|]. by rewrite IH. Qed.

Lemma covers_import_names m names : ∀ σ B,
  covers σ B ->
  covers (foldl (fun σ x => bind_name x (VLib (m ++ "." ++ x)) σ) σ names) (names ++ B).
Proof.
  induction names as [|x names IH]; intros σ B Hc; simpl; [done|].
  apply (covers_sub _ (names ++ x :: B)); [|apply IH, covers_bind_name, Hc].
  set_solver.
Qed.

Lemma clean_restore σ0 σ m (r : res (list aval)) :
  trace σ0 = trace σ -> clean w σ0 r ->
  clean w σ match r with
            | Val vs σ' => Val (VSeq vs) (with_env m σ')
            | Exc e σ' => Exc e (with_env m σ')
            | Fuel => Fuel
            end.
Proof.
  intros Ht Hr. destruct Hr as [a σ' evs H1 H2 H3|e σ' evs f args H1 H2 H3 H4].
  - eapply clean_val; [simpl; by rewrite H1, Ht | done | by rewrite <- Ht].
  - eapply clean_exc;
      [simpl; by rewrite H1, Ht | done | by rewrite <- Ht | by rewrite <- Ht].
Qed.

Section checked_lists.

Variable ev : expr -> state -> res aval.
Variable B : list string.
Variable n : nat.
Hypothesis ev_clean : ∀ e σ,
  expr_ok B e = true -> esize e ≤ n -> covers σ B -> clean w σ (ev e σ).
Hypothesis ev_keeps : ∀ e σ, keeps_env σ (ev e σ).

Lemma eval_list_clean es :
  Forall (fun e => expr_ok B e = true ∧ esize e ≤ n) es ->
  ∀ σ, covers σ B -> clean w σ (eval_list ev es σ).
Proof.
  induction 1 as [|e es [Hok Hsz] _ IH]; intros σ Hc; simpl; [by apply clean_done|].
  apply clean_andthen; [by apply ev_clean|]. intros v σ1 Hv.
  apply clean_andthen.
  - apply IH. eapply covers_after; [|exact Hv|exact Hc]. apply ev_keeps.
  - intros vs σ2 _. by apply clean_done.
Qed.

Lemma eval_arg_clean a σ :
  expr_ok B (arg_expr a) = true ∧ esize (arg_expr a) ≤ n ->
  covers σ B -> clean w σ (eval_arg ev a σ).
Proof.
  intros [Hok Hsz] Hc.
  destruct a; simpl in *; (apply clean_andthen; [by apply ev_clean|]);
    intros v σ1 _; by apply clean_done.
Qed.

Lemma eval_args_clean args :
  Forall (fun a => expr_ok B (arg_expr a) = true ∧ esize (arg_expr a) ≤ n) args ->
  ∀ σ, covers σ B -> clean w σ (eval_args ev args σ).
Proof.
  induction 1 as [|a args Ha _ IH]; intros σ Hc; simpl; [by apply clean_done|].
  apply clean_andthen; [by apply eval_arg_clean|]. intros v σ1 Hv.
  apply clean_andthen.
  - apply IH. eapply covers_after; [|exact Hv|exact Hc]. by apply eval_arg_keeps_env.
  - intros vs σ2 _. by apply clean_done.
Qed.

Lemma eval_opt_clean o σ :
  (∀ e, o = Some e -> expr_ok B e = true ∧ esize e ≤ n) ->
  covers σ B -> clean w σ (eval_opt ev o σ).
Proof.
  intros Ho Hc. destruct o as [e|]; simpl; [|by apply clean_done].
  destruct (Ho e eq_refl). by apply ev_clean.
Qed.

Lemma eval_index_clean i σ :
  match i with
  | IAt e => expr_ok B e = true ∧ esize e ≤ n
  | ISlice lo hi =>
      (∀ e, lo = Some e -> expr_ok B e = true ∧ esize e ≤ n)
      ∧ (∀ e, hi = Some e -> expr_ok B e = true ∧ esize e ≤ n)
  end ->
  covers σ B -> clean w σ (eval_index ev i σ).
Proof.
  intros Hi Hc. destruct i as [e|lo hi]; simpl.
  - destruct Hi. apply clean_andthen; [by apply ev_clean|].
    intros v σ1 _. by apply clean_done.
  - destruct Hi as [Hlo Hhi].
    apply clean_andthen; [by apply eval_opt_clean|]. intros l σ1 Hl.
    apply clean_andthen.
    + apply eval_opt_clean; [done|].
      eapply covers_after; [|exact Hl|exact Hc]. by apply eval_opt_keeps_env.
    + intros h σ2 _. by apply clean_done.
Qed.

Lemma eval_indices_clean idx :
  Forall (fun i => match i with
                   | IAt e => expr_ok B e = true ∧ esize e ≤ n
                   | ISlice lo hi =>
                       (∀ e, lo = Some e -> expr_ok B e = true ∧ esize e ≤ n)
                       ∧ (∀ e, hi = Some e -> expr_ok B e = true ∧ esize e ≤ n)
                   end) idx ->
  ∀ σ, covers σ B -> clean w σ (eval_indices ev idx σ).
Proof.
  induction 1 as [|i idx Hi _ IH]; intros σ Hc; simpl; [by apply clean_done|].
  apply clean_andthen; [by apply eval_index_clean|]. intros v σ1 Hv.
  apply clean_andthen.
  - apply IH. eapply covers_after; [|exact Hv|exact Hc]. by apply eval_index_keeps_env.
  - intros vs σ2 _. by apply clean_done.
Qed.

End checked_lists.

Lemma eval_items_clean (ev : expr -> state -> res aval) B elt vars coll :
  (∀ σ, covers σ (vars ++ B) -> clean w σ (ev elt σ)) ->
  (∀ e σ, keeps_env σ (ev e σ)) ->
  ∀ k i σ, covers σ B -> clean w σ (eval_items ev elt vars coll k i σ).
Proof.
  intros Helt Hkeep. induction k as [|k IH]; intros i σ Hc; simpl;
    [by apply clean_done|].
  apply (clean_same _ (bind_vars vars (part coll i) σ)); [apply bind_vars_trace|].
  apply clean_andthen; [by apply Helt, covers_bind_vars|]. intros v σ2 Hv.
  apply clean_andthen.
  - apply IH. eapply (covers_sub _ (vars ++ B)); [set_solver|].
    eapply covers_after; [|exact Hv|by apply covers_bind_vars]. apply Hkeep.
  - intros vs σ3 _. by apply clean_done.
Qed.

(** What [expr_ok] and [esize] say of the parts of an expression. *)
Lemma args_fit B m (args : list (arg expr)) :
  forallb (fun a => match a with
                    | APos e | AStar e | AKw _ e | ADStar e => expr_ok B e
                    end) args = true ->
  sum_list_with (fun a => match a with
                          | APos e | AStar e | AKw _ e | ADStar e => esize e
                          end) args ≤ m ->
  Forall (fun a => expr_ok B (arg_expr a) = true ∧ esize (arg_expr a) ≤ m) args.
Proof.
  induction args as [|a args IH]; simpl; [constructor|].
  intros [Ha Hrest]%andb_prop Hsz. constructor.
  - destruct a; simpl in *; split; (done || lia).
  - apply IH; [done | lia].
Qed.

Lemma exprs_fit B m (es : list expr) :
  forallb (expr_ok B) es = true -> sum_list_with esize es ≤ m ->
  Forall (fun e => expr_ok B e = true ∧ esize e ≤ m) es.
Proof.
  induction es as [|e es IH]; simpl; [constructor|].
  intros [Ha Hrest]%andb_prop Hsz. constructor; [split; (done || lia)|].
  apply IH; [done | lia].
Qed.

Lemma indices_fit B m (idx : list (index expr)) :
  forallb (fun i => match i with
                    | IAt e => expr_ok B e
                    | ISlice lo hi =>
                        match lo with Some e => expr_ok B e | None => true end &&
                        match hi with Some e => expr_ok B e | None => true end
                    end) idx = true ->
  sum_list_with (fun i => match i with
                          | IAt e => esize e
                          | ISlice lo hi =>
                              match lo with Some e => esize e | None => 0 end +
                              match hi with Some e => esize e | None => 0 end
                          end) idx ≤ m ->
  Forall (fun i => match i with
                   | IAt e => expr_ok B e = true ∧ esize e ≤ m
                   | ISlice lo hi =>
                       (∀ e, lo = Some e -> expr_ok B e = true ∧ esize e ≤ m)
                       ∧ (∀ e, hi = Some e -> expr_ok B e = true ∧ esize e ≤ m)
                   end) idx.
Proof.
  induction idx as [|i idx IH]; simpl; [constructor|].
  intros [Ha Hrest]%andb_prop Hsz. constructor; [|apply IH; [done | lia]].
  destruct i as [e|lo hi]; [split; (done || lia)|].
  apply andb_prop in Ha as [Hlo Hhi].
  split; intros e ->; split; (done || lia).
Qed.

Lemma known_lookup B x σ :
  known B x = true -> covers σ B -> is_Some (lookup_name x σ).
Proof.
  unfold known, lookup_name. intros [Hx|Hx]%orb_prop Hc.
  - apply bool_decide_eq_true in Hx. destruct (Hc x Hx) as [v ->]. eauto.
  - destruct (env σ !! x); [eauto|]. rewrite Hx. eauto.
Qed.

Lemma eval_clean n : ∀ B e σ,
  expr_ok B e = true -> esize e ≤ n -> covers σ B -> clean w σ (eval w n e σ).
Proof.
  induction n as [|n IH]; intros B e σ Hok Hsz Hc.
  { destruct e; simpl in Hsz; lia. }
  destruct e; cbn [eval expr_ok esize] in *.
  - destruct (known_lookup B x σ Hok Hc) as [v ->]. by apply clean_done.
  - by apply clean_done.
  - by apply clean_done.
  - apply clean_andthen; [apply (IH B); (done || lia)|].
    intros v σ1 _. by apply clean_done.
  - apply andb_prop in Hok as [Hf Hargs].
    apply clean_andthen; [apply (IH B); (done || lia)|]. intros vf σ1 Hvf.
    assert (Hc1 : covers σ1 B)
      by (eapply covers_after; [|eassumption|exact Hc]; apply eval_keeps_env).
    apply clean_andthen.
    + apply (eval_args_clean (eval w n) B n (IH B) (eval_keeps_env n)); [|done].
      apply args_fit; [done | lia].
    + intros vs σ2 _. apply clean_call.
  - apply andb_prop in Hok as [Hf Hidx].
    apply clean_andthen; [apply (IH B); (done || lia)|]. intros vf σ1 Hvf.
    assert (Hc1 : covers σ1 B)
      by (eapply covers_after; [|eassumption|exact Hc]; apply eval_keeps_env).
    apply clean_andthen.
    + apply (eval_indices_clean (eval w n) B n (IH B) (eval_keeps_env n)); [|done].
      apply indices_fit; [done | lia].
    + intros vs σ2 _. apply clean_call.
  - apply andb_prop in Hok as [Hl Hr].
    apply clean_andthen; [apply (IH B); (done || lia)|]. intros vl σ1 Hvl.
    assert (Hc1 : covers σ1 B)
      by (eapply covers_after; [|eassumption|exact Hc]; apply eval_keeps_env).
    apply clean_andthen; [apply (IH B); (done || lia)|]. intros vr σ2 _.
    apply clean_call.
  - apply clean_andthen.
    + apply (eval_list_clean (eval w n) B n (IH B) (eval_keeps_env n)); [|done].
      apply exprs_fit; [done | lia].
    + intros vs σ1 _. by apply clean_done.
  - apply clean_andthen.
    + apply (eval_list_clean (eval w n) B n (IH B) (eval_keeps_env n)); [|done].
      apply exprs_fit; [done | lia].
    + intros vs σ1 _. by apply clean_done.
  - apply andb_prop in Hok as [Hiter Helt].
    apply clean_andthen; [apply (IH B); (done || lia)|]. intros coll σ1 Hcoll.
    assert (Hc1 : covers σ1 B)
      by (eapply covers_after; [|eassumption|exact Hc]; apply eval_keeps_env).
    apply (clean_restore (next_loop σ1)); [done|].
    apply (eval_items_clean _ B); [|apply eval_keeps_env|done].
    intros σ2 Hc2. apply (IH (vars ++ B)%list); (done || lia).
Qed.

(** *** Statements *)

Lemma sound_done σ σ' B' : trace σ' = trace σ -> covers σ' B' -> sound w σ B' (Val tt σ').
Proof. intros Ht Hc. split; [by apply clean_done|]. by intros ? [= <-]. Qed.

Lemma sound_andthen {A} σ (r : res A) (k : A -> state -> res unit) B' :
  clean w σ r ->
  (∀ a σ', r = Val a σ' -> sound w σ' B' (k a σ')) ->
  sound w σ B' (andthen r k).
Proof.
  intros Hr Hk. split.
  - apply clean_andthen; [done|]. intros a σ' Ha. by apply Hk.
  - intros σ'' Heq. destruct r as [a σ'| |]; simpl in Heq; try discriminate.
    by apply (Hk a σ' eq_refl).
Qed.

Lemma sound_same σ σ1 B' r : trace σ1 = trace σ -> sound w σ1 B' r -> sound w σ B' r.
Proof. intros Ht [Hc Hb]. split; [by eapply clean_same|done]. Qed.

Lemma sound_weaken σ B1 B2 r :
  (∀ x, x ∈ B2 -> x ∈ B1) -> sound w σ B1 r -> sound w σ B2 r.
Proof. intros Hs [Hc Hb]. split; [done|]. intros σ' Hr. eapply covers_sub; eauto. Qed.

Lemma none_Forall (p : stmt -> bool) ss :
  existsb (any_stmt p) ss = false -> Forall (fun s => any_stmt p s = false) ss.
Proof.
  induction ss as [|s ss IH]; simpl; [constructor|].
  intros [Hs Hss]%orb_false_elim. constructor; auto.
Qed.

Lemma sizes_fit {A} (f : A -> nat) (l : list A) m :
  sum_list_with f l ≤ m -> Forall (fun x => f x ≤ m) l.
Proof.
  intros Hsum. apply Forall_forall. intros x Hx.
  pose proof (sum_list_with_in x f l Hx). lia.
Qed.

Lemma bind_target_names t v σ B xs :
  target_names t = Some xs -> covers σ B ->
  ∃ σ', bind_target t v σ = Some σ' ∧ trace σ' = trace σ ∧ covers σ' (xs ++ B).
Proof.
  unfold target_names, bind_target.
  destruct (flatten_target t) as [ps|]; simpl; [|done].
  intros [= <-] Hc. eexists. split; [done|]. split.
  - apply bind_flat_trace.
  - by apply covers_bind_flat.
Qed.

Lemma assign_sound n t v σ B B' :
  target_ok B t = Some B' -> esize t ≤ n -> covers σ B ->
  sound w σ B' (assign w (eval w n) t v σ).
Proof.
  intros Hok Hsz Hc.
  assert (Hbind : ∀ xs, target_names t = Some xs -> B' = (xs ++ B)%list ->
            sound w σ B' match bind_target t v σ with
                         | Some σ' => Val tt σ'
                         | None => Exc (TypeError "unsupported assignment target") σ
                         end).
  { intros xs Hxs ->.
    destruct (bind_target_names t v σ B xs Hxs Hc) as (σ' & -> & Ht & Hc').
    by apply sound_done. }
  destruct t; cbn [assign]; unfold target_ok in Hok;
    try (destruct (target_names _) as [xs|] eqn:Hxs; [|discriminate];
         injection Hok as <-; by apply (Hbind xs)).
  - (* EAttr *)
    cbn [esize] in Hsz.
    destruct (expr_ok B t) eqn:Hbase; [|discriminate]. injection Hok as <-.
    apply sound_andthen; [apply eval_clean with (B := B); (done || lia)|].
    intros vb σ1 Hvb.
    apply sound_andthen; [apply clean_call|]. intros r σ2 Hr.
    apply sound_done; [done|].
    eapply covers_after; [|exact Hr|]; [apply call_keeps_env|].
    eapply covers_after; [|exact Hvb|exact Hc]. apply eval_keeps_env.
  - (* ESub *)
    cbn [esize expr_ok] in *.
    destruct (expr_ok B t && _) eqn:Hall; [|discriminate]. injection Hok as <-.
    apply andb_prop in Hall as [Hbase Hidx].
    apply sound_andthen; [apply eval_clean with (B := B); (done || lia)|].
    intros vb σ1 Hvb.
    assert (Hc1 : covers σ1 B)
      by (eapply covers_after; [|exact Hvb|exact Hc]; apply eval_keeps_env).
    apply sound_andthen.
    { apply (eval_indices_clean (eval w n) B n (eval_clean n B) (eval_keeps_env n));
        [|done].
      apply indices_fit; [done | lia]. }
    intros ix σ2 Hix.
    assert (Hc2 : covers σ2 B).
    { eapply covers_after; [|exact Hix|exact Hc1].
      apply eval_indices_keeps_env, eval_keeps_env. }
    apply sound_andthen; [apply clean_call|]. intros r σ3 Hr.
    apply sound_done; [done|].
    eapply covers_after; [|exact Hr|exact Hc2]. apply call_keeps_env.
Qed.

Section checked_statements.

Variable ex : stmt -> state -> res unit.
Variable n : nat.
Hypothesis ex_sound : ∀ s σ B B',
  good s -> names_ok B s = Some B' -> ssize s ≤ n -> covers σ B ->
  sound w σ B' (ex s σ).
Hypothesis ex_bounded : ∀ s σ, bounded σ (binds s) (ex s σ).

Lemma exec_list_sound ss : ∀ σ B B',
  Forall good ss -> check_list names_ok B ss = Some B' ->
  Forall (fun s => ssize s ≤ n) ss -> covers σ B ->
  sound w σ B' (exec_list ex ss σ).
Proof.
  induction ss as [|s ss IH]; intros σ B B' Hgood Hnames Hsz Hc; simpl in *.
  - injection Hnames as <-. by apply sound_done.
  - destruct (names_ok B s) as [B1|] eqn:Hs; [|discriminate].
    apply Forall_cons in Hgood as [Hg Hgood]. apply Forall_cons in Hsz as [Hz Hsz].
    destruct (ex_sound s σ B B1 Hg Hs Hz Hc) as [Hclean Hcov].
    apply sound_andthen; [done|]. intros [] σ1 Hr.
    apply (IH σ1 B1); auto.
Qed.

Lemma exec_items_sound t body coll xs B Bb :
  target_names t = Some xs ->
  check_list names_ok (xs ++ B) body = Some Bb ->
  Forall good body -> Forall (fun s => ssize s ≤ n) body ->
  ∀ k i σ, covers σ B -> sound w σ B (exec_items ex t body coll k i σ).
Proof.
  intros Hxs Hbody Hgood Hsz. induction k as [|k IH]; intros i σ Hc; simpl;
    [by apply sound_done|].
  destruct (bind_target_names t (part coll i) σ B xs Hxs Hc) as (σ1 & -> & Ht & Hc1).
  apply (sound_same σ σ1); [done|].
  destruct (exec_list_sound body σ1 (xs ++ B) Bb Hgood Hbody Hsz Hc1) as [Hclean _].
  apply sound_andthen; [done|]. intros [] σ2 Hr.
  apply IH.
  pose proof (exec_list_bounded ex ex_bounded body σ1) as Hb. rewrite Hr in Hb.
  eapply covers_between; [exact Hb|]. eapply covers_sub; [|exact Hc1]. set_solver.
Qed.

End checked_statements.

Lemma both_left B1 B2 x : x ∈ both B1 B2 -> x ∈ B1.
Proof. unfold both. by intros [_ ?]%list_elem_of_filter. Qed.

Lemma both_right B1 B2 x : x ∈ both B1 B2 -> x ∈ B2.
Proof. unfold both. by intros [? _]%list_elem_of_filter. Qed.

Lemma ssize_pos s : 1 ≤ ssize s.
Proof. destruct s; simpl; lia. Qed.

Lemma exec_sound n : ∀ s σ B B',
  good s -> names_ok B s = Some B' -> ssize s ≤ n -> covers σ B ->
  sound w σ B' (exec w n s σ).
Proof.
  induction n as [|n IH]; intros s σ B B' Hgood Hnames Hsz Hc.
  { pose proof (ssize_pos s). lia. }
  unfold good in Hgood.
  destruct s; cbn [exec names_ok ssize stmt_exprs sum_list_with any_stmt] in *.
  - injection Hnames as <-. by apply sound_done.
  - injection Hnames as <-. apply sound_done; [done|]. by apply covers_bind_name.
  - injection Hnames as <-. apply sound_done; [apply import_names_trace|].
    by apply covers_import_names.
  - destruct (expr_ok B value) eqn:Hv; [|discriminate].
    apply sound_andthen; [apply eval_clean with (B := B); (done || lia)|].
    intros v σ1 Hr. apply assign_sound with (B := B); [done | lia |].
    eapply covers_after; [|exact Hr|exact Hc]. apply eval_keeps_env.
  - destruct (expr_ok B target && expr_ok B value) eqn:Hv; [|discriminate].
    apply andb_prop in Hv as [Ht Hv].
    apply sound_andthen; [apply eval_clean with (B := B); (done || lia)|].
    intros old σ1 Hr1.
    assert (Hc1 : covers σ1 B)
      by (eapply covers_after; [|exact Hr1|exact Hc]; apply eval_keeps_env).
    apply sound_andthen; [apply eval_clean with (B := B); (done || lia)|].
    intros v σ2 Hr2.
    assert (Hc2 : covers σ2 B)
      by (eapply covers_after; [|exact Hr2|exact Hc1]; apply eval_keeps_env).
    apply sound_andthen; [apply clean_call|]. intros r σ3 Hr3.
    apply assign_sound with (B := B); [done | lia |].
    eapply covers_after; [|exact Hr3|exact Hc2]. apply call_keeps_env.
  - destruct (expr_ok B e) eqn:He; [|discriminate]. injection Hnames as <-.
    apply sound_andthen; [apply eval_clean with (B := B); (done || lia)|].
    intros v σ1 Hr. apply sound_done; [done|].
    eapply covers_after; [|exact Hr|exact Hc]. apply eval_keeps_env.
  - injection Hnames as <-. apply sound_done; [done|]. by apply covers_bind_name.
  - destruct (expr_ok B test) eqn:Ht; [|discriminate].
    destruct (check_list names_ok B body0) as [B1|] eqn:H1; [|discriminate].
    destruct (check_list names_ok B orelse) as [B2|] eqn:H2; [|discriminate].
    injection Hnames as <-.
    apply orb_false_elim in Hgood as [_ [Hg1 Hg2]%orb_false_elim].
    apply none_Forall in Hg1, Hg2.
    assert (Hs1 : Forall (fun s => ssize s ≤ n) body0) by (apply sizes_fit; lia).
    assert (Hs2 : Forall (fun s => ssize s ≤ n) orelse) by (apply sizes_fit; lia).
    apply sound_andthen; [apply eval_clean with (B := B); (done || lia)|].
    intros v σ1 Hr.
    assert (Hc1 : covers (next_test σ1) B).
    { apply (covers_same σ1); [done|].
      eapply covers_after; [|exact Hr|exact Hc]. apply eval_keeps_env. }
    apply (sound_same σ1 (next_test σ1)); [done|].
    destruct (truth w (ntests σ1)).
    + apply (sound_weaken _ B1); [apply both_left|].
      by apply (exec_list_sound (exec w n) n IH body0 _ B).
    + apply (sound_weaken _ B2); [apply both_right|].
      by apply (exec_list_sound (exec w n) n IH orelse _ B).
  - destruct (expr_ok B iter) eqn:Hi; [|discriminate].
    destruct (target_names target) as [xs|] eqn:Hxs; [|discriminate].
    destruct (check_list names_ok (xs ++ B) body0) as [Bb|] eqn:Hb; [|discriminate].
    injection Hnames as <-.
    apply orb_false_elim in Hgood as [_ Hg]. apply none_Forall in Hg.
    assert (Hs : Forall (fun s => ssize s ≤ n) body0) by (apply sizes_fit; lia).
    apply sound_andthen; [apply eval_clean with (B := B); (done || lia)|].
    intros coll σ1 Hr.
    assert (Hc1 : covers (next_loop σ1) B).
    { apply (covers_same σ1); [done|].
      eapply covers_after; [|exact Hr|exact Hc]. apply eval_keeps_env. }
    apply (sound_same σ1 (next_loop σ1)); [done|].
    by apply (exec_items_sound (exec w n) n IH (exec_bounded n) target body0 coll xs B Bb).
  - discriminate.
  - discriminate.
  - discriminate.
Qed.

(** A session is the run of its statements, cell after cell. *)
Lemma exec_list_app ex ss1 ss2 σ :
  exec_list ex (ss1 ++ ss2) σ
  = andthen (exec_list ex ss1 σ) (fun _ σ' => exec_list ex ss2 σ').
Proof.
  revert σ. induction ss1 as [|s ss1 IH]; intros σ; simpl; [done|].
  destruct (ex s σ) as [[] σ1| |]; simpl; auto.
Qed.

Lemma run_cells_program n cs σ :
  run_cells w n cs σ = exec_list (exec w n) (program cs) σ.
Proof.
  revert σ. induction cs as [|c cs IH]; intros σ; [done|].
  unfold program in *. rewrite bind_cons, exec_list_app. simpl. unfold run_cell.
  destruct (exec_list (exec w n) (body c) σ) as [[] σ1| |]; simpl; auto.
Qed.

Lemma plain_good ss : plain ss = true -> Forall good ss.
Proof. unfold plain. intros H%negb_true_iff. by apply none_Forall. Qed.

(** A plain program whose names resolve, run with fuel for its largest
    statement: every exception it ends with is the exception of the last
    call, which the world made raise; nothing runs after that call. *)
Lemma session_clean n cs B' σ :
  plain (program cs) = true ->
  check_list names_ok [] (program cs) = Some B' ->
  Forall (fun s => ssize s ≤ n) (program cs) ->
  sound w σ B' (run_cells w n cs σ).
Proof.
  intros Hplain Hnames Hsz. rewrite run_cells_program.
  apply (exec_list_sound (exec w n) n (exec_sound n) (program cs) σ []);
    auto using plain_good.
  intros x Hx. by apply elem_of_nil in Hx.
Qed.

Lemma run_cells_app n cs1 cs2 σ :
  run_cells w n (cs1 ++ cs2) σ
  = andthen (run_cells w n cs1 σ) (fun _ σ' => run_cells w n cs2 σ').
Proof.
  revert σ. induction cs1 as [|c cs1 IH]; intros σ; simpl; [done|].
  destruct (run_cell w n c σ) as [[] σ1| |]; simpl; auto.
Qed.

Lemma run_cells_cons n c cs σ :
  run_cells w n (c :: cs) σ
  = andthen (run_cell w n c σ) (fun _ σ' => run_cells w n cs σ').
Proof. reflexivity. Qed.

Lemma andthen_val {A B} (a : A) σ (k : A -> state -> res B) : andthen (Val a σ) k = k a σ.
Proof. reflexivity. Qed.

Lemma run_cells_bounded n cs σ : bounded σ (program cs ≫= binds) (run_cells w n cs σ).
Proof. rewrite run_cells_program. apply exec_list_bounded, exec_bounded. Qed.

(** *** A comprehension over the attributes of a collection *)

Lemma eval_attr_name n x a v σ :
  lookup_name x σ = Some v ->
  eval w (S (S n)) (EAttr (EName x) a) σ = Val (attr_of v a) σ.
Proof. intros H. cbn [eval]. by rewrite H. Qed.

Lemma lookup_bound x v σ : lookup_name x (bind_name x v σ) = Some v.
Proof. unfold lookup_name. cbn [env bind_name]. by rewrite lookup_insert_eq. Qed.

Lemma eval_items_attr n x a coll k : ∀ i σ,
  ∃ σ', eval_items (eval w (S (S n))) (EAttr (EName x) a) [x] coll k i σ
        = Val ((fun j => attr_of (part coll j) a) <$> seq i k) σ'
     ∧ nobj σ' = nobj σ ∧ nloops σ' = nloops σ ∧ ntests σ' = ntests σ
     ∧ trace σ' = trace σ.
Proof.
  induction k as [|k IH]; intros i σ; [by exists σ|].
  cbn [eval_items bind_vars].
  rewrite (eval_attr_name n x a (part coll i)) by apply lookup_bound.
  cbn [andthen].
  destruct (IH (S i) (bind_name x (part coll i) σ)) as (σ' & -> & H1 & H2 & H3 & H4).
  cbn [andthen]. exists σ'. split; [done|]. by simpl in *.
Qed.

Lemma eval_comp_unfold n gen elt vars iter σ :
  eval w (S n) (EComp gen elt vars iter) σ
  = andthen (eval w n iter σ) (fun coll σ =>
      match eval_items (eval w n) elt vars coll (items w (nloops σ)) 0 (next_loop σ) with
      | Val vs σ' => Val (VSeq vs) (with_env (env σ) σ')
      | Exc e σ' => Exc e (with_env (env σ) σ')
      | Fuel => Fuel
      end).
Proof. reflexivity. Qed.

Lemma eval_name n y v σ : lookup_name y σ = Some v -> eval w (S n) (EName y) σ = Val v σ.
Proof. intros H. cbn [eval]. by rewrite H. Qed.

Lemma eval_comp_attr n gen x a y coll σ :
  lookup_name y σ = Some coll ->
  eval w (S (S (S n))) (EComp gen (EAttr (EName x) a) [x] (EName y)) σ
  = Val (VSeq ((fun j => attr_of (part coll j) a) <$> seq 0 (items w (nloops σ))))
        (next_loop σ).
Proof.
  intros Hy. rewrite eval_comp_unfold, (eval_name _ _ coll) by done. cbn [andthen].
  destruct (eval_items_attr n x a coll (items w (nloops σ)) 0 (next_loop σ))
    as (σ' & -> & H1 & H2 & H3 & H4).
  f_equal. destruct σ', σ; simpl in *; by subst.
Qed.

Lemma exec_assign_unfold n t v σ :
  exec w (S n) (SAssign t v) σ
  = andthen (eval w n v σ) (fun x σ => assign w (eval w n) t x σ).
Proof. reflexivity. Qed.

Lemma assign_comp_attr n gen t x a y coll σ :
  lookup_name y σ = Some coll ->
  exec w (S (S (S (S n))))
    (SAssign (EName t) (EComp gen (EAttr (EName x) a) [x] (EName y))) σ
  = Val tt (bind_name t
              (VSeq ((fun j => attr_of (part coll j) a) <$> seq 0 (items w (nloops σ))))
              (next_loop σ)).
Proof.
  intros Hy. rewrite exec_assign_unfold, (eval_comp_attr _ _ _ _ _ coll) by done.
  reflexivity.
Qed.

End world.

(** *** More fuel changes no outcome *)

Section fuel.

Variable w : world.

Lemma more_fuel_refl {A} (r : res A) : more_fuel r r.
Proof. by right. Qed.

Lemma more_fuel_andthen {A B} (r r' : res A) (k k' : A -> state -> res B) :
  more_fuel r r' -> (∀ a σ, more_fuel (k a σ) (k' a σ)) ->
  more_fuel (andthen r k) (andthen r' k').
Proof.
  intros [->| ->] Hk; [by left|].
  destruct r; simpl; [apply Hk | by right | by left].
Qed.

Section expressions.

Variables ev ev' : expr -> state -> res aval.
Hypothesis ev_more : ∀ e σ, more_fuel (ev e σ) (ev' e σ).

Local Ltac step := apply more_fuel_andthen; [|intros ? ?].

Lemma eval_list_more es : ∀ σ, more_fuel (eval_list ev es σ) (eval_list ev' es σ).
Proof.
  induction es as [|e es IH]; intros σ; simpl; [apply more_fuel_refl|].
  step; [apply ev_more|]. step; [apply IH | apply more_fuel_refl].
Qed.

Lemma eval_arg_more a σ : more_fuel (eval_arg ev a σ) (eval_arg ev' a σ).
Proof. destruct a; simpl; (step; [apply ev_more | apply more_fuel_refl]). Qed.

Lemma eval_args_more args : ∀ σ, more_fuel (eval_args ev args σ) (eval_args ev' args σ).
Proof.
  induction args as [|a args IH]; intros σ; simpl; [apply more_fuel_refl|].
  step; [apply eval_arg_more|]. step; [apply IH | apply more_fuel_refl].
Qed.

Lemma eval_opt_more o σ : more_fuel (eval_opt ev o σ) (eval_opt ev' o σ).
Proof. destruct o; simpl; [apply ev_more | apply more_fuel_refl]. Qed.

Lemma eval_index_more i σ : more_fuel (eval_index ev i σ) (eval_index ev' i σ).
Proof.
  destruct i; simpl.
  - step; [apply ev_more | apply more_fuel_refl].
  - step; [apply eval_opt_more|]. step; [apply eval_opt_more | apply more_fuel_refl].
Qed.

Lemma eval_indices_more idx : ∀ σ,
  more_fuel (eval_indices ev idx σ) (eval_indices ev' idx σ).
Proof.
  induction idx as [|i idx IH]; intros σ; simpl; [apply more_fuel_refl|].
  step; [apply eval_index_more|]. step; [apply IH | apply more_fuel_refl].
Qed.

Lemma eval_items_more elt vars coll k : ∀ i σ,
  more_fuel (eval_items ev elt vars coll k i σ) (eval_items ev' elt vars coll k i σ).
Proof.
  induction k as [|k IH]; intros i σ; simpl; [apply more_fuel_refl|].
  step; [apply ev_more|]. step; [apply IH | apply more_fuel_refl].
Qed.

Lemma assign_more t v σ : more_fuel (assign w ev t v σ) (assign w ev' t v σ).
Proof.
  destruct t; simpl; try apply more_fuel_refl.
  - step; [apply ev_more|]. apply more_fuel_refl.
  - step; [apply ev_more|]. step; [apply eval_indices_more | apply more_fuel_refl].
Qed.

End expressions.

Lemma eval_more : ∀ n m e σ, n ≤ m -> more_fuel (eval w n e σ) (eval w m e σ).
Proof.
  induction n as [|n IH]; intros [|m] e σ Hle; try (by left); [lia|].
  assert (IH' : ∀ e σ, more_fuel (eval w n e σ) (eval w m e σ))
    by (intros; apply IH; lia).
  destruct e; simpl; try apply more_fuel_refl.
  - apply more_fuel_andthen; [apply IH' | intros; apply more_fuel_refl].
  - apply more_fuel_andthen; [apply IH'|]. intros vf σ1.
    apply more_fuel_andthen; [by apply eval_args_more | intros; apply more_fuel_refl].
  - apply more_fuel_andthen; [apply IH'|]. intros v σ1.
    apply more_fuel_andthen; [by apply eval_indices_more | intros; apply more_fuel_refl].
  - apply more_fuel_andthen; [apply IH'|]. intros vl σ1.
    apply more_fuel_andthen; [apply IH' | intros; apply more_fuel_refl].
  - apply more_fuel_andthen; [by apply eval_list_more | intros; apply more_fuel_refl].
  - apply more_fuel_andthen; [by apply eval_list_more | intros; apply more_fuel_refl].
  - apply more_fuel_andthen; [apply IH'|]. intros coll σ1.
    destruct (eval_items_more (eval w n) (eval w m) IH' e1 vars coll
                (items w (nloops σ1)) 0 (next_loop σ1)) as [->| ->]; [by left | by right].
Qed.

Section statements.

Variables ex ex' : stmt -> state -> res unit.
Hypothesis ex_more : ∀ s σ, more_fuel (ex s σ) (ex' s σ).

Lemma exec_list_more ss : ∀ σ, more_fuel (exec_list ex ss σ) (exec_list ex' ss σ).
Proof.
  induction ss as [|s ss IH]; intros σ; simpl; [apply more_fuel_refl|].
  apply more_fuel_andthen; [apply ex_more | intros; apply IH].
Qed.

Lemma exec_items_more t body coll k : ∀ i σ,
  more_fuel (exec_items ex t body coll k i σ) (exec_items ex' t body coll k i σ).
Proof.
  induction k as [|k IH]; intros i σ; simpl; [apply more_fuel_refl|].
  destruct (bind_target t (part coll i) σ); [|apply more_fuel_refl].
  apply more_fuel_andthen; [apply exec_list_more | intros; apply IH].
Qed.

End statements.

Lemma exec_more : ∀ n m s σ, n ≤ m -> more_fuel (exec w n s σ) (exec w m s σ).
Proof.
  induction n as [|n IH]; intros [|m] s σ Hle; try (by left); [lia|].
  assert (Hle' : n ≤ m) by lia.
  assert (IH' : ∀ s σ, more_fuel (exec w n s σ) (exec w m s σ))
    by (intros; by apply IH).
  assert (Hev : ∀ e σ, more_fuel (eval w n e σ) (eval w m e σ))
    by (intros; by apply eval_more).
  destruct s; simpl; try apply more_fuel_refl.
  - apply more_fuel_andthen; [apply Hev | intros; by apply assign_more].
  - apply more_fuel_andthen; [apply Hev|]. intros old σ1.
    apply more_fuel_andthen; [apply Hev|]. intros v σ2.
    apply more_fuel_andthen; [apply more_fuel_refl | intros; by apply assign_more].
  - apply more_fuel_andthen; [apply Hev | intros; apply more_fuel_refl].
  - apply more_fuel_andthen; [apply Hev | intros; by apply exec_list_more].
  - apply more_fuel_andthen; [apply Hev | intros; by apply exec_items_more].
  - apply more_fuel_andthen; [apply Hev|]. intros v σ1.
    destruct (truth w (ntests σ1)); [|apply more_fuel_refl].
    apply more_fuel_andthen; [by apply exec_list_more | intros; apply IH'].
  - destruct (exec_list_more (exec w n) (exec w m) IH' body0 σ) as [->| ->]; [by left|].
    destruct (exec_list (exec w n) body0 σ); [by right | by apply exec_list_more | by left].
  - apply more_fuel_andthen; [by apply eval_args_more | intros; apply more_fuel_refl].
Qed.

Lemma run_cells_more n m cs : ∀ σ,
  n ≤ m -> more_fuel (run_cells w n cs σ) (run_cells w m cs σ).
Proof.
  intros σ Hle. rewrite !run_cells_program.
  apply exec_list_more. intros; by apply exec_more.
Qed.

Lemma run_cell_more n m c σ :
  n ≤ m -> more_fuel (run_cell w n c σ) (run_cell w m c σ).
Proof. intros Hle. apply exec_list_more. intros; by apply exec_more. Qed.

Lemma run_cells_fuel n m cs σ σ' :
  run_cells w n cs σ = Val tt σ' -> n ≤ m -> run_cells w m cs σ = Val tt σ'.
Proof.
  intros Hr Hle. destruct (run_cells_more n m cs σ Hle) as [H|H]; congruence.
Qed.

End fuel.

(** *** The three notebooks *)

Lemma notebooks_plain : Forall (fun nb => plain (program nb) = true) all_notebooks.
Proof. repeat constructor. Qed.

Lemma notebooks_resolve :
  Forall (fun nb => is_Some (check_list names_ok [] (program nb))) all_notebooks.
Proof. repeat constructor; vm_compute; eauto. Qed.

Lemma notebooks_sizes :
  Forall (fun nb => Forall (fun s => ssize s ≤ 64) (program nb)) all_notebooks.
Proof.
  apply Forall_forall. intros nb Hnb. apply Forall_forall. intros s Hs.
  assert (Hall : forallb (fun nb => forallb (fun s => ssize s <=? 64) (program nb))
                   all_notebooks = true) by (vm_compute; reflexivity).
  rewrite forallb_forall in Hall. apply list_elem_of_In, Hall in Hnb.
  rewrite forallb_forall in Hnb. apply list_elem_of_In, Hnb in Hs.
  by apply Nat.leb_le.
Qed.

Lemma notebook_sound w fuel nb :
  nb ∈ all_notebooks -> 64 ≤ fuel ->
  ∃ B', sound w fresh_kernel B' (run_cells w fuel nb fresh_kernel).
Proof.
  intros Hnb Hfuel.
  pose proof (proj1 (Forall_forall _ _) notebooks_plain nb Hnb) as Hplain.
  pose proof (proj1 (Forall_forall _ _) notebooks_resolve nb Hnb) as [B' Hnames].
  pose proof (proj1 (Forall_forall _ _) notebooks_sizes nb Hnb) as Hsz.
  exists B'. apply session_clean; [done | done |].
  eapply Forall_impl; [exact Hsz|]. intros s Hs. simpl in Hs. lia.
Qed.

(** *** Sessions in which no call raises *)

Lemma quiet_returns {A} it tr σ (r : res A) :
  clean (quiet it tr) σ r -> ∃ a σ', r = Val a σ'.
Proof.
  intros [a σ' evs _ _ _|e σ' evs f args _ _ _ H]; [eauto|]. simpl in H. discriminate.
Qed.

Lemma notebook_completes it tr fuel nb :
  nb ∈ all_notebooks -> 64 ≤ fuel ->
  ∃ σ, run_cells (quiet it tr) fuel nb fresh_kernel = Val tt σ.
Proof.
  intros Hnb Hfuel.
  destruct (notebook_sound (quiet it tr) fuel nb Hnb Hfuel) as [B' [Hc _]].
  destruct (quiet_returns _ _ _ _ Hc) as ([] & σ & ->). eauto.
Qed.

Lemma notebook_cells nb c :
  nb ∈ all_notebooks -> c ∈ nb ->
  plain (body c) = true ∧ Forall (fun s => ssize s ≤ 64) (body c).
Proof.
  intros Hnb Hc.
  assert (Hall : forallb (fun nb => forallb (fun c =>
                   plain (body c) && forallb (fun s => ssize s <=? 64) (body c)) nb)
                   all_notebooks = true) by (vm_compute; reflexivity).
  rewrite forallb_forall in Hall. apply list_elem_of_In, Hall in Hnb.
  rewrite forallb_forall in Hnb. apply list_elem_of_In, Hnb in Hc.
  apply andb_true_iff in Hc as [Hp Hs]. split; [done|].
  apply Forall_forall. intros s Hin. rewrite forallb_forall in Hs.
  apply list_elem_of_In, Hs in Hin. by apply Nat.leb_le.
Qed.

Lemma cell_clean w n c σ :
  plain (body c) = true -> self_contained c = true ->
  Forall (fun s => ssize s ≤ n) (body c) ->
  clean w σ (run_cell w n c σ).
Proof.
  unfold self_contained.
  destruct (check_list names_ok [] (body c)) as [B'|] eqn:Hn; [|done].
  intros Hp _ Hs.
  apply (exec_list_sound w (exec w n) n (exec_sound w n) (body c) σ [] B');
    auto using plain_good.
  intros x Hx. by apply elem_of_nil in Hx.
Qed.

Lemma cell_needs_name it tr nb c :
  nb ∈ all_notebooks -> c ∈ nb -> self_contained c = false ->
  ∃ x σ', run_cell (quiet it tr) 64 c fresh_kernel = Exc (NameError x) σ'.
Proof.
  intros Hnb Hc Hself.
  assert (Hall : forallb (fun nb => forallb (fun c =>
                   self_contained c ||
                   match run_cell (quiet it tr) 64 c fresh_kernel with
                   | Exc (NameError _) _ => true
                   | _ => false
                   end) nb) all_notebooks = true) by (vm_compute; reflexivity).
  rewrite forallb_forall in Hall. apply list_elem_of_In, Hall in Hnb.
  rewrite forallb_forall in Hnb. apply list_elem_of_In, Hnb in Hc.
  rewrite Hself in Hc. simpl in Hc.
  destruct (run_cell (quiet it tr) 64 c fresh_kernel) as [|[] σ'|]; try discriminate.
  eauto.
Qed.




(** C7.  No statement of a notebook, the body of [imshow_all] included,
    handles an exception or raises one of its own.  Whatever the library
    does, a notebook run in order ends in one of two ways: every call
    returned and the run completed, or the first call that raised is the
    last event of the session, made once, and the session ended with the
    exception of that call, unchanged. *)
Theorem exceptions_propagate w fuel nb :
  nb ∈ all_notebooks -> 64 ≤ fuel ->
  plain (program nb) = true
  ∧ clean w fresh_kernel (run_cells w fuel nb fresh_kernel).
Proof.
  intros Hnb Hfuel. split.
  - exact (proj1 (Forall_forall _ _) notebooks_plain nb Hnb).
  - by destruct (notebook_sound w fuel nb Hnb Hfuel) as [B' [Hc _]].
Qed.

Lemma exceptions_propagate_witness :
  plain (program arrays) = true
  ∧ clean (failing 2 (LibraryError "matplotlib.pyplot.imshow" 1)) fresh_kernel
      (run_cells (failing 2 (LibraryError "matplotlib.pyplot.imshow" 1)) 64 arrays
         fresh_kernel).
Proof.
  apply (exceptions_propagate (failing 2 (LibraryError "matplotlib.pyplot.imshow" 1))
           64 arrays).
  - unfold all_notebooks. left.
  - lia.
Defined.

(** src/arrays.ipynb when the third call, [plt.imshow(coins, cmap='gray')],
    raises: the session ends there with that exception. *)
Example failing_imshow_ends_session :
  ∃ σ, run_cells (failing 2 (LibraryError "matplotlib.pyplot.imshow" 1)) 64 arrays
         fresh_kernel
       = Exc (LibraryError "matplotlib.pyplot.imshow" 1) σ
    ∧ trace σ
      = [Call (VLib "skimage.data.coins") [] (VObj 0);
         Call (VLib "builtins.type") [(EmptyString, VObj 0)] (VObj 1);
         Failed (VLib "matplotlib.pyplot.imshow")
           [(EmptyString, VObj 0); ("cmap", VStr "gray")]
           (LibraryError "matplotlib.pyplot.imshow" 1)].
Proof. eexists. split; vm_compute; reflexivity. Qed.

(** *** The name [dtype_limits] *)

Lemma prefix_binds k (nb : list cell) x :
  x ∈ program (take k nb) ≫= binds -> x ∈ program nb ≫= binds.
Proof.
  intros H. rewrite <- (take_drop k nb). unfold program in *.
  rewrite !bind_app. apply elem_of_app. by left.
Qed.

Lemma dtype_limits_unbound w fuel nb k σ :
  nb ∈ all_notebooks ->
  final_state (run_cells w fuel (take k nb) fresh_kernel) = Some σ ->
  lookup_name "dtype_limits" σ = None.
Proof.
  intros Hnb Hσ.
  assert (Hall : forallb (fun nb => negb (bool_decide
                   ("dtype_limits" ∈ program nb ≫= binds))) all_notebooks = true)
    by (vm_compute; reflexivity).
  rewrite forallb_forall in Hall. apply list_elem_of_In, Hall in Hnb.
  apply negb_true_iff, bool_decide_eq_false in Hnb.
  pose proof (run_cells_bounded w fuel (take k nb) fresh_kernel) as Hb.
  assert (Hbetween : env_between fresh_kernel (program (take k nb) ≫= binds) σ).
  { destruct (run_cells w fuel (take k nb) fresh_kernel); simpl in *; by simplify_eq. }
  destruct Hbetween as [_ Hnew]. unfold lookup_name.
  destruct (env σ !! "dtype_limits") as [v|] eqn:Hv; [|reflexivity].
  destruct (Hnew "dtype_limits") as [[v' Hv']|Hin]; [by eauto| |].
  - simpl in Hv'. by rewrite lookup_empty in Hv'.
  - by apply prefix_binds in Hin.
Qed.

(** C9, amended.  In the kernel state after any number of cells of any
    notebook, whatever the library did, the name [dtype_limits] is bound
    neither in the namespace nor as a builtin.  A call of [imshow_all] made
    there with [limits='dtype'], whose [titles] are absent or a list of
    strings, raises [NameError: dtype_limits] and plots nothing. *)
Theorem imshow_all_dtype_limits {image fimage grid axis : Type}
    (img_as_float : image -> fimage) (samples : fimage -> list Q)
    (subplots : Z -> Z -> Q * Q -> result grid) (ravel : grid -> result (list axis))
    (call_dtype_limits : fimage -> result (pyval * pyval))
    (w : world) (fuel : nat) (nb : list cell) (k : nat) (σ : state)
    (images : list image) (kwargs : gmap string pyval) :
  nb ∈ all_notebooks ->
  final_state (run_cells w fuel (take k nb) fresh_kernel) = Some σ ->
  kwargs !! "limits" = Some (PStr "dtype") ->
  Helper.titles_typed kwargs ->
  lookup_name "dtype_limits" σ = None
  ∧ Helper.imshow_all img_as_float samples subplots ravel (dom (env σ))
      call_dtype_limits images kwargs
    = ([], Raise (NameError "dtype_limits")).
Proof.
  intros Hnb Hσ Hlim Htitles.
  pose proof (dtype_limits_unbound w fuel nb k σ Hnb Hσ) as Hfree.
  split; [done|]. apply HelperFacts.imshow_all_dtype; [|done|done].
  unfold lookup_name in Hfree. apply not_elem_of_dom.
  by destruct (env σ !! "dtype_limits").
Qed.

Lemma imshow_all_dtype_limits_witness :
  let σ := default fresh_kernel
             (final_state (run_cells (calm 0) 64 (take 10 filtering) fresh_kernel)) in
  lookup_name "dtype_limits" σ = None
  ∧ Helper.imshow_all Library.img_as_float Library.samples Library.subplots Library.ravel
      (dom (env σ)) Library.no_dtype_limits
      [Library.square_image] {["limits" := PStr "dtype"]}
    = ([], Raise (NameError "dtype_limits")).
Proof.
  intros σ.
  apply (imshow_all_dtype_limits Library.img_as_float Library.samples Library.subplots
           Library.ravel Library.no_dtype_limits (calm 0) 64 filtering 10 σ
           [Library.square_image] {["limits" := PStr "dtype"]}).
  - unfold all_notebooks. right. right. left.
  - vm_compute. reflexivity.
  - reflexivity.
  - left. reflexivity.
Defined.

(** C9, as stated, fails for a call whose [titles] have no length:
    [imshow_all(image, titles=3, limits='dtype')] raises [TypeError] at
    [len(titles)], before [limits] is looked at. *)
Lemma imshow_all_dtype_untyped_titles :
  Library.imshow_all [Library.square_image]
    (<["limits" := PStr "dtype"]> {["titles" := PInt 3]})
  = ([], Raise (TypeError "object has no len()")).
Proof. reflexivity. Qed.

(** *** The calls of the three sessions *)

Lemma exec_print it tr n label x v σ :
  env σ !! "print" = None -> lookup_name x σ = Some v ->
  exec (quiet it tr) (S (S (S n)))
    (SExpr (ECall (EName "print") [APos (EStr label); APos (EName x)])) σ
  = Val tt (log (Call (VLib "builtins.print") [(EmptyString, VStr label); (EmptyString, v)]
                   (VObj (nobj σ))) (new_object σ)).
Proof.
  intros Hp Hx. cbn [exec eval andthen]. unfold lookup_name at 1. rewrite Hp.
  cbn [eval_args eval_arg eval andthen].
  assert (Hb : bool_decide ("print" ∈ builtins) = true) by (vm_compute; reflexivity).
  rewrite Hb. cbn [andthen]. rewrite Hx. reflexivity.
Qed.

(** The cell of src/visualization.ipynb at line 839: two comprehensions
    over [properties], each printed. *)
Lemma properties_cell it tr coll σ :
  env σ !! "print" = None -> lookup_name "properties" σ = Some coll ->
  run_cell (quiet it tr) 64
    (Cell 839
       [SAssign (EName "areas")
          (EComp false (EAttr (EName "prop") "area") ["prop"] (EName "properties"));
        SExpr (ECall (EName "print") [APos (EStr "areas:"); APos (EName "areas")]);
        SAssign (EName "mean_intensities")
          (EComp false (EAttr (EName "prop") "mean_intensity") ["prop"]
             (EName "properties"));
        SExpr (ECall (EName "print")
                 [APos (EStr "mean intensities:"); APos (EName "mean_intensities")])]) σ
  = let areas := VSeq ((fun j => attr_of (part coll j) "area")
                         <$> seq 0 (it (nloops σ))) in
    let means := VSeq ((fun j => attr_of (part coll j) "mean_intensity")
                         <$> seq 0 (it (S (nloops σ)))) in
    Val tt (State (<["mean_intensities" := means]> (<["areas" := areas]> (env σ)))
              (S (S (nobj σ))) (S (S (nloops σ))) (ntests σ)
              (trace σ ++
               [Call (VLib "builtins.print")
                  [(EmptyString, VStr "areas:"); (EmptyString, areas)] (VObj (nobj σ));
                Call (VLib "builtins.print")
                  [(EmptyString, VStr "mean intensities:"); (EmptyString, means)]
                  (VObj (S (nobj σ)))])%list).
Proof.
  intros Hp Hprops. unfold run_cell. cbn [body exec_list].
  rewrite (assign_comp_attr _ _ _ _ _ _ _ coll) by done. cbn [andthen].
  set (l1 := VSeq (_ <$> seq 0 (items (quiet it tr) (nloops σ)))).
  rewrite (exec_print it tr _ "areas:" "areas" l1);
    [|cbn [bind_name next_loop env]; by rewrite lookup_insert_ne|apply lookup_bound].
  cbn [andthen].
  rewrite (assign_comp_attr _ _ _ _ _ _ _ coll).
  2:{ unfold lookup_name in *. cbn [log new_object bind_name next_loop env].
      by rewrite lookup_insert_ne. }
  cbn [andthen].
  set (l2 := VSeq (_ <$> seq 0 (items (quiet it tr) _))).
  rewrite (exec_print it tr _ "mean intensities:" "mean_intensities" l2);
    [|cbn [log new_object bind_name next_loop env]; by rewrite !lookup_insert_ne
     |apply lookup_bound].
  cbn [andthen exec_list]. subst l1 l2. cbv zeta. f_equal.
  unfold log, new_object, bind_name, next_loop. cbn [env nobj nloops ntests trace].
  by rewrite <- (assoc_L app).
Qed.

Lemma filtering_split :
  filtering
  = (take 23 filtering ++
     Cell 839
       [SAssign (EName "areas")
          (EComp false (EAttr (EName "prop") "area") ["prop"] (EName "properties"));
        SExpr (ECall (EName "print") [APos (EStr "areas:"); APos (EName "areas")]);
        SAssign (EName "mean_intensities")
          (EComp false (EAttr (EName "prop") "mean_intensity") ["prop"]
             (EName "properties"));
        SExpr (ECall (EName "print")
                 [APos (EStr "mean intensities:"); APos (EName "mean_intensities")])]
     :: drop 24 filtering)%list.
Proof. reflexivity. Qed.

Lemma arrays_session it tr fuel :
  64 ≤ fuel ->
  ∃ t, completed (run_cells (quiet it tr) fuel arrays fresh_kernel) = Some t
    ∧ written_objects t
      = [(Some (VLib "skimage.data.chelsea"), VObj 9); (Some (VLib "numpy.copy"), VObj 15)]
    ∧ results_of derived_makers t = [VObj 14]
    ∧ omap fs_of t
      = [FsSample "skimage.data.coins"; FsSample "skimage.data.chelsea";
         FsSample "skimage.data.camera";
         FsRead (VJoin (VLib "skimage.data_dir") (VStr "camera.png"));
         FsMkdtemp (VTmpDir 40);
         FsWrite "skimage.io.imsave" (VJoin (VTmpDir 40) (VStr "my_camera.png"));
         FsListDir (VTmpDir 40);
         FsWrite "skimage.io.imsave" (VJoin (VTmpDir 40) (VStr "gaussian_camera.png"))]
    ∧ library_calls t
      = ["skimage.data.coins"; "builtins.type"; "skimage.data.chelsea";
         "operator.<"; "numpy.copy"; "operator.setitem";
         "skimage.data.camera"; "operator.*"; "matplotlib.pyplot.subplots";
         "operator.getitem"; "skimage.img_as_float";
         "skimage.filters.gaussian"; "builtins.print"; "skimage.io.imread";
         "matplotlib.pyplot.imshow"; "tempfile.mkdtemp"; "os.listdir";
         "os.path.join"; "skimage.io.imsave"]
    ∧ local_calls t = [].
Proof.
  intros Hfuel.
  set (σ := match run_cells (quiet it tr) 64 arrays fresh_kernel with
            | Val _ σ => σ
            | _ => fresh_kernel
            end).
  assert (E : run_cells (quiet it tr) 64 arrays fresh_kernel = Val tt σ)
    by (vm_compute; reflexivity).
  exists (trace σ). rewrite (run_cells_fuel _ 64 fuel _ _ _ E Hfuel).
  repeat apply conj; vm_compute; reflexivity.
Qed.

Lemma visualization_session it tr fuel :
  64 ≤ fuel ->
  ∃ t, completed (run_cells (quiet it tr) fuel visualization fresh_kernel) = Some t
    ∧ written_objects t = [(Some (VLib "skimage.color.gray2rgb"), VObj 35)]
    ∧ results_of derived_makers t = [VObj 17; VObj 27; VObj 37; VObj 41]
    ∧ omap fs_of t
      = [FsSample "skimage.data.chelsea"; FsSample "skimage.data.camera";
         FsMkdtemp (VTmpDir 22);
         FsWrite "matplotlib.pyplot.savefig" (VJoin (VTmpDir 22) (VStr "figure.png"));
         FsWrite "matplotlib.pyplot.savefig" (VJoin (VTmpDir 22) (VStr "figure.pdf"));
         FsListDir (VTmpDir 22); FsSample "skimage.data.coins";
         FsSample "skimage.data.coffee"]
    ∧ library_calls t
      = ["skimage.data.chelsea"; "matplotlib.pyplot.axis";
         "skimage.data.camera"; "matplotlib.pyplot.colorbar";
         "matplotlib.pyplot.gray"; "operator./"; "numpy.arange";
         "operator.*"; "operator.<"; "matplotlib.pyplot.contour";
         "tempfile.mkdtemp"; "os.path.join"; "matplotlib.pyplot.savefig";
         "os.listdir"; "skimage.feature.corner_harris";
         "skimage.feature.corner_peaks"; "builtins.print";
         "matplotlib.pyplot.plot"; "matplotlib.pyplot.figure";
         "skimage.data.coins"; "skimage.color.gray2rgb";
         "skimage.draw.circle_perimeter"; "operator.setitem";
         "matplotlib.pyplot.imshow"; "skimage.data.coffee";
         "skimage.segmentation.slic"; "matplotlib.pyplot.subplots";
         "operator.getitem"; "skimage.segmentation.mark_boundaries"]
    ∧ local_calls t = [].
Proof.
  intros Hfuel.
  set (σ := match run_cells (quiet it tr) 64 visualization fresh_kernel with
            | Val _ σ => σ
            | _ => fresh_kernel
            end).
  assert (E : run_cells (quiet it tr) 64 visualization fresh_kernel = Val tt σ)
    by (vm_compute; reflexivity).
  exists (trace σ). rewrite (run_cells_fuel _ 64 fuel _ _ _ E Hfuel).
  repeat apply conj; vm_compute; reflexivity.
Qed.

Lemma filtering_session it tr fuel :
  64 ≤ fuel ->
  ∃ t, completed (run_cells (quiet it tr) fuel filtering fresh_kernel) = Some t
    ∧ written_objects t
      = [(None, VLib "matplotlib.pyplot.rcParams"); (Some (VLib "operator.-"), VObj 24);
         (None, VLib "matplotlib.pyplot.rcParams");
         (Some (VLib "numpy.zeros_like"), VObj 37);
         (Some (VLib "numpy.zeros_like"), VObj 37); (Some (VLib "numpy.zeros"), VObj 57)]
    ∧ results_of derived_makers t
      = [VObj 27; VObj 38; VObj 40; VObj 42; VObj 56; VObj 62; VObj 65; VObj 72;
         VObj 76; VObj 78; VObj 84; VObj 89; VObj 93]
    ∧ omap fs_of t
      = [FsSample "skimage.data.coins"; FsSample "skimage.data.coins";
         FsSample "skimage.data.text"]
    ∧ library_calls t
      = ["skimage.filters.gaussian"; "numpy.ones";
         "skimage.filters.rank.median"; "numpy.array";
         "skimage.morphology.diamond"; "skimage.morphology.square";
         "skimage.morphology.erosion"; "skimage.morphology.dilation";
         "skimage.data.binary_blobs"; "operator.-"; "numpy.random.randn";
         "operator.*"; "operator.i+"; "skimage.data.coins";
         "skimage.filters.threshold_otsu"; "matplotlib.pyplot.contour";
         "numpy.zeros_like"; "operator.<"; "matplotlib.pyplot.figure";
         "matplotlib.pyplot.subplot"; "matplotlib.pyplot.title";
         "matplotlib.pyplot.axis"; "skimage.util.regular_grid";
         "numpy.zeros"; "numpy.arange"; "operator.+"; "operator.setitem";
         "skimage.segmentation.watershed"; "matplotlib.pyplot.subplots";
         "skimage.color.label2rgb"; "skimage.measure.label"; "operator.==";
         "skimage.measure.regionprops"; "builtins.dir"; "builtins.print";
         "skimage.feature.canny"; "skimage.filters.sobel";
         "matplotlib.pyplot.colorbar"; "operator.>"; "skimage.data.text";
         "skimage.feature.corner_harris"; "skimage.feature.corner_peaks";
         "matplotlib.pyplot.imshow"; "operator.getitem";
         "matplotlib.pyplot.plot"]
    ∧ local_calls t = ["imshow_all"; "imshow_all"; "imshow_all"; "imshow_all"].
Proof.
  intros Hfuel.
  set (w := quiet it tr).
  set (σ1 := match run_cells w 64 (take 23 filtering) fresh_kernel with
             | Val _ σ => σ
             | _ => fresh_kernel
             end).
  assert (E1 : run_cells w 64 (take 23 filtering) fresh_kernel = Val tt σ1)
    by (vm_compute; reflexivity).
  assert (P1 : env σ1 !! "print" = None) by (vm_compute; reflexivity).
  assert (L1 : lookup_name "properties" σ1 = Some (VObj 78)) by (vm_compute; reflexivity).
  pose proof (properties_cell it tr (VObj 78) σ1 P1 L1) as E2. cbv zeta in E2.
  match type of E2 with _ = Val tt ?s => set (σ2 := s) in E2 end.
  set (σ3 := match run_cells w 64 (drop 24 filtering) σ2 with
             | Val _ σ => σ
             | _ => fresh_kernel
             end).
  assert (E3 : run_cells w 64 (drop 24 filtering) σ2 = Val tt σ3)
    by (vm_compute; reflexivity).
  assert (E : run_cells w 64 filtering fresh_kernel = Val tt σ3).
  { rewrite filtering_split, run_cells_app, E1, andthen_val, run_cells_cons.
    fold w in E2. rewrite E2, andthen_val, E3. reflexivity. }
  exists (trace σ3). rewrite (run_cells_fuel _ 64 fuel _ _ _ E Hfuel).
  repeat apply conj; vm_compute; reflexivity.
Qed.

Ltac among H :=
  repeat (apply elem_of_cons in H as [->|H]); [..|by apply elem_of_nil in H].

Ltac distinct :=
  repeat (apply not_elem_of_cons; split; [discriminate|]); apply not_elem_of_nil.

(** C5, amended.  In every session where no library call raises, the
    objects written in place (by an index or attribute assignment or an
    augmented assignment) are those listed, each with the function that
    returned it: images and copies of images, the array [im], and the marker
    arrays [markers] and [seeds], which [np.zeros_like] and [np.zeros]
    return and index assignments then fill.  No result of a comparison or of
    a library function that returns a mask, a label map, coordinates or
    region properties is among them. *)
Theorem derived_results_kept it tr fuel :
  64 ≤ fuel ->
  ∃ ta tv tf,
    completed (run_cells (quiet it tr) fuel arrays fresh_kernel) = Some ta
    ∧ completed (run_cells (quiet it tr) fuel visualization fresh_kernel) = Some tv
    ∧ completed (run_cells (quiet it tr) fuel filtering fresh_kernel) = Some tf
    ∧ written_objects ta
      = [(Some (VLib "skimage.data.chelsea"), VObj 9); (Some (VLib "numpy.copy"), VObj 15)]
    ∧ written_objects tv = [(Some (VLib "skimage.color.gray2rgb"), VObj 35)]
    ∧ written_objects tf
      = [(None, VLib "matplotlib.pyplot.rcParams"); (Some (VLib "operator.-"), VObj 24);
         (None, VLib "matplotlib.pyplot.rcParams");
         (Some (VLib "numpy.zeros_like"), VObj 37);
         (Some (VLib "numpy.zeros_like"), VObj 37); (Some (VLib "numpy.zeros"), VObj 57)]
    ∧ ∀ t v, t ∈ [ta; tv; tf] -> v ∈ results_of derived_makers t ->
        v ∉ (written_objects t).*2.
Proof.
  intros Hfuel.
  destruct (arrays_session it tr fuel Hfuel) as (ta & Ha & Wa & Ra & _).
  destruct (visualization_session it tr fuel Hfuel) as (tv & Hv & Wv & Rv & _).
  destruct (filtering_session it tr fuel Hfuel) as (tf & Hf & Wf & Rf & _).
  exists ta, tv, tf. repeat apply conj; try assumption.
  intros t v Ht Hv'.
  apply elem_of_cons in Ht as [->|Ht]; [|apply elem_of_cons in Ht as [->|Ht]];
    [| |apply list_elem_of_singleton in Ht as ->].
  - rewrite Ra in Hv'. rewrite Wa. cbn [fmap list_fmap snd]. among Hv'; distinct.
  - rewrite Rv in Hv'. rewrite Wv. cbn [fmap list_fmap snd]. among Hv'; distinct.
  - rewrite Rf in Hv'. rewrite Wf. cbn [fmap list_fmap snd]. among Hv'; distinct.
Qed.

Lemma derived_results_kept_witness :
  ∃ ta tv tf,
    completed (run_cells (quiet (fun _ => 2) (fun _ => true)) 64 arrays fresh_kernel)
    = Some ta
    ∧ completed (run_cells (quiet (fun _ => 2) (fun _ => true)) 64 visualization
                   fresh_kernel) = Some tv
    ∧ completed (run_cells (quiet (fun _ => 2) (fun _ => true)) 64 filtering
                   fresh_kernel) = Some tf
    ∧ written_objects ta
      = [(Some (VLib "skimage.data.chelsea"), VObj 9); (Some (VLib "numpy.copy"), VObj 15)]
    ∧ written_objects tv = [(Some (VLib "skimage.color.gray2rgb"), VObj 35)]
    ∧ written_objects tf
      = [(None, VLib "matplotlib.pyplot.rcParams"); (Some (VLib "operator.-"), VObj 24);
         (None, VLib "matplotlib.pyplot.rcParams");
         (Some (VLib "numpy.zeros_like"), VObj 37);
         (Some (VLib "numpy.zeros_like"), VObj 37); (Some (VLib "numpy.zeros"), VObj 57)]
    ∧ ∀ t v, t ∈ [ta; tv; tf] -> v ∈ results_of derived_makers t ->
        v ∉ (written_objects t).*2.
Proof. apply (derived_results_kept (fun _ => 2) (fun _ => true) 64). lia. Defined.

(** C5, as stated, fails in src/visualization.ipynb: the arrays [markers]
    (line 707, from [np.zeros_like]) and [seeds] (line 761, from [np.zeros])
    are written by the index assignments that follow their creation. *)
Lemma markers_written_in_place :
  ∃ t, completed (run_cells (calm 0) 64 filtering fresh_kernel) = Some t
    ∧ written_objects t !! 3%nat = Some (Some (VLib "numpy.zeros_like"), VObj 37)
    ∧ written_objects t !! 5%nat = Some (Some (VLib "numpy.zeros"), VObj 57).
Proof.
  set (σ := match run_cells (calm 0) 64 filtering fresh_kernel with
            | Val _ σ => σ
            | _ => fresh_kernel
            end).
  exists (trace σ). repeat apply conj; vm_compute; reflexivity.
Qed.




(** *** The code of the notebooks' own *)

(** C1, amended.  Two cells hold computation of the notebooks' own, both in
    the second notebook of src/visualization.ipynb: the cell at line 384,
    which defines [imshow_all], the only function defined, with four
    branches and one loop; and the cell at line 839, which holds list
    comprehensions and no compound statement.  Every other cell is a
    sequence of imports, assignments and expression statements.  In a
    session where no library call raises, the calls of a function defined
    in a notebook are the four calls of [imshow_all]; every other call is a
    call of the library. *)
Theorem notebooks_local_code it tr fuel :
  64 ≤ fuel ->
  local_cells <$> all_notebooks = [[]; []; [384; 839]]
  ∧ (fun nb => nb ≫= defined_functions) <$> all_notebooks = [[]; []; ["imshow_all"]]
  ∧ (∃ c, filtering !! 1 = Some c ∧ line c = 384
       ∧ sum_list_with (count_stmt is_branch) (body c) = 4
       ∧ sum_list_with (count_stmt is_loop) (body c) = 1)
  ∧ (∃ c, filtering !! 23 = Some c ∧ line c = 839
       ∧ existsb (any_stmt is_compound) (body c) = false
       ∧ existsb has_comprehension (body c) = true)
  ∧ ∃ ta tv tf,
      completed (run_cells (quiet it tr) fuel arrays fresh_kernel) = Some ta
      ∧ completed (run_cells (quiet it tr) fuel visualization fresh_kernel) = Some tv
      ∧ completed (run_cells (quiet it tr) fuel filtering fresh_kernel) = Some tf
      ∧ local_calls ta = [] ∧ local_calls tv = []
      ∧ local_calls tf = ["imshow_all"; "imshow_all"; "imshow_all"; "imshow_all"].
Proof.
  intros Hfuel.
  destruct (arrays_session it tr fuel Hfuel) as (ta & Ha & _ & _ & _ & _ & Ca).
  destruct (visualization_session it tr fuel Hfuel) as (tv & Hv & _ & _ & _ & _ & Cv).
  destruct (filtering_session it tr fuel Hfuel) as (tf & Hf & _ & _ & _ & _ & Cf).
  split; [vm_compute; reflexivity|]. split; [vm_compute; reflexivity|].
  split; [eexists; repeat apply conj; vm_compute; reflexivity|].
  split; [eexists; repeat apply conj; vm_compute; reflexivity|].
  exists ta, tv, tf. repeat apply conj; assumption.
Qed.

Lemma notebooks_local_code_witness :
  local_cells <$> all_notebooks = [[]; []; [384; 839]]
  ∧ (fun nb => nb ≫= defined_functions) <$> all_notebooks = [[]; []; ["imshow_all"]]
  ∧ (∃ c, filtering !! 1 = Some c ∧ line c = 384
       ∧ sum_list_with (count_stmt is_branch) (body c) = 4
       ∧ sum_list_with (count_stmt is_loop) (body c) = 1)
  ∧ (∃ c, filtering !! 23 = Some c ∧ line c = 839
       ∧ existsb (any_stmt is_compound) (body c) = false
       ∧ existsb has_comprehension (body c) = true)
  ∧ ∃ ta tv tf,
      completed (run_cells (quiet (fun _ => 2) (fun _ => true)) 64 arrays fresh_kernel)
      = Some ta
      ∧ completed (run_cells (quiet (fun _ => 2) (fun _ => true)) 64 visualization
                     fresh_kernel) = Some tv
      ∧ completed (run_cells (quiet (fun _ => 2) (fun _ => true)) 64 filtering
                     fresh_kernel) = Some tf
      ∧ local_calls ta = [] ∧ local_calls tv = []
      ∧ local_calls tf = ["imshow_all"; "imshow_all"; "imshow_all"; "imshow_all"].
Proof. apply (notebooks_local_code (fun _ => 2) (fun _ => true) 64). lia. Defined.

(** C1, as stated, fails in two ways.  The cell of src/visualization.ipynb
    at line 384 defines [imshow_all], which pads the titles, computes the
    intensity limits and the figure size and loops over the axes itself.
    The cell of src/arrays.ipynb at line 40 loads an image and neither
    displays nor saves anything: [data.coins] is its only call. *)
Lemma imshow_all_is_local_code :
  (∃ c, filtering !! 1 = Some c ∧ line c = 384
     ∧ defined_functions c = ["imshow_all"] ∧ library_only c = false)
  ∧ ∃ c σ, arrays !! 1 = Some c ∧ line c = 40
     ∧ run_cell (calm 0) 64 c fresh_kernel = Val tt σ
     ∧ trace σ = [Call (VLib "skimage.data.coins") [] (VObj 0)].
Proof.
  split.
  - exists (default (Cell 0 []) (filtering !! 1)).
    repeat apply conj; vm_compute; reflexivity.
  - set (c := default (Cell 0 []) (arrays !! 1)).
    set (σ := match run_cell (calm 0) 64 c fresh_kernel with
              | Val _ σ => σ
              | _ => fresh_kernel
              end).
    exists c, σ. repeat apply conj; vm_compute; reflexivity.
Qed.

End SessionFacts.

(** ** More on [imshow_all]: keyword arguments, limits, figure size *)

Module HelperProperties.
Import Py Helper.

Lemma setdefault_other (k k' : string) (v : pyval) (d : gmap string pyval) :
  k' ≠ k -> setdefault k v d !! k' = d !! k'.
Proof.
  intros Hne. unfold setdefault. destruct (d !! k); [done|].
  by rewrite lookup_insert_ne.
Qed.

Lemma setdefault_bound (k : string) (v v0 : pyval) (d : gmap string pyval) :
  d !! k = Some v0 -> setdefault k v d = d.
Proof. intros H. unfold setdefault. by rewrite H. Qed.

Lemma keywords_shown_shown {fimage axis} (kw : gmap string pyval)
    (triples : list (axis * fimage * pyval)) :
  keywords_shown (shown kw triples) = replicate (length triples) kw.
Proof.
  induction triples as [|[[ax img] label] rest IH]; [done|].
  unfold shown in *. rewrite bind_cons. simpl. unfold keywords_shown in *.
  simpl. by rewrite IH.
Qed.

Section properties.

Context {image fimage grid axis : Type}.
Variable img_as_float : image -> fimage.
Variable samples : fimage -> list Q.
Variable subplots : Z -> Z -> Q * Q -> result grid.
Variable ravel : grid -> result (list axis).
Variable globals : gset string.
Variable call_dtype_limits : fimage -> result (pyval * pyval).

(** The limits stage touches no key but [vmin] and [vmax]. *)
Lemma set_limits_other (fimgs : list fimage) (limits : pyval)
    (d d' : gmap string pyval) (k : string) :
  set_limits samples globals call_dtype_limits fimgs limits d = Ok d' ->
  k ≠ "vmin" -> k ≠ "vmax" -> d' !! k = d !! k.
Proof.
  unfold set_limits. intros H Hmin Hmax.
  destruct (py_eq_str limits "image").
  - destruct (rbind (rmap (array_min samples) fimgs) py_min) as [lo|]; [|done].
    simpl in H. destruct (rbind (rmap (array_max samples) fimgs) py_max) as [hi|]; [|done].
    simpl in H. injection H as <-. by rewrite !setdefault_other.
  - destruct (py_eq_str limits "dtype"); [|by injection H as <-].
    destruct (bool_decide _); [|done].
    destruct fimgs as [|img0 rest]; [done|]. simpl in H.
    destruct (call_dtype_limits img0) as [[lo hi]|]; [|done].
    simpl in H. injection H as <-. by rewrite !setdefault_other.
Qed.

(** The limits stage keeps a [vmin] or [vmax] that the caller gave. *)
Lemma set_limits_given (fimgs : list fimage) (limits : pyval)
    (d d' : gmap string pyval) (k : string) (v : pyval) :
  set_limits samples globals call_dtype_limits fimgs limits d = Ok d' ->
  k = "vmin" ∨ k = "vmax" -> d !! k = Some v -> d' !! k = Some v.
Proof.
  unfold set_limits. intros H Hk Hv.
  assert (Hkeep : ∀ k0 v0 d0, d0 !! k = Some v -> setdefault k0 v0 d0 !! k = Some v).
  { intros k0 v0 d0 Hd. destruct (decide (k = k0)) as [->|Hne].
    - by rewrite (setdefault_bound _ _ v).
    - by rewrite setdefault_other. }
  destruct (py_eq_str limits "image").
  - destruct (rbind (rmap (array_min samples) fimgs) py_min) as [lo|]; [|done].
    simpl in H. destruct (rbind (rmap (array_max samples) fimgs) py_max) as [hi|]; [|done].
    simpl in H. injection H as <-. auto.
  - destruct (py_eq_str limits "dtype"); [|by injection H as <-].
    destruct (bool_decide _); [|done].
    destruct fimgs as [|img0 rest]; [done|]. simpl in H.
    destruct (call_dtype_limits img0) as [[lo hi]|]; [|done].
    simpl in H. injection H as <-. auto.
Qed.

(** Every [imshow] of a call gets the keyword arguments the limits stage
    left, less [size]. *)
Lemma keywords_shown_stage (images : list image) (kwargs : gmap string pyval) :
  Forall (fun kw => ∃ kw1,
            (stages img_as_float samples globals call_dtype_limits images kwargs).2 = Ok kw1
            ∧ kw = delete "size" kw1)
    (keywords_shown
       (imshow_all img_as_float samples subplots ravel globals call_dtype_limits
          images kwargs).1).
Proof.
  unfold stages, imshow_all, pop; simpl.
  destruct (pad_titles _ _) as [ts|e]; cbn -[keywords_shown]; [|constructor].
  destruct (set_limits _ _ _ _ _ _) as [kw1|e]; cbn -[keywords_shown]; [|constructor].
  destruct (get_shape _ _) as [[r c]|e]; cbn -[keywords_shown]; [|constructor].
  destruct (as_number _) as [sz|e]; cbn -[keywords_shown]; [|constructor].
  destruct (subplots _ _ _) as [g|e]; cbn -[keywords_shown]; [|constructor].
  destruct (ravel g) as [axs|e]; cbn -[keywords_shown]; [|constructor].
  rewrite HelperFacts.show_each_shown. cbn -[keywords_shown].
  change (keywords_shown (?ev :: ?tr)) with (keywords_shown tr).
  rewrite keywords_shown_shown. apply Forall_replicate. by exists kw1.
Qed.

(** X1.  Keyword arguments reach [imshow] as the caller gave them, except that
    [titles], [limits] and [size] are removed and [vmin] and [vmax] may be
    added.  [shape] is read with [kwargs.get], not popped: it is passed on
    to [imshow] with the rest. *)
Theorem imshow_all_keywords (images : list image) (kwargs : gmap string pyval) :
  Forall (fun kw =>
            kw !! "titles" = None ∧ kw !! "limits" = None ∧ kw !! "size" = None
            ∧ kw !! "shape" = kwargs !! "shape"
            ∧ ∀ k, k ∉ ["titles"; "limits"; "size"; "vmin"; "vmax"] ->
                   kw !! k = kwargs !! k)
    (keywords_shown
       (imshow_all img_as_float samples subplots ravel globals call_dtype_limits
          images kwargs).1).
Proof.
  eapply Forall_impl; [apply keywords_shown_stage|].
  intros kw (kw1 & Hst & ->). unfold stages in Hst; simpl in Hst.
  assert (Hk : ∀ k, k ≠ "vmin" -> k ≠ "vmax" ->
                 kw1 !! k = delete "limits" (delete "titles" kwargs) !! k)
    by (intros; by eapply set_limits_other).
  split; [|split; [|split; [|split]]].
  - rewrite lookup_delete_ne, Hk, lookup_delete_ne by done. apply lookup_delete_eq.
  - rewrite lookup_delete_ne, Hk by done. apply lookup_delete_eq.
  - apply lookup_delete_eq.
  - by rewrite lookup_delete_ne, Hk, !lookup_delete_ne.
  - intros k Hnot.
    assert (k ≠ "titles" ∧ k ≠ "limits" ∧ k ≠ "size" ∧ k ≠ "vmin" ∧ k ≠ "vmax")
      as (H1 & H2 & H3 & H4 & H5).
    { repeat split; intros ->; apply Hnot; set_solver. }
    by rewrite lookup_delete_ne, Hk, !lookup_delete_ne.
Qed.

(** X2.  A [vmin] or [vmax] given by the caller is the one every [imshow] gets,
    whatever [limits] is: the limits stage only sets defaults. *)
Theorem imshow_all_given_limits (images : list image) (kwargs : gmap string pyval)
    (k : string) (v : pyval) :
  k = "vmin" ∨ k = "vmax" -> kwargs !! k = Some v ->
  Forall (fun kw => kw !! k = Some v)
    (keywords_shown
       (imshow_all img_as_float samples subplots ravel globals call_dtype_limits
          images kwargs).1).
Proof.
  intros Hk Hv. eapply Forall_impl; [apply keywords_shown_stage|].
  intros kw (kw1 & Hst & ->). unfold stages in Hst; simpl in Hst.
  assert (k ≠ "titles" ∧ k ≠ "limits" ∧ k ≠ "size") as (H1 & H2 & H3)
    by (destruct Hk as [->| ->]; done).
  rewrite lookup_delete_ne by done.
  eapply set_limits_given; [exact Hst | exact Hk|].
  by rewrite !lookup_delete_ne.
Qed.

(** X3.  With a [limits] that is neither ['image'] nor ['dtype'] no limit is
    computed: the images are not scanned, the call cannot fail for an image
    without samples, and [imshow] gets the caller's keyword arguments less
    [titles], [limits] and [size]. *)
Theorem imshow_all_other_limits (images : list image) (kwargs : gmap string pyval)
    (limits : pyval) :
  kwargs !! "limits" = Some limits ->
  py_eq_str limits "image" = false -> py_eq_str limits "dtype" = false ->
  (stages img_as_float samples globals call_dtype_limits images kwargs).2
  = Ok (delete "limits" (delete "titles" kwargs))
  ∧ Forall (fun kw => kw = delete "size" (delete "limits" (delete "titles" kwargs)))
      (keywords_shown
         (imshow_all img_as_float samples subplots ravel globals call_dtype_limits
            images kwargs).1).
Proof.
  intros Hlim Himage Hdtype.
  assert (Hst : (stages img_as_float samples globals call_dtype_limits images kwargs).2
                = Ok (delete "limits" (delete "titles" kwargs))).
  { unfold stages; simpl. rewrite lookup_delete_ne, Hlim by done. simpl.
    unfold set_limits. by rewrite Himage, Hdtype. }
  split; [exact Hst|].
  eapply Forall_impl; [apply keywords_shown_stage|].
  intros kw (kw1 & Hst' & ->). rewrite Hst in Hst'. by injection Hst' as <-.
Qed.

(** X4.  A [titles] value without a length (a number, [None], a boolean) makes
    the call raise [TypeError] at [len(titles)], before anything is plotted
    and whatever the other arguments are. *)
Theorem imshow_all_unsized_titles (images : list image) (kwargs : gmap string pyval)
    (titles : pyval) :
  kwargs !! "titles" = Some titles -> py_items titles = None ->
  imshow_all img_as_float samples subplots ravel globals call_dtype_limits images kwargs
  = ([], Raise (TypeError "object has no len()")).
Proof.
  intros Ht Hnone. apply HelperFacts.imshow_all_early. left.
  unfold stages; simpl. rewrite Ht; simpl. unfold pad_titles, py_len. by rewrite Hnone.
Qed.

(** X5.  A string given as [titles] is a sequence of characters: each image gets
    one character as its title, and [''] once the string is used up. *)
Theorem titles_from_string (fimgs : list fimage) (s : string) :
  pad_titles fimgs (PStr s)
  = Ok (((fun c => PStr (String c EmptyString)) <$> String.list_ascii_of_string s)
        ++ replicate (length fimgs - String.length s) (PStr EmptyString))%list.
Proof.
  assert (Hlen : length (String.list_ascii_of_string s) = String.length s).
  { induction s as [|c s IH]; simpl; congruence. }
  unfold pad_titles, py_len, py_list, py_repeat; simpl. rewrite length_fmap, Hlen.
  replace (Z.to_nat (Z.of_nat (length fimgs) - Z.of_nat (String.length s)))
    with (length fimgs - String.length s)%nat by lia.
  case_bool_decide as Hne; [done|].
  replace (length fimgs - String.length s)%nat with 0%nat by lia.
  simpl. by rewrite app_nil_r.
Qed.


(** When [axes.ravel()] fails, the figure has been created already and no
    image is shown. *)
Lemma imshow_all_ravel_fails (images : list image) (kwargs : gmap string pyval)
    ts kw1 r c sz g e :
  let fimgs := img_as_float <$> images in
  stages img_as_float samples globals call_dtype_limits images kwargs = (Ok ts, Ok kw1) ->
  get_shape fimgs kw1 = Ok (r, c) ->
  as_number (default (PInt 5) (kw1 !! "size")) = Ok sz ->
  subplots r c (figure_size fimgs r sz) = Ok g ->
  ravel g = Raise e ->
  imshow_all img_as_float samples subplots ravel globals call_dtype_limits images kwargs
  = ([EvSubplots r c (figure_size fimgs r sz)], Raise e).
Proof.
  unfold stages, imshow_all, pop; simpl. intros [= H1 H2] H3 H4 H5 H6.
  rewrite H1. cbn. rewrite H2. cbn. rewrite H3. cbn. rewrite H4. cbn.
  rewrite H5. cbn. rewrite H6. done.
Qed.

End properties.

(** X7.  A call with one image and no [shape]: [plt.subplots(nrows=1, ncols=1)]
    returns a single axes object, which has no [ravel].  The call raises
    [AttributeError] after the figure is created, and shows nothing. *)
Theorem imshow_all_single_image (img : list (list Z)) :
  concat img ≠ [] ->
  Library.imshow_all [img] ∅
  = ([EvSubplots 1 1 (figure_size [Library.img_as_float img] 1 5)],
     Raise (AttributeError "'Axes' object has no attribute 'ravel'")).
Proof.
  intros Hne.
  assert (Hs : Library.samples (Library.img_as_float img) ≠ []).
  { unfold Library.samples, Library.img_as_float, NumPy.map2d.
    intros H. apply Hne. clear Hne.
    induction img as [|row img IH]; [done|]. simpl in *.
    apply app_eq_nil in H as [Hrow Himg]. apply fmap_nil_inv in Hrow as ->.
    simpl. by apply IH. }
  destruct (Library.samples (Library.img_as_float img)) as [|x xs] eqn:Hx; [done|].
  unfold Library.imshow_all.
  apply (imshow_all_ravel_fails _ _ _ _ _ _ [img] ∅ [PStr EmptyString]
           (<["vmax" := PFloat (qmax_list x xs)]> (<["vmin" := PFloat (qmin_list x xs)]> ∅))
           1%Z 1%Z 5%Q (1, 1)%Z).
  - unfold stages; simpl. f_equal. unfold set_limits; simpl.
    unfold array_min, array_max. rewrite Hx. reflexivity.
  - reflexivity.
  - reflexivity.
  - reflexivity.
  - reflexivity.
Qed.

Lemma imshow_all_given_limits_witness :
  Forall (fun kw => kw !! "vmin" = Some (PFloat (1 # 4)))
    (keywords_shown
       (Library.imshow_all [Library.square_image; Library.square_image]
          (<["vmin" := PFloat (1 # 4)]> {["shape" := PPair (PInt 1) (PInt 2)]})).1).
Proof.
  apply (imshow_all_given_limits Library.img_as_float Library.samples Library.subplots
           Library.ravel ∅ Library.no_dtype_limits
           [Library.square_image; Library.square_image]
           (<["vmin" := PFloat (1 # 4)]> {["shape" := PPair (PInt 1) (PInt 2)]})
           "vmin" (PFloat (1 # 4))).
  - by left.
  - reflexivity.
Defined.

Lemma imshow_all_other_limits_witness :
  (stages Library.img_as_float Library.samples ∅ Library.no_dtype_limits
     [Library.square_image; []] {["limits" := PStr "none"]}).2
  = Ok (delete "limits" (delete "titles" {["limits" := PStr "none"]}))
  ∧ Forall (fun kw => kw = delete "size" (delete "limits" (delete "titles"
                                 {["limits" := PStr "none"]})))
      (keywords_shown
         (Library.imshow_all [Library.square_image; []] {["limits" := PStr "none"]}).1).
Proof.
  apply (imshow_all_other_limits Library.img_as_float Library.samples Library.subplots
           Library.ravel ∅ Library.no_dtype_limits
           [Library.square_image; []] {["limits" := PStr "none"]} (PStr "none"));
    reflexivity.
Defined.

Lemma imshow_all_unsized_titles_witness :
  Library.imshow_all [Library.square_image] {["titles" := PInt 3]}
  = ([], Raise (TypeError "object has no len()")).
Proof.
  apply (imshow_all_unsized_titles Library.img_as_float Library.samples Library.subplots
           Library.ravel ∅ Library.no_dtype_limits
           [Library.square_image] {["titles" := PInt 3]} (PInt 3)); reflexivity.
Defined.

Lemma imshow_all_single_image_witness :
  Library.imshow_all [Library.square_image] ∅
  = ([EvSubplots 1 1 (figure_size [Library.img_as_float Library.square_image] 1 5)],
     Raise (AttributeError "'Axes' object has no attribute 'ravel'")).
Proof. apply (imshow_all_single_image Library.square_image). discriminate. Defined.

End HelperProperties.

(** ** More on the array statements: values, slices, coordinates *)

Module KernelProperties.
Import Py NumPy Kernel KernelFacts.

Lemma pixel_map2d {A B} (f : A -> B) (img : list (list A)) i j :
  pixel (map2d f img) i j = f <$> pixel img i j.
Proof.
  unfold pixel, map2d. rewrite list_lookup_fmap.
  destruct (img !! i) as [row|]; simpl; [|done]. by rewrite list_lookup_fmap.
Qed.

Lemma pixel_zip_with {A B C} (f : A -> B -> C) (a : list (list A)) (b : list (list B)) i j :
  pixel (zip_with (zip_with f) a b) i j
  = x ← pixel a i j ; y ← pixel b i j ; Some (f x y).
Proof.
  unfold pixel. rewrite lookup_zip_with.
  destruct (a !! i) as [ra|]; simpl; [|done].
  destruct (b !! i) as [rb|]; simpl.
  - rewrite lookup_zip_with. destruct (ra !! j); simpl; [|done]. by destruct (rb !! j).
  - by destruct (ra !! j).
Qed.

Lemma shape2_zip_with {A B C} (f : A -> B -> C) (a : list (list A)) (b : list (list B)) :
  shape2 a = shape2 b -> shape2 (zip_with (zip_with f) a b) = shape2 b.
Proof.
  unfold shape2. revert b. induction a as [|ra a IH]; intros [|rb b]; simpl; try done.
  intros [= Hr Hs]. rewrite length_zip_with, Hr, Nat.min_id. f_equal. by apply IH.
Qed.

Lemma set_where_shape {A} (mask : list (list bool)) (v : A) (img img' : list (list A)) :
  set_where mask v img = Ok img' -> shape2 img' = shape2 img.
Proof.
  unfold set_where. case_bool_decide as Hs; [|done]. intros [= <-].
  by apply shape2_zip_with.
Qed.

(** *** The marker array of the watershed cell *)

Lemma seed_markers_run (m : memory) loc coins :
  names m !! "coins" = Some loc -> objects m !! loc = Some (AGray coins) ->
  seed_markers m
  = Ok (tt, Memory (<["markers" := length (objects m)]> (names m))
              (objects m ++
                 [AGray (zip_with (zip_with (fun (b : bool) x => if b then 2%Z else x))
                           (gt_scalar coins 150)
                           (zip_with (zip_with (fun (b : bool) x => if b then 1%Z else x))
                              (lt_scalar coins 30) (zeros_like coins)))])%list).
Proof.
  intros Hn Ho.
  assert (Hlt : (loc < length (objects m))%nat) by (by eapply lookup_lt_Some).
  unfold seed_markers, write_markers.
  kred. rewrite Hn. kred. rewrite Ho. kred.
  rewrite lookup_insert_ne, Hn by done. kred.
  rewrite lookup_app_l, Ho by done. kred.
  rewrite lookup_insert_eq. kred.
  rewrite (lookup_app_r (objects m)) by lia.
  replace (length (objects m) - length (objects m))%nat with 0%nat by lia.
  cbn [lookup list_lookup app]. kred.
  unfold lt_scalar at 1.
  rewrite set_where_same_shape by (unfold zeros_like; by rewrite shape2_map2d).
  kred.
  rewrite insert_app_r_alt by lia.
  replace (length (objects m) - length (objects m))%nat with 0%nat by lia.
  cbn [insert list_insert]. 
  rewrite lookup_insert_ne, Hn by done. kred.
  rewrite lookup_app_l, Ho by done. kred.
  rewrite lookup_insert_eq. kred.
  rewrite (lookup_app_r (objects m)) by lia.
  replace (length (objects m) - length (objects m))%nat with 0%nat by lia.
  cbn [lookup list_lookup app]. kred.
  unfold gt_scalar at 1.
  rewrite set_where_same_shape.
  2:{ rewrite shape2_zip_with; unfold lt_scalar, zeros_like; by rewrite !shape2_map2d. }
  kred.
  rewrite insert_app_r_alt by lia.
  replace (length (objects m) - length (objects m))%nat with 0%nat by lia.
  done.
Qed.

(** X8.  src/visualization.ipynb, lines 706-709.  Where [coins] names a gray
    image, the statements leave every existing object as it was and bind
    [markers] to a new array of the shape of [coins] that holds 2
    (foreground) where the sample is above 150, 1 (background) where it is
    below 30 and 0 elsewhere. *)
Theorem markers_by_threshold (m : memory) loc coins :
  names m !! "coins" = Some loc -> objects m !! loc = Some (AGray coins) ->
  ∃ m' lm marks,
    seed_markers m = Ok (tt, m')
    ∧ (∀ l a, objects m !! l = Some a -> objects m' !! l = Some a)
    ∧ names m' !! "markers" = Some lm
    ∧ objects m !! lm = None
    ∧ objects m' !! lm = Some (AGray marks)
    ∧ shape2 marks = shape2 coins
    ∧ ∀ i j, pixel marks i j
             = (fun x => if bool_decide (150 < x)%Z then 2%Z
                         else if bool_decide (x < 30)%Z then 1%Z else 0%Z)
               <$> pixel coins i j.
Proof.
  intros Hn Ho. eexists _, (length (objects m)), _.
  split; [exact (seed_markers_run m loc coins Hn Ho)|]. cbn [names objects].
  split; [|split; [|split; [|split; [|split]]]].
  - intros l a Hl. by apply lookup_app_l_Some.
  - apply lookup_insert_eq.
  - by apply lookup_ge_None.
  - rewrite lookup_app_r by lia.
    replace (length (objects m) - length (objects m))%nat with 0%nat by lia. done.
  - assert (H1 : shape2 (zip_with (zip_with (fun (b : bool) x => if b then 1%Z else x))
                           (lt_scalar coins 30) (zeros_like coins)) = shape2 coins).
    { unfold lt_scalar, zeros_like.
      rewrite shape2_zip_with; by rewrite !shape2_map2d. }
    rewrite shape2_zip_with; [exact H1|].
    unfold gt_scalar. by rewrite shape2_map2d, H1.
  - intros i j. rewrite !pixel_zip_with. unfold gt_scalar, lt_scalar, zeros_like.
    rewrite !pixel_map2d. destruct (pixel coins i j) as [x|]; simpl; [|done].
    by destruct (bool_decide (150 < x)%Z), (bool_decide (x < 30)%Z).
Qed.

Lemma markers_by_threshold_witness :
  let m := Memory {["coins" := 0%nat]} [AGray [[10; 100; 200]]%Z] in
  ∃ m' lm marks,
    seed_markers m = Ok (tt, m')
    ∧ (∀ l a, objects m !! l = Some a -> objects m' !! l = Some a)
    ∧ names m' !! "markers" = Some lm
    ∧ objects m !! lm = None
    ∧ objects m' !! lm = Some (AGray marks)
    ∧ shape2 marks = shape2 [[10; 100; 200]]%Z
    ∧ ∀ i j, pixel marks i j
             = (fun x => if bool_decide (150 < x)%Z then 2%Z
                         else if bool_decide (x < 30)%Z then 1%Z else 0%Z)
               <$> pixel [[10; 100; 200]]%Z i j.
Proof.
  intros m. apply (markers_by_threshold m 0%nat [[10; 100; 200]]%Z); reflexivity.
Defined.

(** *** Slices *)

Lemma pixel_crop {A} (r0 r1 c0 c1 : nat) (img : list (list A)) i j :
  pixel (crop r0 r1 c0 c1 img) i j
  = if bool_decide (i < r1 - r0 ∧ j < c1 - c0)%nat then pixel img (r0 + i) (c0 + j)
    else None.
Proof.
  unfold pixel, crop. rewrite list_lookup_fmap.
  destruct (decide (i < r1 - r0)%nat) as [Hi|Hi].
  - rewrite lookup_take_lt, lookup_drop by done.
    destruct (img !! (r0 + i)%nat) as [row|]; simpl; [|by case_bool_decide].
    destruct (decide (j < c1 - c0)%nat) as [Hj|Hj].
    + rewrite lookup_take_lt, lookup_drop by done.
      by rewrite bool_decide_eq_true_2.
    + rewrite lookup_take_ge by lia. rewrite bool_decide_eq_false_2; [done|lia].
  - rewrite lookup_take_ge by lia. simpl. rewrite bool_decide_eq_false_2; [done|lia].
Qed.

(** X9.  src/visualization.ipynb, line 452.  A slice never fails: it is
    clipped.  [coins_zoom] has at most 70 rows of at most 70 samples, and
    exactly 70 rows when [coins] has 80 rows or more; its sample at
    [(i, j)] is the sample of [coins] at [(10 + i, 300 + j)]. *)
Theorem coins_zoom_pixels (coins : list (list Z)) :
  length (coins_zoom coins) = (70 `min` (length coins - 10))%nat
  ∧ Forall (fun w => (w ≤ 70)%nat) (shape2 (coins_zoom coins))
  ∧ ∀ i j, pixel (coins_zoom coins) i j
           = if bool_decide (i < 70 ∧ j < 70)%nat then pixel coins (10 + i) (300 + j)
             else None.
Proof.
  unfold coins_zoom. split; [|split].
  - unfold crop. rewrite length_fmap, length_take, length_drop. done.
  - unfold shape2, crop. rewrite <- list_fmap_compose.
    apply Forall_fmap, Forall_forall. intros row _. simpl.
    rewrite length_take. lia.
  - intros i j. apply pixel_crop.
Qed.

(** X10.  src/arrays.ipynb, line 98.  The slice assignment never fails for an
    RGB image: the block is clipped to the image.  It keeps the shape, and
    on an image with at most 10 rows, or whose rows have at most 10 pixels,
    it changes nothing. *)
Theorem red_square_clipped (m : memory) loc img :
  names m !! "cat" = Some loc -> objects m !! loc = Some (ARgb img) ->
  ∃ m' img',
    paint_red_square m = Ok (tt, m')
    ∧ objects m' !! loc = Some (ARgb img')
    ∧ shape2 img' = shape2 img
    ∧ ((length img ≤ 10)%nat ∨ Forall (fun row => (length row ≤ 10)%nat) img -> m' = m).
Proof.
  intros Hn Ho.
  assert (Hlt : (loc < length (objects m))%nat) by (by eapply lookup_lt_Some).
  eexists _, _. split; [exact (paint_red_square_run m loc img Hn Ho)|].
  cbn [objects]. split; [by apply list_lookup_insert_eq|]. split.
  - unfold shape2, set_block. rewrite fmap_imap. 
    apply list_eq. intros i. rewrite list_lookup_imap, list_lookup_fmap.
    destruct (img !! i) as [row|]; simpl; [|done].
    destruct (in_slice 10 110 i); simpl; [|done]. by rewrite length_imap.
  - intros Hsmall.
    assert (Hsame : set_block 10 110 10 110 (255, 0, 0)%Z img = img).
    { unfold set_block. apply list_eq. intros i. rewrite list_lookup_imap.
      destruct (img !! i) as [row|] eqn:Hrow; simpl; [|done].
      unfold in_slice. case_bool_decide as Hi; [|done]. f_equal.
      destruct Hsmall as [Hrows|Hcols].
      - apply lookup_lt_Some in Hrow. lia.
      - apply list_eq. intros j. rewrite list_lookup_imap.
        destruct (row !! j) as [old|] eqn:Hold; simpl; [|done].
        rewrite bool_decide_eq_false_2; [done|].
        apply lookup_lt_Some in Hold.
        pose proof (proj1 (Forall_forall _ _) Hcols row
                      (list_elem_of_lookup_2 _ _ _ Hrow)) as Hw.
        simpl in Hw. lia. }
    rewrite Hsame, list_insert_id by done. by destruct m.
Qed.

Lemma red_square_clipped_witness :
  let m := Memory {["cat" := 0%nat]} [ARgb [[(1, 2, 3); (4, 5, 6)]]%Z] in
  ∃ m' img',
    paint_red_square m = Ok (tt, m')
    ∧ objects m' !! 0%nat = Some (ARgb img')
    ∧ shape2 img' = shape2 [[(1, 2, 3); (4, 5, 6)]]%Z
    ∧ ((length [[(1, 2, 3); (4, 5, 6)]]%Z ≤ 10)%nat
       ∨ Forall (fun row => (length row ≤ 10)%nat) [[(1, 2, 3); (4, 5, 6)]]%Z -> m' = m).
Proof.
  intros m. apply (red_square_clipped m 0%nat [[(1, 2, 3); (4, 5, 6)]]%Z); reflexivity.
Defined.

(** X11.  src/arrays.ipynb, line 212.  In [camera_overflow = 2 * camera] a
    sample below 128 is doubled; a sample of 128 or more wraps around
    to [2 * x - 256], which is less than the sample itself: the bright
    parts of the image come out darker. *)
Theorem camera_overflow_darkens (m : memory) loc camera :
  names m !! "camera" = Some loc -> objects m !! loc = Some (AGray camera) ->
  u8_image camera ->
  ∃ m' l' over,
    double_camera m = Ok (tt, m')
    ∧ names m' !! "camera_overflow" = Some l'
    ∧ objects m' !! l' = Some (AGray over)
    ∧ ∀ i j x, pixel camera i j = Some x ->
        pixel over i j
        = Some (if bool_decide (x < 128)%Z then 2 * x else 2 * x - 256)%Z
        ∧ ((128 ≤ x)%Z -> ∃ y, pixel over i j = Some y ∧ (y < x)%Z).
Proof.
  intros Hn Ho Hu8. eexists _, (length (objects m)), _.
  split; [exact (double_camera_run m loc camera Hn Ho)|]. cbn [names objects].
  split; [apply lookup_insert_eq|]. split.
  - rewrite lookup_app_r by lia.
    replace (length (objects m) - length (objects m))%nat with 0%nat by lia. done.
  - intros i j x Hx. unfold mul_scalar. rewrite pixel_map2d, Hx. simpl.
    assert (Hx8 : is_u8 x).
    { unfold pixel in Hx. destruct (camera !! i) as [row|] eqn:Hrow; [|done].
      simpl in Hx. unfold u8_image in Hu8.
      pose proof (proj1 (Forall_forall _ _) Hu8 row (list_elem_of_lookup_2 _ _ _ Hrow)) as Hr.
      exact (proj1 (Forall_forall _ _) Hr x (list_elem_of_lookup_2 _ _ _ Hx)). }
    unfold is_u8 in Hx8. unfold wrap8.
    assert (Hw : ((2 * x) mod 256 = if bool_decide (x < 128) then 2 * x else 2 * x - 256)%Z).
    { case_bool_decide.
      - apply Z.mod_small. lia.
      - symmetry. apply (Z.mod_unique _ _ 1); lia. }
    rewrite Hw. split; [done|]. intros Hbright.
    rewrite bool_decide_eq_false_2 by lia. eexists. split; [done | lia].
Qed.

Lemma camera_overflow_darkens_witness :
  let m := Memory {["camera" := 0%nat]} [AGray [[100; 200]]%Z] in
  ∃ m' l' over,
    double_camera m = Ok (tt, m')
    ∧ names m' !! "camera_overflow" = Some l'
    ∧ objects m' !! l' = Some (AGray over)
    ∧ ∀ i j x, pixel [[100; 200]]%Z i j = Some x ->
        pixel over i j
        = Some (if bool_decide (x < 128)%Z then 2 * x else 2 * x - 256)%Z
        ∧ ((128 ≤ x)%Z -> ∃ y, pixel over i j = Some y ∧ (y < x)%Z).
Proof.
  intros m. apply (camera_overflow_darkens m 0%nat [[100; 200]]%Z).
  - reflexivity.
  - reflexivity.
  - unfold u8_image, is_u8. repeat constructor; lia.
Defined.

(** *** The noisy blobs *)

Lemma noisy_blobs_run (blobs : list (list bool)) (randn : list (list Q)) (m : memory) :
  shape2 randn = shape2 blobs ->
  noisy_blobs blobs randn m
  = let im := zip_with (zip_with Qplus) (bool_sub blobs (1 # 2)) (scale (4 # 10) randn) in
    Ok (tt, Memory (<["noisy_im" := S (length (objects m))]>
                      (<["im" := length (objects m)]>
                         (<["im" := length (objects m)]> (names m))))
              (objects m ++ [AFloat im; ABool (qgt_scalar im 0)])%list).
Proof.
  intros Hs. unfold noisy_blobs, centre_blobs, add_noise, threshold_noisy.
  kred. rewrite lookup_insert_eq. kred.
  rewrite (lookup_app_r (objects m)) by lia.
  replace (length (objects m) - length (objects m))%nat with 0%nat by lia.
  cbn [lookup list_lookup app]. kred.
  unfold add_arrays, bool_sub, scale.
  rewrite bool_decide_eq_true_2 by (by rewrite !shape2_map2d).
  kred. rewrite lookup_insert_eq. kred.
  rewrite insert_app_r_alt by lia.
  replace (length (objects m) - length (objects m))%nat with 0%nat by lia.
  cbn [insert list_insert].
  rewrite (lookup_app_r (objects m)) by lia.
  replace (length (objects m) - length (objects m))%nat with 0%nat by lia.
  cbn [lookup list_lookup app]. kred.
  rewrite length_app. cbn [length].
  replace (length (objects m) + 1)%nat with (S (length (objects m))) by lia.
  cbv zeta. by rewrite <- (assoc_L app).
Qed.

(** X12.  src/visualization.ipynb, lines 637-639.  With noise of the shape of the
    blobs, the three statements create two objects and change no other:
    the array [im], which [im += ...] updates in place and which holds
    [blob - 0.5 + 0.4 * noise] sample by sample, and the mask [noisy_im],
    which is [True] where [im] is positive. *)
Theorem noisy_blobs_in_place (blobs : list (list bool)) (randn : list (list Q))
    (m : memory) :
  shape2 randn = shape2 blobs ->
  ∃ m' im,
    noisy_blobs blobs randn m = Ok (tt, m')
    ∧ (∀ l a, objects m !! l = Some a -> objects m' !! l = Some a)
    ∧ length (objects m') = (length (objects m) + 2)%nat
    ∧ names m' !! "im" = Some (length (objects m))
    ∧ names m' !! "noisy_im" = Some (S (length (objects m)))
    ∧ objects m' !! length (objects m) = Some (AFloat im)
    ∧ objects m' !! S (length (objects m)) = Some (ABool (qgt_scalar im 0))
    ∧ shape2 im = shape2 blobs
    ∧ ∀ i j, pixel im i j
             = b ← pixel blobs i j ; r ← pixel randn i j ;
               Some (((if b : bool then 1 else 0) - (1 # 2)) + (4 # 10) * r)%Q.
Proof.
  intros Hs. eexists _, _. split; [exact (noisy_blobs_run blobs randn m Hs)|].
  cbv zeta. cbn [names objects].
  split; [|split; [|split; [|split; [|split; [|split; [|split]]]]]].
  - intros l a Hl. by apply lookup_app_l_Some.
  - rewrite length_app. simpl. lia.
  - by rewrite lookup_insert_ne, lookup_insert_eq.
  - apply lookup_insert_eq.
  - rewrite lookup_app_r by lia.
    replace (length (objects m) - length (objects m))%nat with 0%nat by lia. done.
  - rewrite lookup_app_r by lia.
    replace (S (length (objects m)) - length (objects m))%nat with 1%nat by lia. done.
  - unfold bool_sub, scale. rewrite shape2_zip_with; by rewrite !shape2_map2d.
  - intros i j. rewrite pixel_zip_with. unfold bool_sub, scale. rewrite !pixel_map2d.
    destruct (pixel blobs i j) as [b|]; simpl; [|done].
    by destruct (pixel randn i j).
Qed.

Lemma noisy_blobs_in_place_witness :
  ∃ m' im,
    noisy_blobs [[true; false]] [[1; -2]]%Q fresh_kernel = Ok (tt, m')
    ∧ (∀ l a, objects fresh_kernel !! l = Some a -> objects m' !! l = Some a)
    ∧ length (objects m') = (length (objects fresh_kernel) + 2)%nat
    ∧ names m' !! "im" = Some (length (objects fresh_kernel))
    ∧ names m' !! "noisy_im" = Some (S (length (objects fresh_kernel)))
    ∧ objects m' !! length (objects fresh_kernel) = Some (AFloat im)
    ∧ objects m' !! S (length (objects fresh_kernel)) = Some (ABool (qgt_scalar im 0))
    ∧ shape2 im = shape2 [[true; false]]
    ∧ ∀ i j, pixel im i j
             = b ← pixel [[true; false]] i j ; r ← pixel [[1; -2]]%Q i j ;
               Some (((if b : bool then 1 else 0) - (1 # 2)) + (4 # 10) * r)%Q.
Proof. apply (noisy_blobs_in_place [[true; false]] [[1; -2]]%Q fresh_kernel). reflexivity. Defined.

(** *** Assignment at coordinate arrays *)

Lemma axis_index_lt n z k : axis_index n z = Ok k -> (k < n)%nat.
Proof.
  unfold axis_index. repeat case_bool_decide; intros [= <-]; lia.
Qed.

Lemma set_point_inside {A} (px : A) (img : list (list A)) (rc : Z * Z) :
  inside (shape2 img) rc = true ->
  ∃ img', set_point px img rc = Ok img'
    ∧ shape2 img' = shape2 img
    ∧ ∀ i j, pixel img' i j
             = (fun old => if hits (shape2 img) [rc] i j then px else old)
               <$> pixel img i j.
Proof.
  unfold inside, set_point, hits, resolves. simpl. unfold shape2 at 1 2 4.
  rewrite length_fmap.
  destruct (axis_index (length img) rc.1) as [r|] eqn:Hr; [|done]. simpl.
  unfold shape2 at 1. rewrite list_lookup_fmap.
  destruct (img !! r) as [row|] eqn:Hrow; [|done]. simpl.
  destruct (axis_index (length row) rc.2) as [c|] eqn:Hc; [|done]. simpl. intros _.
  pose proof (lookup_lt_Some _ _ _ Hrow) as Hrlt.
  pose proof (axis_index_lt _ _ _ Hc) as Hclt.
  eexists. split; [reflexivity|]. split.
  - unfold shape2. rewrite list_fmap_insert, length_insert.
    apply list_insert_id. by rewrite list_lookup_fmap, Hrow.
  - intros i j. unfold pixel, shape2. rewrite length_fmap, list_lookup_fmap, Hr.
    rewrite orb_false_r.
    destruct (decide (r = i)) as [<-|Hne].
    + rewrite list_lookup_insert_eq, Hrow by done. simpl. rewrite Hc.
      rewrite bool_decide_eq_true_2 by done. simpl.
      destruct (decide (c = j)) as [<-|Hnc].
      * rewrite list_lookup_insert_eq by done.
        destruct (lookup_lt_is_Some_2 row c Hclt) as [old ->]. simpl.
        by rewrite bool_decide_eq_true_2.
      * rewrite list_lookup_insert_ne by done.
        rewrite bool_decide_eq_false_2 by done. by destruct (row !! j).
    + rewrite list_lookup_insert_ne by done.
      rewrite bool_decide_eq_false_2 by done. simpl.
      destruct (img !! i) as [row'|]; simpl; [|done]. by destruct (row' !! j).
Qed.

Lemma set_point_outside {A} (px : A) (img : list (list A)) (rc : Z * Z) :
  inside (shape2 img) rc = false ->
  set_point px img rc = Raise (IndexError "index is out of bounds").
Proof.
  unfold inside, set_point. unfold shape2 at 1. rewrite length_fmap.
  destruct (axis_index (length img) rc.1) as [r|e] eqn:Hr; simpl.
  - unfold shape2. rewrite list_lookup_fmap.
    destruct (img !! r) as [row|]; simpl; [|done].
    destruct (axis_index (length row) rc.2) as [c|e] eqn:Hc; [done|]. intros _.
    unfold axis_index in Hc. by repeat case_bool_decide; simplify_eq.
  - intros _. unfold axis_index in Hr. by repeat case_bool_decide; simplify_eq.
Qed.

Lemma set_points_inside {A} (px : A) (points : list (Z * Z)) : ∀ img : list (list A),
  forallb (inside (shape2 img)) points = true ->
  ∃ img', set_points px points img = Ok img'
    ∧ shape2 img' = shape2 img
    ∧ ∀ i j, pixel img' i j
             = (fun old => if hits (shape2 img) points i j then px else old)
               <$> pixel img i j.
Proof.
  induction points as [|rc rest IH]; intros img Hall.
  - exists img. split; [done|]. split; [done|]. intros i j. simpl.
    by destruct (pixel img i j).
  - simpl in Hall. apply andb_true_iff in Hall as [Hrc Hrest].
    destruct (set_point_inside px img rc Hrc) as (img1 & H1 & Hs1 & Hp1).
    rewrite <- Hs1 in Hrest.
    destruct (IH img1 Hrest) as (img' & H2 & Hs2 & Hp2).
    exists img'. simpl. rewrite H1. simpl. split; [exact H2|].
    split; [congruence|]. intros i j. rewrite Hp2, Hp1, Hs1.
    unfold hits. simpl. rewrite orb_false_r.
    destruct (pixel img i j) as [old|]; simpl; [|done].
    by destruct (_ && _), (existsb _ rest).
Qed.

Lemma set_points_outside {A} (px : A) (points : list (Z * Z)) : ∀ img : list (list A),
  forallb (inside (shape2 img)) points = false ->
  set_points px points img = Raise (IndexError "index is out of bounds").
Proof.
  induction points as [|rc rest IH]; intros img Hall; [done|].
  simpl in Hall. simpl. destruct (inside (shape2 img) rc) eqn:Hrc.
  - destruct (set_point_inside px img rc Hrc) as (img1 & -> & Hs1 & _). simpl.
    apply IH. by rewrite Hs1.
  - by rewrite set_point_outside.
Qed.

(** X13.  src/visualization.ipynb, lines 294-295.  Where [coins_color] names an
    RGB image: if every coordinate of the perimeter addresses a pixel
    (negative coordinates counting from the end), the assignment creates no
    object and binds no name; it overwrites the image in place, the pixels
    on the perimeter becoming [(220, 20, 20)] and every other pixel and
    object staying as it was.  If some coordinate is outside the image the
    assignment raises [IndexError]. *)
Theorem circle_marked_in_place (perimeter : list (Z * Z)) (m : memory) loc img :
  names m !! "coins_color" = Some loc -> objects m !! loc = Some (ARgb img) ->
  (forallb (inside (shape2 img)) perimeter = true ->
   ∃ m' img',
     mark_circle perimeter m = Ok (tt, m')
     ∧ names m' = names m
     ∧ length (objects m') = length (objects m)
     ∧ (∀ l, l ≠ loc -> objects m' !! l = objects m !! l)
     ∧ objects m' !! loc = Some (ARgb img')
     ∧ shape2 img' = shape2 img
     ∧ ∀ i j, pixel img' i j
              = (fun old => if hits (shape2 img) perimeter i j
                            then (220, 20, 20)%Z else old) <$> pixel img i j)
  ∧ (forallb (inside (shape2 img)) perimeter = false ->
     mark_circle perimeter m = Raise (IndexError "index is out of bounds")).
Proof.
  intros Hn Ho.
  assert (Hlt : (loc < length (objects m))%nat) by (by eapply lookup_lt_Some).
  split.
  - intros Hall.
    destruct (set_points_inside (220, 20, 20)%Z perimeter img Hall)
      as (img' & Hset & Hshape & Hpix).
    eexists _, img'. split.
    { unfold mark_circle. kred. rewrite Hn. kred. rewrite Ho. kred.
      rewrite Hset. kred. reflexivity. }
    cbn [names objects]. split; [done|]. split; [apply length_insert|].
    split; [intros l Hl; by apply list_lookup_insert_ne|].
    split; [by apply list_lookup_insert_eq|]. by split.
  - intros Hout. unfold mark_circle. kred. rewrite Hn. kred. rewrite Ho. kred.
    by rewrite set_points_outside.
Qed.

Lemma circle_marked_in_place_witness :
  let m := Memory {["coins_color" := 0%nat]}
             [ARgb [[(1, 1, 1); (2, 2, 2)]; [(3, 3, 3); (4, 4, 4)]]%Z] in
  let img := [[(1, 1, 1); (2, 2, 2)]; [(3, 3, 3); (4, 4, 4)]]%Z in
  (forallb (inside (shape2 img)) [(0, 1); (-1, 0)]%Z = true ->
   ∃ m' img',
     mark_circle [(0, 1); (-1, 0)]%Z m = Ok (tt, m')
     ∧ names m' = names m
     ∧ length (objects m') = length (objects m)
     ∧ (∀ l, l ≠ 0%nat -> objects m' !! l = objects m !! l)
     ∧ objects m' !! 0%nat = Some (ARgb img')
     ∧ shape2 img' = shape2 img
     ∧ ∀ i j, pixel img' i j
              = (fun old => if hits (shape2 img) [(0, 1); (-1, 0)]%Z i j
                            then (220, 20, 20)%Z else old) <$> pixel img i j)
  ∧ (forallb (inside (shape2 img)) [(0, 1); (-1, 0)]%Z = false ->
     mark_circle [(0, 1); (-1, 0)]%Z m = Raise (IndexError "index is out of bounds")).
Proof.
  intros m img.
  apply (circle_marked_in_place [(0, 1); (-1, 0)]%Z m 0%nat img); reflexivity.
Defined.

(** On a 2x2 image, the perimeter [(0, 1), (-1, 0)] marks the pixels
    [(0, 1)] and [(1, 0)]; a perimeter with row 2 is refused. *)
Example circle_marked_example :
  let m := Memory {["coins_color" := 0%nat]}
             [ARgb [[(1, 1, 1); (2, 2, 2)]; [(3, 3, 3); (4, 4, 4)]]%Z] in
  mark_circle [(0, 1); (-1, 0)]%Z m
  = Ok (tt, Memory {["coins_color" := 0%nat]}
              [ARgb [[(1, 1, 1); (220, 20, 20)]; [(220, 20, 20); (4, 4, 4)]]%Z])
  ∧ mark_circle [(0, 1); (2, 0)]%Z m = Raise (IndexError "index is out of bounds").
Proof. split; reflexivity. Qed.

End KernelProperties.

(** ** More on the array statements: the seeds on a regular grid *)

Module GridProperties.
Import Py NumPy.
Local Open Scope nat_scope.

Lemma stride_length start step n :
  length (stride start step n) = (n - start + (step - 1)) / step.
Proof. unfold stride. by rewrite length_fmap, length_seq. Qed.

Lemma stride_lookup start step n a :
  a < length (stride start step n) -> stride start step n !! a = Some (start + a * step).
Proof.
  rewrite stride_length. intros Ha. unfold stride.
  rewrite list_lookup_fmap, lookup_seq_lt by done. done.
Qed.

Lemma stride_bound start step n a :
  0 < step -> a < length (stride start step n) -> start + a * step < n.
Proof.
  rewrite stride_length. intros Hs Ha.
  pose proof (Nat.div_mod_eq (n - start + (step - 1)) step) as Hd.
  pose proof (Nat.mod_upper_bound (n - start + (step - 1)) step) as Hm.
  nia.
Qed.

Lemma stride_NoDup start step n : 0 < step -> NoDup (stride start step n).
Proof.
  intros Hs. unfold stride. apply NoDup_fmap_2_strong; [|apply NoDup_seq].
  intros x y _ _ Heq. nia.
Qed.

Lemma position_lookup (idx : list nat) i a :
  NoDup idx -> idx !! a = Some i -> position i idx = Some a.
Proof.
  intros Hnd Ha. unfold position.
  destruct (list_find (fun k => k = i) idx) as [[a' i']|] eqn:Hf; simpl.
  - apply list_find_Some in Hf as (Ha' & -> & _).
    f_equal. by eapply NoDup_lookup.
  - apply list_find_None in Hf.
    pose proof (proj1 (Forall_forall _ _) Hf i (list_elem_of_lookup_2 _ _ _ Ha)). done.
Qed.

Lemma position_Some (idx : list nat) i a : position i idx = Some a -> idx !! a = Some i.
Proof.
  unfold position. destruct (list_find _ idx) as [[a' i']|] eqn:Hf; simpl; [|done].
  intros [= <-]. by apply list_find_Some in Hf as (Ha' & -> & _).
Qed.

Lemma select_replicate {A} (x : A) (h w : nat) (rows cols : list nat) :
  Forall (fun i => i < h) rows -> Forall (fun j => j < w) cols ->
  select rows cols (replicate h (replicate w x))
  = replicate (length rows) (replicate (length cols) x).
Proof.
  intros Hrows Hcols. unfold select.
  assert (Hrow : omap (fun j => replicate w x !! j) cols = replicate (length cols) x).
  { induction Hcols as [|j cols Hj _ IH]; [done|].
    change (omap ?f (j :: cols))
      with (match f j with Some y => y :: omap f cols | None => omap f cols end).
    cbv beta. rewrite lookup_replicate_2 by done. rewrite IH. done. }
  induction Hrows as [|i rows Hi _ IH]; [done|].
  change (omap ?f (i :: rows))
    with (match f i with Some y => y :: omap f rows | None => omap f rows end).
  cbv beta. rewrite lookup_replicate_2 by done.
  cbn [fmap option_fmap option_map]. rewrite Hrow, IH. done.
Qed.

Lemma chunks_shape {A} (r c : nat) : ∀ l : list A,
  length l = r * c -> shape2 (chunks r c l) = replicate r c.
Proof.
  unfold shape2. induction r as [|r IH]; intros l Hl; [done|]. simpl.
  rewrite length_take, IH by (rewrite length_drop; lia). f_equal. lia.
Qed.

Lemma chunks_pixel {A} (r c : nat) : ∀ (l : list A) a b,
  a < r -> b < c -> pixel (chunks r c l) a b = l !! (a * c + b).
Proof.
  unfold pixel. induction r as [|r IH]; intros l a b Ha Hb; [lia|].
  destruct a as [|a]; simpl.
  - by rewrite lookup_take_lt.
  - rewrite IH by lia. rewrite lookup_drop. f_equal. lia.
Qed.

Lemma arange_lookup n k : k < n -> arange n !! k = Some (Z.of_nat k).
Proof. intros Hk. unfold arange. by rewrite list_lookup_fmap, lookup_seq_lt. Qed.

Lemma count_from_one_run (r c : nat) :
  ∃ vals, count_from_one r c = Ok vals
    ∧ shape2 vals = replicate r c
    ∧ ∀ a b, a < r -> b < c -> pixel vals a b = Some (Z.of_nat (a * c + b) + 1)%Z.
Proof.
  unfold count_from_one, reshape.
  assert (Hlen : length (arange (r * c)) = r * c)
    by (unfold arange; by rewrite length_fmap, length_seq).
  rewrite bool_decide_eq_true_2 by done. simpl.
  eexists. split; [reflexivity|]. split.
  - rewrite KernelFacts.shape2_map2d. by apply chunks_shape.
  - intros a b Ha Hb. rewrite KernelProperties.pixel_map2d, chunks_pixel by done.
    rewrite arange_lookup by nia. done.
Qed.

(** X14.  src/visualization.ipynb, lines 761-762.  For a grid with positive
    steps the two statements succeed.  [seeds] has the shape of the image;
    the grid point in row [a] and column [b] of the grid, at
    [(r0 + a * rs, c0 + b * cs)], holds the label [a * nc + b + 1], so the
    labels are 1, 2, ... in reading order, each once; every other sample
    is 0. *)
Theorem seeds_numbered (h w r0 rs c0 cs : nat) :
  0 < rs -> 0 < cs ->
  let nr := length (stride r0 rs h) in
  let nc := length (stride c0 cs w) in
  ∃ s, seeds_on_grid h w r0 rs c0 cs = Ok s
    ∧ shape2 s = replicate h w
    ∧ (∀ a b, a < nr -> b < nc ->
         pixel s (r0 + a * rs) (c0 + b * cs) = Some (Z.of_nat (a * nc + b) + 1)%Z)
    ∧ (∀ i j v, pixel s i j = Some v -> v ≠ 0%Z ->
         ∃ a b, a < nr ∧ b < nc ∧ i = r0 + a * rs ∧ j = c0 + b * cs).
Proof.
  intros Hrs Hcs nr nc. unfold seeds_on_grid.
  assert (Hrows : Forall (fun i => i < h) (stride r0 rs h)).
  { apply Forall_lookup. intros a i Ha.
    assert (Hlt : a < length (stride r0 rs h)) by (by eapply lookup_lt_Some).
    rewrite stride_lookup in Ha by done. injection Ha as <-. by apply stride_bound. }
  assert (Hcols : Forall (fun j => j < w) (stride c0 cs w)).
  { apply Forall_lookup. intros b j Hb.
    assert (Hlt : b < length (stride c0 cs w)) by (by eapply lookup_lt_Some).
    rewrite stride_lookup in Hb by done. injection Hb as <-. by apply stride_bound. }
  rewrite select_replicate by done. fold nr nc.
  rewrite length_replicate.
  set (nc' := width (replicate nr (replicate nc 0%Z))).
  assert (Hnc : nr = 0 ∨ nc' = nc).
  { unfold nc', width, shape2. destruct nr; [by left | right]. simpl.
    by rewrite length_replicate. }
  destruct (count_from_one_run nr nc') as (vals & -> & Hshape & Hvals). simpl.
  unfold set_grid. rewrite select_replicate by done. fold nr nc.
  rewrite bool_decide_eq_true_2.
  2:{ rewrite Hshape. unfold shape2. rewrite fmap_replicate, length_replicate.
      destruct Hnc as [->| ->]; done. }
  eexists. split; [reflexivity|]. split; [|split].
  - unfold shape2. rewrite fmap_imap. apply list_eq. intros i.
    rewrite list_lookup_imap. destruct (decide (i < h)) as [Hi|Hi].
    + rewrite !lookup_replicate_2 by done. simpl.
      destruct (position i (stride r0 rs h)); simpl;
        by rewrite ?length_imap, length_replicate.
    + rewrite !(proj1 (lookup_replicate_None _ _ _)) by lia. done.
  - intros a b Ha Hb.
    pose proof (stride_bound r0 rs h a Hrs Ha) as Hi.
    pose proof (stride_bound c0 cs w b Hcs Hb) as Hj.
    unfold pixel at 1. rewrite list_lookup_imap, lookup_replicate_2 by done. simpl.
    rewrite (position_lookup _ _ a) by (by apply stride_NoDup || by apply stride_lookup).
    rewrite list_lookup_imap, lookup_replicate_2 by done. simpl.
    rewrite (position_lookup _ _ b) by (by apply stride_NoDup || by apply stride_lookup).
    assert (Hnr : nr ≠ 0) by (unfold nr; lia).
    destruct Hnc as [?| ->]; [done|].
    rewrite Hvals by done. done.
  - intros i j v Hpix Hv. unfold pixel in Hpix. rewrite list_lookup_imap in Hpix.
    destruct (replicate h (replicate w 0%Z) !! i) as [row|] eqn:Hrow; [|done].
    apply lookup_replicate in Hrow as [-> Hi]. simpl in Hpix.
    destruct (position i (stride r0 rs h)) as [a|] eqn:Ha.
    + rewrite list_lookup_imap in Hpix.
      destruct (replicate w 0%Z !! j) as [old|] eqn:Hold; [|done].
      apply lookup_replicate in Hold as [-> Hj]. simpl in Hpix.
      destruct (position j (stride c0 cs w)) as [b|] eqn:Hb; [|by simplify_eq].
      apply position_Some in Ha, Hb.
      assert (Ha' : a < nr) by (by eapply lookup_lt_Some).
      assert (Hb' : b < nc) by (by eapply lookup_lt_Some).
      rewrite stride_lookup in Ha, Hb by done.
      exists a, b. by simplify_eq.
    + apply lookup_replicate in Hpix as [-> _]. done.
Qed.

Lemma seeds_numbered_witness :
  ∃ s, seeds_on_grid 4 5 1 2 0 2 = Ok s
    ∧ shape2 s = replicate 4 5
    ∧ (∀ a b, a < length (stride 1 2 4) -> b < length (stride 0 2 5) ->
         pixel s (1 + a * 2) (0 + b * 2)
         = Some (Z.of_nat (a * length (stride 0 2 5) + b) + 1)%Z)
    ∧ (∀ i j v, pixel s i j = Some v -> v ≠ 0%Z ->
         ∃ a b, a < length (stride 1 2 4) ∧ b < length (stride 0 2 5)
                ∧ i = 1 + a * 2 ∧ j = 0 + b * 2).
Proof. apply (seeds_numbered 4 5 1 2 0 2); lia. Defined.

(** On a 4x5 image, the grid [(1::2, 0::2)] has two rows and three columns. *)
Example seeds_on_grid_example :
  seeds_on_grid 4 5 1 2 0 2
  = Ok [[0; 0; 0; 0; 0]; [1; 0; 2; 0; 3]; [0; 0; 0; 0; 0]; [4; 0; 5; 0; 6]]%Z.
Proof. reflexivity. Qed.

End GridProperties.

(** ** More on the sessions: the builtins *)

Module SessionProperties.
Import Py Syntax Notebooks Session Static Outcomes SessionFacts.
Local Open Scope nat_scope.

(** X15.  No cell rebinds a builtin: after any number of cells of any notebook,
    whatever the library did, [print], [type], [len], [min], [max], [zip]
    and the other builtins still resolve to the builtins. *)
Theorem builtins_not_rebound (w : world) (fuel : nat) (nb : list cell) (k : nat)
    (σ : state) (x : string) :
  nb ∈ all_notebooks ->
  final_state (run_cells w fuel (take k nb) fresh_kernel) = Some σ ->
  x ∈ builtins ->
  env σ !! x = None ∧ lookup_name x σ = Some (VLib ("builtins." ++ x)).
Proof.
  intros Hnb Hσ Hx.
  assert (Hall : forallb (fun nb => forallb (fun x => negb (bool_decide
                   (x ∈ program nb ≫= binds))) builtins) all_notebooks = true)
    by (vm_compute; reflexivity).
  rewrite forallb_forall in Hall. apply list_elem_of_In, Hall in Hnb.
  rewrite forallb_forall in Hnb. pose proof Hx as Hx'.
  apply list_elem_of_In, Hnb in Hx'.
  apply negb_true_iff, bool_decide_eq_false in Hx'.
  pose proof (run_cells_bounded w fuel (take k nb) fresh_kernel) as Hb.
  assert (Hbetween : env_between fresh_kernel (program (take k nb) ≫= binds) σ).
  { destruct (run_cells w fuel (take k nb) fresh_kernel); simpl in *; by simplify_eq. }
  destruct Hbetween as [_ Hnew].
  assert (Hfree : env σ !! x = None).
  { destruct (env σ !! x) as [v|] eqn:Hv; [|reflexivity].
    destruct (Hnew x) as [[v' Hv']|Hin]; [by eauto| |].
    - simpl in Hv'. by rewrite lookup_empty in Hv'.
    - by apply prefix_binds in Hin. }
  split; [exact Hfree|]. unfold lookup_name. rewrite Hfree.
  by rewrite bool_decide_eq_true_2.
Qed.

Lemma builtins_not_rebound_witness :
  let σ := default fresh_kernel
             (final_state (run_cells (calm 0) 64 (take 5 arrays) fresh_kernel)) in
  env σ !! "print" = None ∧ lookup_name "print" σ = Some (VLib ("builtins." ++ "print")).
Proof.
  intros σ. apply (builtins_not_rebound (calm 0) 64 arrays 5 σ "print").
  - unfold all_notebooks. left.
  - vm_compute. reflexivity.
  - apply (bool_decide_unpack ("print" ∈ builtins)). vm_compute. exact I.
Defined.

End SessionProperties.
